(** * Cane & Camera portfolio scripts: gallery loader and lightbox carousel

    A shallow embedding of [assets/js/gallery.js] and of the lightbox
    closure of [assets/js/documentaries.js].

    Conventions of the embedding.
    - A JavaScript string is a [string] of bytes; the string builtins
      ([toLowerCase], [trim], [split], [parseInt], [replace]) are written
      out over that type, with case mapping and white space taken on the
      ASCII range.
    - An optional JSON field is an [option string]; [x || d] on such a field
      takes [d] when the field is absent or the empty string.
    - Module-scoped [let] variables of a closure become the fields of a
      state record, and every function of the closure a state transformer.
    - A JavaScript number holding an index or a count is a [Z]; a width
      read by [parseInt] is taken below [2^53], where a number holds
      every integer exactly.
    - [localeCompare] orders by the collation of the host: the loader is
      written over the comparison the host provides, of which only a
      total ordering is assumed. *)

From Stdlib Require Import ZArith Ascii String DecimalString DecimalN.
From stdpp Require Import base tactics option list sorting strings gmap.

Local Open Scope string_scope.
Local Open Scope list_scope.
Local Open Scope Z_scope.

(** ** JavaScript string builtins *)

Module Js.

(** Truthiness of a possibly absent string: [undefined] and the empty
    string are falsy. *)
Definition truthy (o : option string) : bool :=
  match o with
  | Some (String _ _) => true
  | _ => false
  end.

(** [o || d] *)
Definition orElse (o : option string) (d : string) : string :=
  match o with
  | Some (String c r) => String c r
  | _ => d
  end.

Definition lowerChar (c : ascii) : ascii :=
  let n := nat_of_ascii c in
  if (Nat.leb 65 n && Nat.leb n 90)%bool then ascii_of_nat (n + 32) else c.

(** [s.toLowerCase()] *)
Fixpoint toLowerCase (s : string) : string :=
  match s with
  | EmptyString => EmptyString
  | String c r => String (lowerChar c) (toLowerCase r)
  end.

(** White space as matched by [\s] and stripped by [trim]:
    TAB, LF, VT, FF, CR and SPACE. *)
Definition isSpace (c : ascii) : bool :=
  let n := nat_of_ascii c in
  ((Nat.leb 9 n && Nat.leb n 13) || Nat.eqb n 32)%bool.

Fixpoint trimStart (s : string) : string :=
  match s with
  | String c r => if isSpace c then trimStart r else s
  | EmptyString => EmptyString
  end.

(** Strips trailing white space: a character is kept when something
    non-blank follows it or it is itself non-blank. *)
Fixpoint trimEnd (s : string) : string :=
  match s with
  | EmptyString => EmptyString
  | String c r =>
      match trimEnd r with
      | EmptyString => if isSpace c then EmptyString else String c EmptyString
      | r' => String c r'
      end
  end.

(** [s.trim()] *)
Definition trim (s : string) : string := trimEnd (trimStart s).

(** [String(n)] of a non-negative integer: its decimal digits. *)
Definition decimal (n : N) : string := NilZero.string_of_uint (N.to_uint n).

(** [s.split(sep)] with a one-character separator. *)
Fixpoint splitChar (sep : ascii) (s : string) : list string :=
  match s with
  | EmptyString => [EmptyString]
  | String c r =>
      if Ascii.eqb c sep then EmptyString :: splitChar sep r
      else match splitChar sep r with
           | h :: t => String c h :: t
           | [] => [String c EmptyString]
           end
  end.

(** [s.split(/\s+/)]: a maximal run of white space is one separator;
    [inSep] records that the previous character belonged to such a run. *)
Fixpoint splitSpacesFrom (inSep : bool) (s : string) : list string :=
  match s with
  | EmptyString => [EmptyString]
  | String c r =>
      if isSpace c then
        if inSep then splitSpacesFrom true r
        else EmptyString :: splitSpacesFrom true r
      else match splitSpacesFrom false r with
           | h :: t => String c h :: t
           | [] => [String c EmptyString]
           end
  end.

Definition splitSpaces (s : string) : list string := splitSpacesFrom false s.

Definition digitValue (c : ascii) : option Z :=
  let n := nat_of_ascii c in
  if (Nat.leb 48 n && Nat.leb n 57)%bool then Some (Z.of_nat n - 48) else None.

(** The digits read so far are [acc] ([None] before the first digit);
    parsing stops at the first character that is not a digit. *)
Fixpoint parseDigits (acc : option Z) (s : string) : option Z :=
  match s with
  | EmptyString => acc
  | String c r =>
      match digitValue c with
      | Some d => parseDigits (Some (default 0 acc * 10 + d)) r
      | None => acc
      end
  end.

(** [parseInt(s, 10)] on a string; [None] stands for NaN.  Leading white
    space is skipped, one sign is accepted, then the longest run of
    digits is read. *)
Definition parseInt (s : string) : option Z :=
  match trimStart s with
  | String c r =>
      if Ascii.eqb c "-" then Z.opp <$> parseDigits None r
      else if Ascii.eqb c "+" then parseDigits None r
      else parseDigits None (String c r)
  | EmptyString => None
  end.

(** [parseInt(x, 10)] on a value that may be [undefined]: the argument is
    first converted to the string [undefined], which has no digits. *)
Definition parseIntOpt (x : option string) : option Z :=
  match x with
  | Some s => parseInt s
  | None => None
  end.

(** [Array.prototype.sort(cmp)]: a stable sort.  [insertBy] puts [x] in
    front of the first element it does not have to follow. *)
Section Sort.
Context {A : Type} (cmp : A -> A -> comparison).

Fixpoint insertBy (x : A) (l : list A) : list A :=
  match l with
  | [] => [x]
  | y :: r =>
      match cmp x y with
      | Gt => y :: insertBy x r
      | _ => x :: y :: r
      end
  end.

Definition sortBy (l : list A) : list A := foldr insertBy [] l.
End Sort.

End Js.

(** ** Statements that update a state and may throw *)

Inductive Completion (A : Type) :=
| Normal (a : A)
| Throw (msg : string).
Arguments Normal {A} a.
Arguments Throw {A} msg.

(** A computation over a state [S]: the state it leaves and how it
    completed.  A thrown error skips the rest of the computation and keeps
    the state reached so far. *)
Definition Eff (S A : Type) : Type := S -> S * Completion A.

Definition throw {S A} (msg : string) : Eff S A := fun st => (st, Throw msg).
Definition modify {S} (f : S -> S) : Eff S unit := fun st => (f st, Normal tt).
Definition gets {S A} (f : S -> A) : Eff S A := fun st => (st, Normal (f st)).

#[export] Instance Eff_ret {S} : MRet (Eff S) :=
  fun A (a : A) st => (st, Normal a).
#[export] Instance Eff_bind {S} : MBind (Eff S) :=
  fun A B (k : A -> Eff S B) (m : Eff S A) st =>
    match m st with
    | (st', Normal a) => k a st'
    | (st', Throw e) => (st', Throw e)
    end.

(** An event listener: the handler runs, and an error it throws is
    reported by the browser and otherwise dropped. *)
Definition listener {S} (h : Eff S unit) (st : S) : S := fst (h st).

(** ** gallery.js: the image of a card *)

Module Thumbnail.

(** One rendition of a photo. *)
Record Variant := mkVariant {
  v_src : string;
  v_w : N;
  v_h : N
}.

#[export] Instance Variant_eq_dec : EqDecision Variant.
Proof. solve_decision. Defined.

(** [photo.variants] is an object from width keys to renditions: [None]
    when the field is missing, otherwise its own properties in the order
    [Object.keys] lists them. *)
Abbreviation Variants := (option (list (string * Variant))).

(** The properties of [variants || {}]. *)
Definition entries (vs : Variants) : list (string * Variant) := default [] vs.

(** [variants[k]] for a key [k] that is the decimal form of a number (no
    such key names a property of [Object.prototype]); [None] is
    [undefined]. *)
Fixpoint lookupKey (k : string) (tbl : list (string * Variant)) : option Variant :=
  match tbl with
  | [] => None
  | (k', v) :: r => if String.eqb k' k then Some v else lookupKey k r
  end.

(** [String(z)] of an integer. *)
Definition numberToString (z : Z) : string :=
  if z <? 0 then "-" +:+ Js.decimal (Z.to_N (- z)) else Js.decimal (Z.to_N z).

(** [Object.keys(variants||{}).map(n => parseInt(n,10)).filter(Boolean)]:
    keys that do not start with a number, and keys that read as zero,
    are dropped. *)
Definition sizes (vs : Variants) : list Z :=
  omap (fun kv : string * Variant =>
          match Js.parseInt (fst kv) with
          | Some z => if z =? 0 then None else Some z
          | None => None
          end)
       (entries vs).

(** [(a,b) => a-b] and [(a,b) => b-a], by the sign of the difference. *)
Definition ascending (a b : Z) : comparison := Z.compare a b.
Definition descending (a b : Z) : comparison := Z.compare b a.

(** [l.join(sep)] *)
Fixpoint join (sep : string) (l : list string) : string :=
  match l with
  | [] => EmptyString
  | [x] => x
  | x :: r => x +:+ sep +:+ join sep r
  end.

(** The [map] of [buildSrcset]: reading [.src] of a missing rendition
    throws. *)
Fixpoint pieces (tbl : list (string * Variant)) (ss : list Z) : Completion (list string) :=
  match ss with
  | [] => Normal []
  | s :: r =>
      match lookupKey (numberToString s) tbl with
      | None => Throw "TypeError: Cannot read properties of undefined (reading 'src')"
      | Some v =>
          match pieces tbl r with
          | Normal ps => Normal ((v_src v +:+ " " +:+ numberToString s +:+ "w") :: ps)
          | Throw e => Throw e
          end
      end
  end.

Definition buildSrcset (vs : Variants) : Completion string :=
  match pieces (entries vs) (Js.sortBy ascending (sizes vs)) with
  | Normal ps => Normal (join ", " ps)
  | Throw e => Throw e
  end.

(** [None] stands for both [null] (no size) and [undefined] (no rendition
    under the largest size); [createCard] only tests the result for
    truthiness. *)
Definition largestVariant (vs : Variants) : option Variant :=
  match Js.sortBy descending (sizes vs) with
  | [] => None
  | s :: _ => lookupKey (numberToString s) (entries vs)
  end.

(** What [createCard] sets on the skeleton and the [img] from the
    renditions: the aspect ratio of the placeholder, and the [src] and
    [srcset] attributes when there is something to set. *)
Record Image := mkImage {
  aspectRatio : string;
  img_src : option string;
  img_srcset : option string
}.

Definition cardImage (vs : Variants) : Completion Image :=
  let largest := largestVariant vs in
  let ratio :=
    match largest with
    | Some v => Js.decimal (v_w v) +:+ " / " +:+ Js.decimal (v_h v)
    | None => "3 / 2"
    end in
  match buildSrcset vs with
  | Throw e => Throw e
  | Normal srcset =>
      Normal (mkImage ratio (v_src <$> largest)
                      (if Js.truthy (Some srcset) then Some srcset else None))
  end.

End Thumbnail.

(** ** gallery.js *)

Module Gallery.
Import Thumbnail.

Definition BATCH_SIZE : Z := 20.

(** A record of the photo manifest.  Every field is optional in the JSON
    file. *)
Record Photo := mkPhoto {
  slug : option string;
  title : option string;
  description : option string;
  datetime : option string;
  camera : option string;
  lens : option string;
  exif : option string;
  gallery : option string;
  variants : Variants
}.

#[export] Instance Photo_eq_dec : EqDecision Photo.
Proof. solve_decision. Defined.

(** *** escapeHTML *)

(** The replacement table of [escapeHTML], applied to one character
    matched by the global pattern (ampersand, less-than, greater-than,
    double quote, single quote); other characters are copied. *)
Definition escapeChar (c : ascii) : string :=
  if Ascii.eqb c "&" then "&amp;"
  else if Ascii.eqb c "<" then "&lt;"
  else if Ascii.eqb c ">" then "&gt;"
  else if Ascii.eqb c "034" then "&quot;"
  else if Ascii.eqb c "'" then "&#39;"
  else String c EmptyString.

Fixpoint escapeHTML (s : string) : string :=
  match s with
  | EmptyString => EmptyString
  | String c r => escapeChar c +:+ escapeHTML r
  end.

(** *** The page and the script's effects *)

(** A template literal is kept as its pieces: the literal text of the
    template and the values interpolated into it. *)
Inductive Frag :=
| Markup (s : string)
| Interp (s : string).

Definition fragText (f : Frag) : string :=
  match f with Markup s => s | Interp s => s end.

Definition renderFrags (fs : list Frag) : string :=
  foldr (fun f acc => fragText f +:+ acc) EmptyString fs.

(** What [createCard] builds for a photo: the attributes of the
    placeholder and the thumbnail computed from the variants table, the
    alternative text of the thumbnail, and the markup assigned to the
    [innerHTML] of the metadata block. *)
Record Card := mkCard {
  card_image : Image;
  card_alt : string;
  card_meta : list Frag
}.

Record NavLink := mkNavLink {
  nav_g : option string;
  nav_active : bool
}.

(** The parts of the document the script reads and writes.  An element
    looked up by selector that is missing from the page is [None];
    [sentinel] tells whether the sentinel element is in the document. *)
Record Page := mkPage {
  container : option (list Card);
  sentinel : bool;
  galleryTitle : option string;
  galleryDesc : option string;
  navLinks : list NavLink;
  console : list string
}.

Record Response := mkResponse {
  ok : bool;
  status : N;
  body : list Photo
}.

(** The page's surroundings: the value of [g] in the query string and the
    response the manifest request resolves to. *)
Record Env := mkEnv {
  search_g : option string;
  response : Response
}.

(** A computation over the page that may throw. *)
Abbreviation Script := (Eff Page).

Definition JSON_URL : string := "assets/img/gallery/generated/photos.json".

(** *** LABELS *)

Record Label := mkLabel {
  l_title : string;
  l_desc : string
}.

Definition LABELS : gmap string Label :=
  list_to_map
    [ ("wildlife", mkLabel "Wildlife" "Moments from the wild.");
      ("landscapes", mkLabel "Landscapes" "Light, weather, terrain.");
      ("panoramas", mkLabel "Panoramas" "Wide stories in a single frame.");
      ("documentaries", mkLabel "Documentaries" "Stills and BTS from films.");
      ("all", mkLabel "Gallery" "Curated works.") ].

Definition LABELS_all : Label := mkLabel "Gallery" "Curated works.".

(** [LABELS] is an object literal, so a property read that misses its own
    keys continues on [Object.prototype].  These are the names found
    there; each holds a function, or for [__proto__] the prototype
    object itself. *)
Definition objectPrototype : list string :=
  [ "constructor"; "__proto__"; "hasOwnProperty"; "isPrototypeOf";
    "propertyIsEnumerable"; "toLocaleString"; "toString"; "valueOf";
    "__defineGetter__"; "__defineSetter__";
    "__lookupGetter__"; "__lookupSetter__" ].

Inductive Value :=
| VLabel (l : Label)
| VBuiltin (name : string).

(** [LABELS[k]]; [None] is [undefined]. *)
Definition getLabel (k : string) : option Value :=
  match LABELS !! k with
  | Some l => Some (VLabel l)
  | None => if bool_decide (k ∈ objectPrototype) then Some (VBuiltin k) else None
  end.

(** [meta.title] and [meta.desc]: a builtin has neither property. *)
Definition metaTitle (v : Value) : option string :=
  match v with VLabel l => Some (l_title l) | VBuiltin _ => None end.
Definition metaDesc (v : Value) : option string :=
  match v with VLabel l => Some (l_desc l) | VBuiltin _ => None end.

(** [el.textContent = x]: assigning [undefined] empties the element. *)
Definition textContent (x : option string) : string := default EmptyString x.

(** *** getGalleryKey, fetchData, setHeading *)

Definition getGalleryKey (env : Env) : string :=
  Js.toLowerCase (Js.orElse (search_g env) "all").

Definition fetchData (env : Env) : Script (list Photo) :=
  let res := response env in
  if negb (ok res)
  then throw ("HTTP " +:+ Js.decimal (status res) +:+ " for " +:+ JSON_URL)
  else mret (body res).

Definition toggleActive (gKey : string) (a : NavLink) : NavLink :=
  let key := Js.toLowerCase (Js.orElse (nav_g a) "all") in
  mkNavLink (nav_g a) (bool_decide (key = gKey)).

Definition setHeading (gKey : string) : Script unit :=
  (* every object is truthy, so [||] falls through on [undefined] only *)
  let meta := default (VLabel LABELS_all) (getLabel gKey) in
  modify (fun pg =>
    mkPage (container pg) (sentinel pg)
           ((fun _ => textContent (metaTitle meta)) <$> galleryTitle pg)
           ((fun _ => textContent (metaDesc meta)) <$> galleryDesc pg)
           (toggleActive gKey <$> navLinks pg)
           (console pg)).

(** *** createCard *)

Definition nl : string := String "010" EmptyString.
Definition dq : string := String "034" EmptyString.

(** [<tag class="cls">] *)
Definition openTag (tag cls : string) : string :=
  "<" +:+ tag +:+ " class=" +:+ dq +:+ cls +:+ dq +:+ ">".

Definition bit (tag : string) (field : option string) : list (list Frag) :=
  if Js.truthy field
  then [[Markup (openTag tag "muted");
         Interp (escapeHTML (Js.orElse field EmptyString));
         Markup ("</" +:+ tag +:+ ">")]]
  else [].

(** [bits.join(sep)] *)
Fixpoint joinFrags (sep : string) (bits : list (list Frag)) : list Frag :=
  match bits with
  | [] => []
  | [b] => b
  | b :: rest => b ++ Markup sep :: joinFrags sep rest
  end.

Definition metaHTML (photo : Photo) : list Frag :=
  let bits := bit "time" (datetime photo) ++ bit "span" (camera photo)
              ++ bit "span" (lens photo) in
  [Markup (nl +:+ "      <strong>");
   Interp (escapeHTML (Js.orElse (title photo) (Js.orElse (slug photo) "Untitled")));
   Markup ("</strong>" +:+ nl +:+ "      ")]
  ++ match bits with
     | [] => []
     | _ => Markup " · " :: joinFrags " · " bits
     end
  ++ [Markup (nl +:+ "      ")]
  ++ (if Js.truthy (exif photo)
      then [Markup (openTag "div" "muted");
            Interp (escapeHTML (Js.orElse (exif photo) EmptyString));
            Markup "</div>"]
      else [])
  ++ [Markup (nl +:+ "      ")]
  ++ (if Js.truthy (Some (Js.trim (Js.orElse (description photo) EmptyString)))
      then [Markup (openTag "div" "cc-desc");
            Interp (escapeHTML (Js.orElse (description photo) EmptyString));
            Markup "</div>"]
      else [])
  ++ [Markup (nl +:+ "    ")].

Definition altText (photo : Photo) : string :=
  let t := if Js.truthy (title photo)
           then Some (Js.trim (Js.orElse (title photo) EmptyString))
           else None in
  Js.orElse t (Js.orElse (slug photo) "Photo").

(** [createCard]: [buildSrcset] may throw on the variants table, and
    then no card is built. *)
Definition createCard (photo : Photo) : Completion Card :=
  match cardImage (variants photo) with
  | Normal image => Normal (mkCard image (altText photo) (metaHTML photo))
  | Throw err => Throw err
  end.

(** *** init *)

(** The closure [init] leaves behind for the observer callback: the
    filtered and sorted array, the pagination index, the page, and
    whether the intersection observer is observing. *)
Record Loader := mkLoader {
  page : Page;
  data : list Photo;
  idx : Z;
  observing : bool
}.

(** The filtering step of [init]. *)
Definition filterData (gKey : string) (data : list Photo) : list Photo :=
  if bool_decide (gKey <> "all")
  then List.filter
         (fun p => String.eqb (Js.toLowerCase (Js.orElse (gallery p) EmptyString)) gKey)
         data
  else data.

(** [container.appendChild(frag)] *)
Definition appendCards (frag : list Card) (pg : Page) : Page :=
  mkPage ((fun cs => cs ++ frag) <$> container pg) (sentinel pg)
         (galleryTitle pg) (galleryDesc pg) (navLinks pg) (console pg).

(** [sentinel.remove()] *)
Definition removeSentinel (pg : Page) : Page :=
  mkPage (container pg) false
         (galleryTitle pg) (galleryDesc pg) (navLinks pg) (console pg).

Definition log (line : string) (pg : Page) : Page :=
  mkPage (container pg) (sentinel pg) (galleryTitle pg) (galleryDesc pg)
         (navLinks pg) (console pg ++ [line]).

(** The [for] loop of [appendBatch]; [n] bounds the iterations left.
    It returns the index it stopped at with the fragment built so far,
    or with the error [createCard] threw: the index then stays on the
    record that failed.  [createCard(undefined)] throws on the read of
    [photo.variants]. *)
Fixpoint renderLoop (n : nat) (data : list Photo) (e i : Z) (frag : list Card)
  : Z * Completion (list Card) :=
  match n with
  | O => (i, Normal frag)
  | S n' =>
      if i <? e then
        match data !! Z.to_nat i with
        | Some p =>
            match createCard p with
            | Normal c => renderLoop n' data e (i + 1) (frag ++ [c])
            | Throw err => (i, Throw err)
            end
        | None =>
            (i, Throw "TypeError: Cannot read properties of undefined (reading 'variants')")
        end
      else (i, Normal frag)
  end.

(** [appendBatch]: when the loop throws, the fragment is dropped and the
    container keeps its children, but [idx] has moved. *)
Definition appendBatch : Eff Loader unit := fun st =>
  let e := Z.min (idx st + BATCH_SIZE) (Z.of_nat (length (data st))) in
  match renderLoop (Z.to_nat (e - idx st)) (data st) e (idx st) [] with
  | (i, Normal frag) =>
      (mkLoader (appendCards frag (page st)) (data st) i (observing st), Normal tt)
  | (i, Throw err) => (mkLoader (page st) (data st) i (observing st), Throw err)
  end.

(** [io.disconnect(); sentinel.remove();] *)
Definition disconnect : Eff Loader unit :=
  modify (fun st => mkLoader (removeSentinel (page st)) (data st) (idx st) false).

(** The body of the observer callback for one entry. *)
Definition onEntry (isIntersecting : bool) : Eff Loader unit :=
  if isIntersecting then
    st ← gets id;
    (if idx st <? Z.of_nat (length (data st)) then appendBatch else mret tt);;
    st ← gets id;
    if Z.of_nat (length (data st)) <=? idx st then disconnect else mret tt
  else mret tt.

(** The observer callback: the entries are handled in turn, and an error
    ends the callback. *)
Fixpoint callback (entries : list bool) : Eff Loader unit :=
  match entries with
  | [] => mret tt
  | e :: r => onEntry e;; callback r
  end.

(** The browser runs the callback with a batch of entries only while the
    observer is observing; an error the callback throws is reported and
    dropped. *)
Definition deliver (st : Loader) (entries : list bool) : Loader :=
  if observing st then listener (callback entries) st else st.

Definition run (batches : list (list bool)) (st : Loader) : Loader :=
  foldl deliver st batches.

Section Init.
(** [String.prototype.localeCompare] is a builtin of the host: it orders
    strings by the collation of the host's locale, which the script does
    not choose.  The loader is written over whatever comparison the host
    provides. *)
Context (localeCompare : string -> string -> comparison).

(** The comparison function handed to [sort]. *)
Definition newestFirst (a b : Photo) : comparison :=
  localeCompare (Js.orElse (datetime b) EmptyString)
                (Js.orElse (datetime a) EmptyString).

Definition sortData (data : list Photo) : list Photo :=
  Js.sortBy newestFirst data.

(** The first call of [appendBatch], on the closure [init] has just
    set up: the page is the one the loader leaves, and an error is passed
    on. *)
Definition firstBatch (data : list Photo) : Script Loader := fun pg =>
  match appendBatch (mkLoader pg data 0 false) with
  | (st, Normal _) => (page st, Normal st)
  | (st, Throw err) => (page st, Throw err)
  end.

(** [init]: [None] is the early return taken when the container is
    missing; otherwise the loader as it stands when [init] returns. *)
Definition init (env : Env) : Script (option Loader) :=
  c ← gets container;
  s ← gets sentinel;
  match c : option (list Card) with
  | None => mret None
  | Some _ =>
      let gKey := getGalleryKey env in
      setHeading gKey;;
      fetched ← fetchData env;
      let data := filterData gKey fetched in
      modify (log ("[gallery] key=" +:+ dq +:+ gKey +:+ dq +:+ " → "
                   +:+ Js.decimal (N.of_nat (length data)) +:+ " items"));;
      let data := sortData data in
      st ← firstBatch data;
      if s : bool
      then mret (Some (mkLoader (page st) (Gallery.data st) (idx st) true))
      else mret (Some st)
  end.

(** The [DOMContentLoaded] listener: [init] is called and the promise
    it returns is dropped, so a rejection reaches no handler. *)
Definition onDOMContentLoaded (env : Env) (pg : Page) : Page * Completion unit :=
  match init env pg with
  | (pg', Normal _) => (pg', Normal tt)
  | (pg', Throw e) => (pg', Throw e)
  end.
End Init.

(** What the language requires of [localeCompare] on every host: it
    defines a total ordering of the strings, so that swapping the
    arguments swaps the answer and never coming after is transitive. *)
Record Collation (cmp : string -> string -> comparison) : Prop := mkCollation {
  collation_flip : forall a b, cmp b a = CompOpp (cmp a b);
  collation_trans : forall a b c, cmp a b <> Gt -> cmp b c <> Gt -> cmp a c <> Gt
}.

(** A collation of the kind browsers use by default, on strings of ASCII
    letters and digits: letters are compared without regard to case
    first, and of two strings that differ in case only, the one with the
    lower-case letter at the first difference comes first. *)
Definition caseFoldCompare (a b : string) : comparison :=
  match String.compare (Js.toLowerCase a) (Js.toLowerCase b) with
  | Eq => String.compare b a
  | c => c
  end.

(** The comparison named by the words lexicographic string comparison:
    code units, position by position. *)
Definition codeUnitCompare (a b : string) : comparison := String.compare a b.

End Gallery.

(** ** The lightbox closure of documentaries.js *)

Module Lightbox.

Definition DURATION : Z := 3000.

(** A thumbnail [img.cc-thumb] of the grid, with what the lightbox reads
    from it and from the card around it.  [node] is the identity of the
    element; [strongText] and [mutedText] are the [textContent] of the
    first [.cc-meta strong] and [.cc-meta .muted] of the enclosing
    [.cc-card], absent when there is no such card or element. *)
Record Img := mkImg {
  node : nat;
  srcset : option string;
  currentSrc : string;
  src : string;
  altAttr : option string;
  strongText : option string;
  mutedText : option string
}.

#[export] Instance Img_eq_dec : EqDecision Img.
Proof. solve_decision. Defined.

(** The closure's variables, the overlay elements it writes, and the
    interval timers the browser holds for it. *)
Record State := mkState {
  grid : list Img;
  nodes : list Img;
  idx : Z;
  playing : bool;
  timer : option positive;
  sx : Z;
  sy : Z;
  imgSrc : string;
  imgAlt : string;
  caption : string;
  shown : bool;
  playHidden : bool;
  pauseHidden : bool;
  preloads : list string;
  intervals : gset positive;
  nextHandle : positive
}.

Abbreviation Op := (Eff State).

(** One candidate of a [srcset]: [part.trim().split(/\s+/)] destructured
    into its first two pieces. *)
Definition candidate (part : string) : string * option string :=
  match Js.splitSpaces (Js.trim part) with
  | url :: wstr :: _ => (url, Some wstr)
  | [url] => (url, None)
  | [] => (EmptyString, None)
  end.

(** The body of the [forEach] of [largestSrc] on the pair
    [(bestURL, bestW)]. *)
Definition pick (best : string * Z) (part : string) : string * Z :=
  let '(url, wstr) := candidate part in
  let w := default 0 (Js.parseIntOpt wstr) in
  if snd best <? w then (url, w) else best.

Definition largestSrc (img : Img) : string :=
  if Js.truthy (srcset img) then
    fst (foldl pick (src img, 0) (Js.splitChar "," (Js.orElse (srcset img) EmptyString)))
  else Js.orElse (Some (currentSrc img)) (src img).

Definition captionFor (img : Img) : string :=
  let strong := Js.trim <$> strongText img in
  let extra := Js.trim <$> mutedText img in
  let alt := Js.orElse (altAttr img) EmptyString in
  if Js.truthy strong then
    if Js.truthy extra
    then Js.orElse strong EmptyString +:+ " · " +:+ Js.orElse extra EmptyString
    else Js.orElse strong EmptyString
  else alt.

(** [collect]: the thumbnails currently in the grid. *)
Definition collect : Op unit :=
  modify (fun st =>
    mkState (grid st) (grid st) (idx st) (playing st) (timer st) (sx st) (sy st)
            (imgSrc st) (imgAlt st) (caption st) (shown st)
            (playHidden st) (pauseHidden st) (preloads st)
            (intervals st) (nextHandle st)).

(** The script's first statements: the variables are declared and
    [collect] runs once on the grid as it is. *)
Definition initial (g : list Img) : State :=
  mkState g g 0 false None 0 0 EmptyString EmptyString EmptyString false
          false false [] ∅ 1%positive.

(** [(a + n) % n] of JavaScript: the remainder takes the sign of the
    dividend. *)
Definition wrap (a n : Z) : Z := Z.rem (a + n) n.

Definition setIdx (i : Z) : Op unit :=
  modify (fun st =>
    mkState (grid st) (nodes st) i (playing st) (timer st) (sx st) (sy st)
            (imgSrc st) (imgAlt st) (caption st) (shown st)
            (playHidden st) (pauseHidden st) (preloads st)
            (intervals st) (nextHandle st)).

Definition setOverlay (s a c : string) : Op unit :=
  modify (fun st =>
    mkState (grid st) (nodes st) (idx st) (playing st) (timer st) (sx st) (sy st)
            s a c (shown st)
            (playHidden st) (pauseHidden st) (preloads st)
            (intervals st) (nextHandle st)).

Definition setShown (b : bool) : Op unit :=
  modify (fun st =>
    mkState (grid st) (nodes st) (idx st) (playing st) (timer st) (sx st) (sy st)
            (imgSrc st) (imgAlt st) (caption st) b
            (playHidden st) (pauseHidden st) (preloads st)
            (intervals st) (nextHandle st)).

Definition preload (url : string) : Op unit :=
  modify (fun st =>
    mkState (grid st) (nodes st) (idx st) (playing st) (timer st) (sx st) (sy st)
            (imgSrc st) (imgAlt st) (caption st) (shown st)
            (playHidden st) (pauseHidden st) (preloads st ++ [url])
            (intervals st) (nextHandle st)).

(** [nodes[i]]: an index that is negative or past the end gives
    [undefined], and the first property read on it throws. *)
Definition nodeAt (i : Z) : Op Img :=
  ns ← gets nodes;
  match (if i <? 0 then None else (ns : list Img) !! Z.to_nat i) with
  | Some img => mret img
  | None => throw "TypeError: Cannot read properties of undefined"
  end.

Definition show (i : Z) : Op unit :=
  ns ← gets nodes;
  let n := Z.of_nat (length (ns : list Img)) in
  if n =? 0 then mret tt
  else
    setIdx (wrap i n);;
    img ← nodeAt (wrap i n);
    setOverlay (largestSrc img) (Js.orElse (altAttr img) EmptyString) (captionFor img);;
    before ← nodeAt (wrap (wrap i n + -1) n);
    preload (largestSrc before);;
    after ← nodeAt (wrap (wrap i n + 1) n);
    preload (largestSrc after).

Definition next : Op unit := i ← gets idx; show (i + 1).
Definition prev : Op unit := i ← gets idx; show (i - 1).

Definition open (i : Z) : Op unit := show i;; setShown true.

Definition stop : Op unit :=
  modify (fun st =>
    mkState (grid st) (nodes st) (idx st) false None (sx st) (sy st)
            (imgSrc st) (imgAlt st) (caption st) (shown st)
            false true (preloads st)
            (match timer st with
             | Some t => intervals st ∖ {[t]}
             | None => intervals st
             end)
            (nextHandle st)).

Definition close : Op unit := setShown false;; stop.

(** [setInterval] hands out a fresh positive handle and registers the
    timer. *)
Definition play : Op unit :=
  p ← gets playing;
  ns ← gets nodes;
  if (p : bool) || bool_decide ((ns : list Img) = []) then mret tt
  else
    modify (fun st =>
      mkState (grid st) (nodes st) (idx st) true (Some (nextHandle st)) (sx st) (sy st)
              (imgSrc st) (imgAlt st) (caption st) (shown st)
              true false (preloads st)
              (intervals st ∪ {[nextHandle st]})
              (Pos.succ (nextHandle st))).

Definition togglePlay : Op unit :=
  p ← gets playing;
  if (p : bool) then stop else play.

(** [nodes.indexOf(img)], -1 when the node is not in the array. *)
Fixpoint indexOf (img : Img) (ns : list Img) : Z :=
  match ns with
  | [] => -1
  | x :: r =>
      if bool_decide (x = img) then 0
      else let j := indexOf img r in if j <? 0 then -1 else j + 1
  end.

Inductive Key := Escape | ArrowRight | ArrowLeft | Space | OtherKey.

(** What the page can do to the lightbox. *)
Inductive Event :=
| Mutation (g : list Img)
| ClickThumb (img : Img)
| ClickClose
| ClickNext
| ClickPrev
| ClickPlay
| ClickPause
| KeyDown (k : Key)
| TouchStart (x y : Z)
| TouchEnd (x y : Z)
| ClickOverlay (isImg isBtn : bool)
| Tick (t : positive).

Definition setTouch (x y : Z) : Op unit :=
  modify (fun st =>
    mkState (grid st) (nodes st) (idx st) (playing st) (timer st) x y
            (imgSrc st) (imgAlt st) (caption st) (shown st)
            (playHidden st) (pauseHidden st) (preloads st)
            (intervals st) (nextHandle st)).

Definition setGrid (g : list Img) : Op unit :=
  modify (fun st =>
    mkState g (nodes st) (idx st) (playing st) (timer st) (sx st) (sy st)
            (imgSrc st) (imgAlt st) (caption st) (shown st)
            (playHidden st) (pauseHidden st) (preloads st)
            (intervals st) (nextHandle st)).

(** The handler each event runs.  A mutation of the grid is followed by
    the mutation observer's [collect]; a timer fires only while the
    browser holds it. *)
Definition handler (e : Event) : Op unit :=
  match e with
  | Mutation g => setGrid g;; collect
  | ClickThumb img =>
      collect;;
      ns ← gets nodes;
      let i := indexOf img ns in
      open (if 0 <=? i then i else 0)
  | ClickClose => close
  | ClickNext => next
  | ClickPrev => prev
  | ClickPlay => play
  | ClickPause => stop
  | KeyDown k =>
      s ← gets shown;
      if negb (s : bool) then mret tt
      else match k with
           | Escape => close
           | ArrowRight => next
           | ArrowLeft => prev
           | Space => togglePlay
           | OtherKey => mret tt
           end
  | TouchStart x y => setTouch x y
  | TouchEnd x y =>
      x0 ← gets sx;
      y0 ← gets sy;
      let dx := x - x0 in
      let dy := y - y0 in
      if (40 <? Z.abs dx) && (Z.abs dy <? Z.abs dx)
      then (if dx <? 0 then next else prev)
      else mret tt
  | ClickOverlay isImg isBtn =>
      if negb isImg && negb isBtn then close else mret tt
  | Tick t =>
      ts ← gets intervals;
      if bool_decide (t ∈ (ts : gset positive)) then next else mret tt
  end.

Definition step (st : State) (e : Event) : State := listener (handler e) st.

Definition steps (st : State) (es : list Event) : State := foldl step st es.

(** The states the lightbox can be in: those reached from the script's
    start by the page's events. *)
Inductive reachable : State -> Prop :=
| reachable_initial g : reachable (initial g)
| reachable_step st e : reachable st -> reachable (step st e).

End Lightbox.

(** ** Sample data *)

Module Samples.
Import Gallery.

Definition samplePhoto : Photo :=
  mkPhoto (Some "heron") (Some "Grey <heron> & 'reeds'") None
          (Some "2024-03-01") (Some "D850") None None (Some "Wildlife")
          (Some [("800", Thumbnail.mkVariant "heron-800.jpg" 800 533);
                 ("1600", Thumbnail.mkVariant "heron-1600.jpg" 1600 1067)]).

(** The manifest of the spec's example: three records tagged wildlife,
    landscapes, wildlife. *)
Definition sampleA : Photo :=
  mkPhoto (Some "a") (Some "Heron") None (Some "2023-05-01") None None None
          (Some "Wildlife")
          (Some [("800", Thumbnail.mkVariant "a-800.jpg" 800 533)]).
Definition sampleB : Photo :=
  mkPhoto (Some "b") (Some "Dunes") None (Some "2024-01-15") None None None
          (Some "landscapes")
          (Some [("800", Thumbnail.mkVariant "b-800.jpg" 800 533)]).
Definition sampleC : Photo :=
  mkPhoto (Some "c") (Some "Fox") None (Some "2024-02-20") None None None
          (Some "wildlife")
          (Some [("800", Thumbnail.mkVariant "c-800.jpg" 800 533)]).
Definition sampleManifest : list Photo := [sampleA; sampleB; sampleC].

(** Two records without a usable date: one has none, one an empty one. *)
Definition sampleD : Photo :=
  mkPhoto (Some "d") None None None None None None (Some "wildlife") None.
Definition sampleE : Photo :=
  mkPhoto (Some "e") None None (Some EmptyString) None None None None None.
Definition sampleUndated : list Photo :=
  [sampleD; sampleA; sampleE; sampleB; sampleC].

Definition sampleEnv : Env := mkEnv None (mkResponse true 200 sampleManifest).

(** A gallery page before the script runs: an empty grid, the sentinel,
    heading and description placeholders, and two navigation links. *)
Definition samplePage : Page :=
  mkPage (Some []) true (Some "Loading") (Some "Loading")
         [mkNavLink None false; mkNavLink (Some "wildlife") false] [].

(** Five thumbnails as [createCard] and the page leave them. *)
Definition sampleImg (k : nat) (name : string) : Lightbox.Img :=
  Lightbox.mkImg k
    (Some (name +:+ "-800.jpg 800w, " +:+ name +:+ "-1600.jpg 1600w"))
    (name +:+ "-800.jpg") (name +:+ "-1600.jpg") (Some name) (Some name) None.

Definition sampleGrid : list Lightbox.Img :=
  [sampleImg 0 "a"; sampleImg 1 "b"; sampleImg 2 "c"; sampleImg 3 "d"; sampleImg 4 "e"].

(** The lightbox opened on the third of the five thumbnails. *)
Definition sampleOpened : Lightbox.State :=
  Lightbox.steps (Lightbox.initial sampleGrid) [Lightbox.ClickThumb (sampleImg 2 "c")].

(** The same, with autoplay started. *)
Definition samplePlaying : Lightbox.State :=
  Lightbox.steps (Lightbox.initial sampleGrid)
    [Lightbox.ClickThumb (sampleImg 2 "c"); Lightbox.ClickPlay].

End Samples.

(** ** Predicates used to state the properties *)

Module Props.
Import Thumbnail Gallery.

(** The five characters [escapeHTML] replaces. *)
Definition special (c : ascii) : bool :=
  Ascii.eqb c "&" || Ascii.eqb c "<" || Ascii.eqb c ">"
  || Ascii.eqb c "034" || Ascii.eqb c "'".

Fixpoint startsWith (p s : string) {struct p} : bool :=
  match p, s with
  | EmptyString, _ => true
  | String a p', String b s' => Ascii.eqb a b && startsWith p' s'
  | String _ _, EmptyString => false
  end.

(** What may follow an ampersand in escaped text. *)
Definition entityTail (s : string) : bool :=
  startsWith "amp;" s || startsWith "lt;" s || startsWith "gt;" s
  || startsWith "quot;" s || startsWith "#39;" s.

(** Text that holds none of the five characters except an ampersand that
    opens one of the five entities. *)
Fixpoint escaped (s : string) : bool :=
  match s with
  | EmptyString => true
  | String c r =>
      if Ascii.eqb c "&" then entityTail r && escaped r
      else negb (special c) && escaped r
  end.

(** The keys of [LABELS]. *)
Definition recognised : list string :=
  ["wildlife"; "landscapes"; "panoramas"; "documentaries"; "all"].

(** Every key of the table that reads as a number reads as one below
    [2^53], the range in which a JavaScript number holds every integer
    exactly. *)
Definition exactKeys (vs : Variants) : Prop :=
  Forall (fun kv : string * Variant =>
            forall z, Js.parseInt (fst kv) = Some z -> Z.abs z < 2 ^ 53)
         (entries vs).

(** A record [createCard] builds a card for. *)
Definition renders (p : Photo) : Prop :=
  exactKeys (variants p) /\ exists c, createCard p = Normal c.

(** The card of a record, when [createCard] returns one. *)
Definition cardOf (p : Photo) : option Card :=
  match createCard p with
  | Normal c => Some c
  | Throw _ => None
  end.

Definition cardsOf (ps : list Photo) : list Card := omap cardOf ps.

(** The cards a loader has rendered so far into a container that held
    [cs0] before: one card per record, for the first [idx] records. *)
Definition renderedUpTo (cs0 : list Card) (st : Loader) : Prop :=
  container (page st)
  = Some (cs0 ++ cardsOf (take (Z.to_nat (idx st)) (data st))).

(** What holds of the loader between callbacks when every record has a
    card: the index is within the list, the container holds the cards of
    the records before it, the observer observes exactly while the
    sentinel is in the document, and it has stopped only with every
    record rendered. *)
Record wf (cs0 : list Card) (st : Loader) : Prop := mkWf {
  wf_renders : Forall renders (data st);
  wf_idx : 0 <= idx st <= Z.of_nat (length (data st));
  wf_cards : renderedUpTo cs0 st;
  wf_sentinel : sentinel (page st) = observing st;
  wf_done : observing st = false -> idx st = Z.of_nat (length (data st))
}.

(** The loader after the callback body has handled one entry. *)
Definition afterEntry (st : Loader) (e : bool) : Loader := listener (onEntry e) st.

(** The lower-cased gallery tag of a record, a missing tag counting as
    the empty string. *)
Abbreviation tagOf p := (Js.toLowerCase (Js.orElse (gallery p) EmptyString)).

(** The intersecting entries among [es], counted. *)
Abbreviation hitsOf es := (Z.of_nat (length (filter (fun b : bool => b = true) es))).

(** The number of intersecting entries in a sequence of callback
    batches. *)
Definition hits (batches : list (list bool)) : nat :=
  length (filter (fun b => b = true) (concat batches)).

(** How often, while the entries are handled one after the other, the
    sentinel goes from being in the document to being out of it. *)
Fixpoint removals (st : Loader) (entries : list bool) : nat :=
  match entries with
  | [] => O
  | e :: r =>
      match onEntry e st with
      | (st', Normal _) =>
          ((if sentinel (page st) && negb (sentinel (page st')) then 1 else 0)
           + removals st' r)%nat
      | (st', Throw _) =>
          if sentinel (page st) && negb (sentinel (page st')) then 1%nat else 0%nat
      end
  end.

Fixpoint removalsRun (st : Loader) (batches : list (list bool)) : nat :=
  match batches with
  | [] => O
  | b :: r =>
      ((if observing st then removals st b else O)
       + removalsRun (deliver st b) r)%nat
  end.

(** Under the comparison function [cmp], [a] need not come after [b]. *)
Definition notAfter {A : Type} (cmp : A -> A -> comparison) (a b : A) : Prop :=
  cmp a b <> Gt.

(** The date a record is sorted by: a missing date counts as empty. *)
Definition dateOf (p : Photo) : string := Js.orElse (datetime p) EmptyString.

(** The text values [createCard] interpolates for a photo. *)
Definition cardFields (p : Photo) : list string :=
  "Untitled" :: omap id [title p; slug p; datetime p; camera p; lens p;
                         exif p; description p].

End Props.

(** ** Predicates on the lightbox *)

Module LightboxProps.
Import Lightbox.

(** The number of collected thumbnails. *)
Definition count (st : State) : Z := Z.of_nat (length (nodes st)).

(** The state a call of [show] leaves when it lands on index [j], showing
    [img] and preloading its two neighbours. *)
Definition shownAt (st : State) (j : Z) (img before after : Img) : State :=
  mkState (grid st) (nodes st) j (playing st) (timer st) (sx st) (sy st)
          (largestSrc img) (Js.orElse (altAttr img) EmptyString) (captionFor img)
          (shown st) (playHidden st) (pauseHidden st)
          (preloads st ++ [largestSrc before; largestSrc after])
          (intervals st) (nextHandle st).

(** Whether the handler of an event reaches a call of [show] in a state. *)
Definition callsShow (st : State) (e : Event) : bool :=
  match e with
  | ClickThumb _ | ClickNext | ClickPrev => true
  | KeyDown ArrowRight | KeyDown ArrowLeft => shown st
  | TouchEnd x y => (40 <? Z.abs (x - sx st)) && (Z.abs (y - sy st) <? Z.abs (x - sx st))
  | Tick t => bool_decide (t ∈ intervals st)
  | _ => false
  end.

(** The timers the closure knows of: the one held in [timer], if any. *)
Definition held (st : State) : gset positive :=
  match timer st with
  | Some t => {[t]}
  | None => ∅
  end.

(** What every handler keeps true: the cursor is not negative, the browser
    holds exactly the timer the closure knows of, and the closure holds a
    timer exactly while playing. *)
Definition Inv (st : State) : Prop :=
  0 <= idx st
  /\ intervals st = held st
  /\ (playing st = true <-> is_Some (timer st)).

(** A handler step that went through: the handler returned normally and
    left the state [st']. *)
Definition through (op : Op unit) (st st' : State) : Prop :=
  op st = (st', Normal tt).

(** What [show] and the navigation around it leave alone. *)
Definition sameSetup (st st' : State) : Prop :=
  grid st' = grid st /\ nodes st' = nodes st
  /\ playing st' = playing st /\ timer st' = timer st
  /\ intervals st' = intervals st /\ nextHandle st' = nextHandle st
  /\ sx st' = sx st /\ sy st' = sy st.

(** The overlay shows the node the cursor is on. *)
Definition showing (st : State) : Prop :=
  exists img,
    nodes st !! Z.to_nat (idx st) = Some img
    /\ imgSrc st = largestSrc img
    /\ imgAlt st = Js.orElse (altAttr img) EmptyString
    /\ caption st = captionFor img.

(** How a handler that called [show] leaves the cursor: on a node of the
    list, which the overlay shows; or, the list being empty, where it was,
    with the overlay image as it was. *)
Definition settled (st st' : State) : Prop :=
  (nodes st' <> [] -> 0 <= idx st' < count st' /\ showing st')
  /\ (nodes st' = [] -> idx st' = idx st /\ imgSrc st' = imgSrc st).

Definition isDigit (c : ascii) : bool :=
  match Js.digitValue c with
  | Some _ => true
  | None => false
  end.

(** A candidate of a [srcset] attribute: a URL and a width descriptor. *)
Record Candidate := mkCandidate {
  c_url : string;
  c_width : N
}.

(** The width descriptor [Nw] of a candidate. *)
Abbreviation descriptor c := (Js.decimal (c_width c) +:+ "w").

(** [url Nw] *)
Definition candidateText (c : Candidate) : string :=
  c_url c +:+ " " +:+ Js.decimal (c_width c) +:+ "w".

(** The candidates separated by a comma and a space, as [buildSrcset]
    of gallery.js joins them. *)
Fixpoint srcsetText (cs : list Candidate) : string :=
  match cs with
  | [] => EmptyString
  | [c] => candidateText c
  | c :: r => candidateText c +:+ ", " +:+ srcsetText r
  end.

Fixpoint allChars (P : ascii -> bool) (s : string) : bool :=
  match s with
  | EmptyString => true
  | String c r => P c && allChars P r
  end.

(** A character of a URL inside a [srcset]: neither white space nor the
    comma that separates candidates. *)
Definition urlChar (c : ascii) : bool := negb (Js.isSpace c) && negb (Ascii.eqb c ",").

Definition noComma (c : ascii) : bool := negb (Ascii.eqb c ",").
Definition noSpace (c : ascii) : bool := negb (Js.isSpace c).

(** The value the candidate has for the comparison in [largestSrc]. *)
Definition widthOf (c : Candidate) : Z := Z.of_N (c_width c).

(** The step of [largestSrc] on a candidate already taken apart. *)
Definition pickCandidate (best : string * Z) (c : Candidate) : string * Z :=
  if snd best <? widthOf c then (c_url c, widthOf c) else best.

(** A candidate with a non-empty URL and a positive width that a
    JavaScript number holds exactly. *)
Definition wfCandidate (c : Candidate) : Prop :=
  c_url c <> EmptyString
  /\ allChars urlChar (c_url c) = true
  /\ (0 < c_width c < 2 ^ 53)%N.

End LightboxProps.

(** ** Further predicates *)

Module MoreProps.
Import Gallery Lightbox LightboxProps Thumbnail.

(** Reads escaped text back: an entity becomes its character; [skip]
    counts the characters of an entity still to pass over. *)
Fixpoint unescapeFrom (skip : nat) (s : string) : string :=
  match s with
  | EmptyString => EmptyString
  | String c r =>
      match skip with
      | S k => unescapeFrom k r
      | O =>
          if Ascii.eqb c "&" then
            if Props.startsWith "amp;" r then String "&" (unescapeFrom 4 r)
            else if Props.startsWith "lt;" r then String "<" (unescapeFrom 3 r)
            else if Props.startsWith "gt;" r then String ">" (unescapeFrom 3 r)
            else if Props.startsWith "quot;" r then String "034" (unescapeFrom 5 r)
            else if Props.startsWith "#39;" r then String "'" (unescapeFrom 4 r)
            else String c (unescapeFrom 0 r)
          else String c (unescapeFrom 0 r)
      end
  end.

Definition unescapeHTML (s : string) : string := unescapeFrom 0 s.

(** The table of renditions whose keys are the decimal widths. *)
Definition tableOf (vs : list (N * Variant)) : list (string * Variant) :=
  (fun nv : N * Variant => (Js.decimal (fst nv), snd nv)) <$> vs.

(** The [srcset] candidate of a rendition stored under a width. *)
Definition candidateOf (nv : N * Variant) : Candidate :=
  mkCandidate (v_src (snd nv)) (fst nv).

(** The width and rendition a size of [buildSrcset] stands for in a
    table (an empty rendition where the table has none). *)
Definition pairOf (tbl : list (string * Variant)) (s : Z) : N * Variant :=
  (Z.to_N s, default (mkVariant EmptyString 0 0) (lookupKey (numberToString s) tbl)).

(** A rendition table keyed by distinct positive widths below [2^53],
    the range in which a JavaScript number holds every integer exactly;
    nothing is asked of the file names. *)
Definition plainTable (vs : list (N * Variant)) : Prop :=
  NoDup (fst <$> vs) /\ Forall (fun nv : N * Variant => (0 < fst nv < 2 ^ 53)%N) vs.

(** A rendition table as the image pipeline writes it: distinct positive
    widths that a JavaScript number holds exactly, and file names without
    white space or comma. *)
Definition wfTable (vs : list (N * Variant)) : Prop :=
  NoDup (fst <$> vs) /\ Forall (fun nv => wfCandidate (candidateOf nv)) vs.

End MoreProps.

(** ** Further sample data *)

Module MoreSamples.
Import Thumbnail.

(** Three renditions as the image pipeline lists them. *)
Definition sampleRenditions : list (N * Variant) :=
  [ (1600%N, mkVariant "heron-1600.jpg" 1600 1067);
    (800%N, mkVariant "heron-800.jpg" 800 533);
    (2400%N, mkVariant "heron-2400.jpg" 2400 1600) ].

(** A table with a key that is not the decimal form of its width. *)
Definition samplePadded : list (string * Variant) :=
  [ ("0800", mkVariant "heron-800.jpg" 800 533) ].

(** A table whose file names hold a space. *)
Definition sampleSpaced : list (N * Variant) :=
  [ (1600%N, mkVariant "my photo-1600.jpg" 1600 1067);
    (800%N, mkVariant "my photo-800.jpg" 800 533) ].

(** A record whose renditions are stored under a padded key. *)
Definition samplePaddedPhoto : Gallery.Photo :=
  Gallery.mkPhoto (Some "p") (Some "Padded") None (Some "2024-01-01") None None None
                  (Some "wildlife") (Some samplePadded).

(** A record that has nothing but a date. *)
Definition sampleStamp (date : string) : Gallery.Photo :=
  Gallery.mkPhoto None None None (Some date) None None None None None.

(** Three dates in the basic format of ISO 8601, one of them with a
    lower-case separator. *)
Definition sampleStamps : list Gallery.Photo :=
  [ sampleStamp "20240301T0800"; sampleStamp "20240301t0900";
    sampleStamp "20240301T1000" ].

(** A roll of forty-five records, taken a minute apart, each with the
    three renditions. *)
Definition sampleShot (k : nat) : Gallery.Photo :=
  Gallery.mkPhoto (Some ("shot-" +:+ Js.decimal (N.of_nat k))) None None
                  (Some ("2024-01-01T10:" +:+ Js.decimal (N.of_nat (10 + k)))) None None None
                  (Some "wildlife") (Some (MoreProps.tableOf sampleRenditions)).

Definition sampleRoll : list Gallery.Photo := sampleShot <$> seq 0 45.

End MoreSamples.

(** ** Strings *)

Lemma app_String (c : ascii) (a b : string) : String c a +:+ b = String c (a +:+ b).
Proof. reflexivity. Qed.

Lemma app_Empty (b : string) : EmptyString +:+ b = b.
Proof. reflexivity. Qed.

(** Pushes [+:+] inward past the literal characters on its left. *)
Ltac str_cons := rewrite ?app_String, ?app_Empty.

(** The builtins on small inputs. *)

Example trim_both : Js.trim "  a b  " = "a b".
Proof. reflexivity. Qed.

Example split_comma : Js.splitChar "," "a 1w, b 2w" = ["a 1w"; " b 2w"].
Proof. reflexivity. Qed.

Example split_comma_empty : Js.splitChar "," EmptyString = [EmptyString].
Proof. reflexivity. Qed.

Example split_spaces_run : Js.splitSpaces "a   b c" = ["a"; "b"; "c"].
Proof. reflexivity. Qed.

Example split_spaces_trailing : Js.splitSpaces "a " = ["a"; EmptyString].
Proof. reflexivity. Qed.

Example parseInt_width : Js.parseInt "1600w" = Some 1600.
Proof. reflexivity. Qed.

Example parseInt_density : Js.parseInt "2x" = Some 2.
Proof. reflexivity. Qed.

Example parseInt_nan : Js.parseInt "w" = None /\ Js.parseIntOpt None = None.
Proof. split; reflexivity. Qed.

Example lower_mixed : Js.toLowerCase "WildLife-2" = "wildlife-2".
Proof. reflexivity. Qed.

Example decimal_404 : Js.decimal 404 = "404".
Proof. reflexivity. Qed.

(** The lightbox on small inputs. *)

Example LABELS_all_lookup : Gallery.LABELS !! "all" = Some Gallery.LABELS_all.
Proof. by vm_compute. Qed.

(** Equal widths: the first candidate stays. *)
Example largestSrc_tie :
  Lightbox.largestSrc
    (Lightbox.mkImg 0 (Some "a.jpg 800w, b.jpg 800w") EmptyString "s.jpg" None None None)
  = "a.jpg".
Proof. reflexivity. Qed.

(** Density descriptors are read as numbers too. *)
Example largestSrc_density :
  Lightbox.largestSrc
    (Lightbox.mkImg 0 (Some "a.jpg 1x, b.jpg 2x") EmptyString "s.jpg" None None None)
  = "b.jpg".
Proof. reflexivity. Qed.

(** No candidate with a positive number: the thumbnail's [src] stays. *)
Example largestSrc_no_width :
  Lightbox.largestSrc
    (Lightbox.mkImg 0 (Some "a.jpg, b.jpg 0w") EmptyString "s.jpg" None None None)
  = "s.jpg".
Proof. reflexivity. Qed.

(** Called directly with an argument below [-n], [show] would leave a
    negative cursor and throw on the missing node; no handler does so. *)
Example show_below_range :
  let r := Lightbox.show (-7) (Lightbox.initial (take 3 Samples.sampleGrid)) in
  Lightbox.idx (fst r) = -1
  /\ snd r = Throw "TypeError: Cannot read properties of undefined".
Proof. by vm_compute. Qed.

(** The spec's example: the lightbox opened on index 2 of five
    thumbnails, then the right arrow pressed three times. *)
Example arrow_right_thrice :
  Lightbox.idx
    (Lightbox.steps Samples.sampleOpened
       [Lightbox.KeyDown Lightbox.ArrowRight; Lightbox.KeyDown Lightbox.ArrowRight;
        Lightbox.KeyDown Lightbox.ArrowRight])
  = 0.
Proof. by vm_compute. Qed.

(** ** gallery.js: properties *)

Module GalleryFacts.
Import Gallery Props Samples.

Lemma escapeHTML_app (s1 s2 : string) :
  escapeHTML (s1 +:+ s2) = escapeHTML s1 +:+ escapeHTML s2.
Proof.
  induction s1 as [|c r IH]; simpl; [done|].
  rewrite IH. unfold escapeChar.
  repeat case_match; reflexivity.
Qed.

Lemma escaped_escapeHTML (s : string) : escaped (escapeHTML s) = true.
Proof.
  induction s as [|c r IH]; [done|].
  cbn [escapeHTML]. unfold escapeChar.
  destruct (Ascii.eqb c "&") eqn:E1; [by str_cons; cbn; unfold entityTail; cbn|].
  destruct (Ascii.eqb c "<") eqn:E2; [by str_cons; cbn; unfold entityTail; cbn|].
  destruct (Ascii.eqb c ">") eqn:E3; [by str_cons; cbn; unfold entityTail; cbn|].
  destruct (Ascii.eqb c "034") eqn:E4; [by str_cons; cbn; unfold entityTail; cbn|].
  destruct (Ascii.eqb c "'") eqn:E5; [by str_cons; cbn; unfold entityTail; cbn|].
  str_cons. cbn. unfold special. by rewrite E1, E2, E3, E4, E5.
Qed.

Lemma elem_of_joinFrags (f : Frag) (sep : string) (bits : list (list Frag)) :
  f ∈ joinFrags sep bits -> f = Markup sep \/ exists b, b ∈ bits /\ f ∈ b.
Proof.
  induction bits as [|b rest IH]; simpl; [by intros ?%elem_of_nil|].
  destruct rest as [|b' rest'].
  - intros Hf. right. exists b. split; [apply list_elem_of_here | done].
  - intros [Hf|Hf]%elem_of_app.
    + right. exists b. split; [apply list_elem_of_here | done].
    + apply elem_of_cons in Hf as [->|Hf]; [by left|].
      destruct (IH Hf) as [->|(b0 & Hb0 & Hfb)]; [by left|].
      right. exists b0. split; [by apply list_elem_of_further | done].
Qed.

Lemma elem_of_bit (tag : string) (field : option string) (b : list Frag) (s : string) :
  b ∈ bit tag field -> Interp s ∈ b ->
  exists v, field = Some v /\ s = escapeHTML v.
Proof.
  unfold bit. destruct field as [[|c r]|]; simpl; try by intros ?%elem_of_nil.
  intros ->%list_elem_of_singleton Hs.
  exists (String c r). split; [done|].
  rewrite !elem_of_cons, elem_of_nil in Hs.
  destruct Hs as [?|[Hs|[?|[]]]]; try discriminate.
  by injection Hs.
Qed.

Lemma orElse_Some (o : option string) (d : string) :
  Js.orElse o d = d \/ o = Some (Js.orElse o d).
Proof. destruct o as [[|c r]|]; simpl; auto. Qed.

Lemma cardFields_field (p : Photo) (o : option string) (v : string) :
  o ∈ [title p; slug p; datetime p; camera p; lens p; exif p; description p] ->
  o = Some v -> v ∈ cardFields p.
Proof.
  intros Ho ->. unfold cardFields. apply list_elem_of_further.
  apply list_elem_of_omap. by exists (Some v).
Qed.

Lemma truthy_Some (o : option string) (d : string) :
  Js.truthy o = true -> o = Some (Js.orElse o d).
Proof. by destruct o as [[|c r]|]. Qed.

Lemma trim_truthy (s : string) :
  Js.truthy (Some (Js.trim s)) = true -> s <> EmptyString.
Proof. by destruct s. Qed.

Ltac in_list := repeat first [apply list_elem_of_here | apply list_elem_of_further].

Lemma metaHTML_interp (p : Photo) (s : string) :
  Interp s ∈ metaHTML p -> exists v, v ∈ cardFields p /\ s = escapeHTML v.
Proof.
  pose proof (cardFields_field p) as Hfield.
  assert (Hun : "Untitled" ∈ cardFields p) by apply list_elem_of_here.
  unfold metaHTML.
  rewrite !elem_of_app, !elem_of_cons, !elem_of_nil.
  intros [H|[H|[H|[H|[H|[H|H]]]]]].
  - destruct H as [H|[H|[H|[]]]]; try discriminate.
    injection H as ->.
    destruct (orElse_Some (title p) (Js.orElse (slug p) "Untitled")) as [->|Ht].
    + destruct (orElse_Some (slug p) "Untitled") as [->|Hs]; [by eauto|].
      eexists; split; [|done]. eapply Hfield; [|exact Hs]. in_list.
    + eexists; split; [|done]. eapply Hfield; [|exact Ht]. in_list.
  - destruct (bit "time" (datetime p) ++ bit "span" (camera p)
              ++ bit "span" (lens p)) as [|b0 bs] eqn:Hbits;
      [by apply elem_of_nil in H|].
    apply elem_of_cons in H as [H|H]; [discriminate|].
    apply elem_of_joinFrags in H as [H|(b & Hb & Hs)]; [discriminate|].
    rewrite <- Hbits, !elem_of_app in Hb.
    destruct Hb as [Hb|[Hb|Hb]];
      destruct (elem_of_bit _ _ _ _ Hb Hs) as (v & Hv & ->);
      (eexists; split; [|done]); (eapply Hfield; [|exact Hv]); in_list.
  - destruct H as [H|[]]; discriminate.
  - destruct (Js.truthy (exif p)) eqn:He; [|by apply elem_of_nil in H].
    rewrite !elem_of_cons, elem_of_nil in H.
    destruct H as [H|[H|[H|[]]]]; try discriminate.
    injection H as ->.
    eexists; split; [|done].
    eapply Hfield; [|exact (truthy_Some _ EmptyString He)]. in_list.
  - destruct H as [H|[]]; discriminate.
  - destruct (Js.truthy (Some _)) eqn:Hd; [|by apply elem_of_nil in H].
    rewrite !elem_of_cons, elem_of_nil in H.
    destruct H as [H|[H|[H|[]]]]; try discriminate.
    injection H as ->.
    apply trim_truthy in Hd.
    destruct (orElse_Some (description p) EmptyString) as [Hd'|Hd']; [done|].
    eexists; split; [|done]. eapply Hfield; [|exact Hd']. in_list.
  - destruct H as [H|[]]; discriminate.
Qed.

(** The card [createCard] returns carries the alternative text and the
    metadata markup of its photo. *)
Lemma createCard_alt (p : Photo) (c : Card) :
  createCard p = Normal c -> card_alt c = altText p.
Proof.
  unfold createCard. destruct (Thumbnail.cardImage (variants p)); [|done].
  by intros [= <-].
Qed.

Lemma createCard_text (p : Photo) (c : Card) :
  createCard p = Normal c -> card_meta c = metaHTML p.
Proof.
  unfold createCard. destruct (Thumbnail.cardImage (variants p)); [|done].
  by intros [= <-].
Qed.

(** C9. [escapeHTML] replaces each of the characters ampersand,
    less-than, greater-than, double quote and single quote by its entity
    and copies every other character, so its result holds none of the
    five except an ampersand opening one of those entities; and every
    value interpolated into the metadata markup of a card, which is the
    markup [createCard] puts on the card it returns, is [escapeHTML] of
    one of the photo's text fields (title, slug, datetime, camera, lens,
    exif, description) or of the fixed text Untitled, hence escaped. *)
Theorem escapeHTML_card_fields :
  (forall s1 s2, escapeHTML (s1 +:+ s2) = escapeHTML s1 +:+ escapeHTML s2)
  /\ escapeHTML "&" = "&amp;"
  /\ escapeHTML "<" = "&lt;"
  /\ escapeHTML ">" = "&gt;"
  /\ escapeHTML dq = "&quot;"
  /\ escapeHTML "'" = "&#39;"
  /\ (forall c, special c = false -> escapeHTML (String c EmptyString) = String c EmptyString)
  /\ (forall s, escaped (escapeHTML s) = true)
  /\ (forall p c, createCard p = Normal c -> card_meta c = metaHTML p)
  /\ (forall p s, Interp s ∈ metaHTML p ->
        escaped s = true /\ exists v, v ∈ cardFields p /\ s = escapeHTML v).
Proof.
  split; [exact escapeHTML_app|].
  do 5 (split; [reflexivity|]).
  split.
  { intros c Hc. unfold special in Hc.
    cbn. unfold escapeChar.
    repeat (apply orb_false_elim in Hc as [Hc ?]).
    by repeat case_match. }
  split; [exact escaped_escapeHTML|].
  split; [exact createCard_text|].
  intros p s Hs.
  destruct (metaHTML_interp p s Hs) as (v & Hv & ->).
  split; [apply escaped_escapeHTML|]. by exists v.
Qed.

Lemma escapeHTML_card_fields_witness :
  escaped (escapeHTML "Grey <heron> & 'reeds'") = true
  /\ escaped (escapeHTML "2024-03-01") = true.
Proof.
  destruct escapeHTML_card_fields as (_ & _ & _ & _ & _ & _ & _ & _ & _ & H).
  split.
  - apply (H samplePhoto). cbn. in_list.
  - apply (H samplePhoto). cbn. in_list.
Defined.

(** *** Filtering *)

Lemma filterData_other (k : string) (m : list Photo) :
  k <> "all" -> filterData k m = filter (fun p => tagOf p = k) m.
Proof.
  intros Hk. unfold filterData. rewrite bool_decide_eq_true_2 by done.
  induction m as [|p m IH]; [done|].
  cbn [List.filter]. rewrite filter_cons, IH.
  destruct (String.eqb_spec (tagOf p) k); by case_decide.
Qed.

(** C1. For every manifest and every category key: a key other than
    [all] keeps exactly the records whose lower-cased gallery tag
    (missing tag read as the empty string) equals the key, in manifest
    order; the key [all] keeps the whole list unchanged. *)
Theorem filterData_exact (m : list Photo) (k : string) :
  (k <> "all" ->
     filterData k m = filter (fun p => tagOf p = k) m
     /\ (forall p, p ∈ filterData k m <-> p ∈ m /\ tagOf p = k)
     /\ filterData k m `sublist_of` m)
  /\ (k = "all" -> filterData k m = m).
Proof.
  split.
  - intros Hk. rewrite filterData_other by done.
    split; [done|]. split.
    + intros p. rewrite list_elem_of_filter. tauto.
    + apply sublist_filter.
  - intros ->. reflexivity.
Qed.

(** The spec's example: of three records tagged wildlife, landscapes,
    wildlife, the query [?g=wildlife] renders two cards, newest first. *)
Example wildlife_two_cards :
  container (fst (init caseFoldCompare
                    (mkEnv (Some "wildlife") (mkResponse true 200 sampleManifest))
                    samplePage))
  = Some (cardsOf [sampleC; sampleA]).
Proof. by vm_compute. Qed.

Lemma filterData_exact_witness :
  filterData "wildlife" sampleManifest = [sampleA; sampleC]
  /\ filterData "all" sampleManifest = sampleManifest.
Proof.
  destruct (filterData_exact sampleManifest "wildlife") as [H _].
  destruct (filterData_exact sampleManifest "all") as [_ H'].
  split.
  - destruct H as [-> _]; [discriminate|]. reflexivity.
  - by apply H'.
Defined.

(** *** Heading *)

Lemma LABELS_lookup_None (k : string) :
  k ∉ recognised -> LABELS !! k = None.
Proof.
  unfold recognised, LABELS. rewrite !not_elem_of_cons. intros (?&?&?&?&?&_).
  cbn [list_to_map foldr uncurry fst snd].
  by rewrite !lookup_insert_ne, lookup_empty.
Qed.

(** For a key that names neither a label nor a property inherited from
    [Object.prototype], the heading and description are those of [all]. *)
Lemma setHeading_fallback (k : string) (pg : Page) (t d : string) :
  k ∉ recognised -> k ∉ objectPrototype ->
  galleryTitle pg = Some t -> galleryDesc pg = Some d ->
  galleryTitle (fst (setHeading k pg)) = Some "Gallery"
  /\ galleryDesc (fst (setHeading k pg)) = Some "Curated works.".
Proof.
  intros Hk Hp Ht Hd. unfold setHeading, getLabel.
  rewrite (LABELS_lookup_None k Hk), bool_decide_eq_false_2 by done.
  cbn. by rewrite Ht, Hd.
Qed.

(** A key no record is tagged with keeps no record, whereas [all] keeps
    every record. *)
Lemma filterData_unknown (k : string) (m : list Photo) :
  k <> "all" -> (forall p, p ∈ m -> tagOf p <> k) -> filterData k m = [].
Proof.
  intros Hk Hm. rewrite filterData_other by done.
  induction m as [|p m IH]; [done|].
  rewrite filter_cons. case_decide as Hp.
  - exfalso. eapply Hm; [apply list_elem_of_here | done].
  - apply IH. intros q Hq. apply Hm. by apply list_elem_of_further.
Qed.

(** C6, at the query [?g=constructor].  The key is not one of the label
    keys, yet [LABELS[gKey]] finds the constructor inherited from
    [Object.prototype], which is truthy: the fallback to the [all]
    labels is not taken, and heading and description are assigned the
    missing properties of that function, which empties them. *)
Theorem setHeading_constructor :
  let env := mkEnv (Some "constructor") (mkResponse true 200 sampleManifest) in
  getGalleryKey env = "constructor"
  /\ ("constructor" ∉ recognised)
  /\ getLabel "constructor" = Some (VBuiltin "constructor")
  /\ galleryTitle (fst (setHeading (getGalleryKey env) samplePage)) = Some EmptyString
  /\ galleryDesc (fst (setHeading (getGalleryKey env) samplePage)) = Some EmptyString
  /\ galleryTitle (fst (setHeading "nosuchkey" samplePage)) = Some "Gallery"
  /\ filterData (getGalleryKey env) sampleManifest = [].
Proof.
  cbn zeta.
  assert (Hk : getGalleryKey (mkEnv (Some "constructor")
                                (mkResponse true 200 sampleManifest)) = "constructor")
    by reflexivity.
  rewrite Hk.
  split; [done|].
  split; [unfold recognised; rewrite !not_elem_of_cons; repeat split; try discriminate;
          apply not_elem_of_nil|].
  split; [by vm_compute|].
  split; [by vm_compute|].
  split; [by vm_compute|].
  split; by vm_compute.
Qed.

(** *** A failed fetch *)

Lemma setHeading_frame (k : string) (pg : Page) :
  snd (setHeading k pg) = Normal tt
  /\ container (fst (setHeading k pg)) = container pg
  /\ sentinel (fst (setHeading k pg)) = sentinel pg
  /\ console (fst (setHeading k pg)) = console pg.
Proof. done. Qed.

(** C5. When the manifest request resolves to a non-success response,
    [fetchData] throws; [init] stops there and the error reaches the
    top of the [DOMContentLoaded] listener uncaught.  The page is then
    as [setHeading] left it: the grid container holds the children it
    had, the sentinel is in place, nothing was logged, and no loader
    (hence no observer and no retry) exists. *)
Theorem init_fetch_failure
    (cmp : string -> string -> comparison) (env : Env) (pg : Page) (cs : list Card) :
  ok (response env) = false ->
  container pg = Some cs ->
  let err := "HTTP " +:+ Js.decimal (status (response env)) +:+ " for " +:+ JSON_URL in
  fetchData env pg = (pg, Throw err)
  /\ init cmp env pg = (fst (setHeading (getGalleryKey env) pg), Throw err)
  /\ onDOMContentLoaded cmp env pg = (fst (setHeading (getGalleryKey env) pg), Throw err)
  /\ container (fst (onDOMContentLoaded cmp env pg)) = Some cs
  /\ sentinel (fst (onDOMContentLoaded cmp env pg)) = sentinel pg
  /\ console (fst (onDOMContentLoaded cmp env pg)) = console pg.
Proof.
  intros Hok Hc err.
  assert (Hf : forall pg0, fetchData env pg0 = (pg0, Throw err)).
  { intros pg0. unfold fetchData. by rewrite Hok. }
  assert (Hi : init cmp env pg = (fst (setHeading (getGalleryKey env) pg), Throw err)).
  { unfold init, mbind, Eff_bind, gets. rewrite Hc.
    destruct (setHeading (getGalleryKey env) pg) as [pg1 r] eqn:Hs.
    pose proof (setHeading_frame (getGalleryKey env) pg) as (Hr & _).
    rewrite Hs in Hr. cbn in Hr. subst r. by rewrite Hf. }
  split; [apply Hf|]. split; [exact Hi|].
  unfold onDOMContentLoaded. rewrite Hi.
  repeat split; try done.
Qed.

Lemma init_fetch_failure_witness :
  container (fst (onDOMContentLoaded caseFoldCompare
                    (mkEnv (Some "wildlife") (mkResponse false 404 []))
                    samplePage)) = Some [].
Proof.
  refine (proj1 (proj2 (proj2 (proj2
    (init_fetch_failure caseFoldCompare
       (mkEnv (Some "wildlife") (mkResponse false 404 [])) samplePage []
       _ _))))); reflexivity.
Defined.

(** *** The sort of the host *)

Section SortBy.
Context {A : Type} (cmp : A -> A -> comparison).

Local Abbreviation notAfter := (notAfter cmp).

Hypothesis cmp_flip : forall a b, cmp a b = Gt -> notAfter b a.
Hypothesis cmp_trans : forall a b c, notAfter a b -> notAfter b c -> notAfter a c.

Lemma insertBy_Permutation (x : A) (l : list A) : Js.insertBy cmp x l ≡ₚ x :: l.
Proof.
  induction l as [|y r IH]; [done|].
  cbn. destruct (cmp x y); try done.
  rewrite IH. apply Permutation_swap.
Qed.

Lemma sortBy_Permutation (l : list A) : Js.sortBy cmp l ≡ₚ l.
Proof.
  induction l as [|x r IH]; [done|].
  cbn. fold (Js.sortBy cmp r). by rewrite insertBy_Permutation, IH.
Qed.

Lemma insertBy_sorted (x : A) (l : list A) :
  StronglySorted notAfter l -> StronglySorted notAfter (Js.insertBy cmp x l).
Proof.
  induction l as [|y r IH]; intros Hl.
  - repeat constructor.
  - apply StronglySorted_inv in Hl as [Hr Hy].
    cbn. destruct (cmp x y) eqn:Hxy.
    + constructor; [by constructor|]. constructor; [unfold notAfter; congruence|].
      eapply Forall_impl; [exact Hy|]. intros z Hz.
      eapply cmp_trans; [|exact Hz]. unfold notAfter; congruence.
    + constructor; [by constructor|]. constructor; [unfold notAfter; congruence|].
      eapply Forall_impl; [exact Hy|]. intros z Hz.
      eapply cmp_trans; [|exact Hz]. unfold notAfter; congruence.
    + constructor; [by apply IH|].
      rewrite insertBy_Permutation. constructor; [by apply cmp_flip | done].
Qed.

Lemma sortBy_sorted (l : list A) : StronglySorted notAfter (Js.sortBy cmp l).
Proof.
  induction l as [|x r IH]; [constructor|].
  cbn. by apply insertBy_sorted.
Qed.

(** Elements selected by [P] that the comparison never orders after one
    another keep their order. *)
Lemma insertBy_filter (P : A -> Prop) `{!forall a, Decision (P a)} (x : A) (l : list A) :
  (forall a b, P a -> P b -> notAfter a b) ->
  filter P (Js.insertBy cmp x l) = filter P (x :: l).
Proof.
  intros HP. induction l as [|y r IH]; [done|].
  cbn. destruct (cmp x y) eqn:Hxy; try done.
  rewrite filter_cons, IH, !filter_cons.
  destruct (decide (P y)) as [Hy|Hy]; [|done].
  destruct (decide (P x)) as [Hx|Hx]; [|done].
  by destruct (HP x y Hx Hy).
Qed.

Lemma sortBy_filter (P : A -> Prop) `{!forall a, Decision (P a)} (l : list A) :
  (forall a b, P a -> P b -> notAfter a b) ->
  filter P (Js.sortBy cmp l) = filter P l.
Proof.
  intros HP. induction l as [|x r IH]; [done|].
  cbn. fold (Js.sortBy cmp r).
  by rewrite insertBy_filter, !filter_cons, IH.
Qed.
End SortBy.

(** *** Batches *)

Lemma cardsOf_cons (p : Photo) (c : Card) (ps : list Photo) :
  createCard p = Normal c -> cardsOf (p :: ps) = c :: cardsOf ps.
Proof.
  intros H. unfold cardsOf. cbn [omap list_omap]. unfold cardOf at 1. by rewrite H.
Qed.

Lemma cardsOf_app (ps qs : list Photo) : cardsOf (ps ++ qs) = cardsOf ps ++ cardsOf qs.
Proof.
  unfold cardsOf. induction ps as [|p ps IH]; [done|].
  cbn [app omap list_omap]. rewrite IH. by destruct (cardOf p).
Qed.

Lemma cardsOf_length (ps : list Photo) :
  Forall renders ps -> length (cardsOf ps) = length ps.
Proof.
  induction 1 as [|p ps [_ [c Hc]] _ IH]; [done|].
  rewrite (cardsOf_cons p c ps Hc). cbn. by rewrite IH.
Qed.

(** Whatever the records are, the loop moves the index by at most the
    iterations it was given and adds at most as many cards. *)
Lemma renderLoop_bound (n : nat) (data : list Photo) (e i : Z) (frag : list Card) :
  let r := renderLoop n data e i frag in
  i <= fst r <= i + Z.of_nat n
  /\ forall frag', snd r = Normal frag' ->
       exists new, frag' = frag ++ new /\ (length new <= n)%nat.
Proof.
  revert i frag. induction n as [|n IH]; intros i frag; cbn zeta.
  - cbn. split; [lia|]. intros frag' [= <-]. exists []. by rewrite app_nil_r.
  - cbn [renderLoop]. destruct (i <? e).
    2:{ cbn. split; [lia|]. intros frag' [= <-]. exists []. rewrite app_nil_r.
        split; [done|cbn; lia]. }
    destruct (data !! Z.to_nat i) as [p|]; [|cbn; split; [lia|done]].
    destruct (createCard p) as [c|err]; [|cbn; split; [lia|done]].
    destruct (IH (i + 1) (frag ++ [c])) as [Hi Hf]. split; [lia|].
    intros frag' Hr. destruct (Hf frag' Hr) as (new & -> & Hlen).
    exists (c :: new). rewrite <- app_assoc. split; [done|cbn; lia].
Qed.

(** Whatever the list, one call of [appendBatch] adds at most twenty
    cards to the container and moves the index by at most twenty. *)
Lemma appendBatch_bound (st : Loader) (cs : list Card) :
  container (page st) = Some cs ->
  exists new : list Card,
    container (page (fst (appendBatch st))) = Some (cs ++ new)
    /\ (length new <= 20)%nat
    /\ idx st <= idx (fst (appendBatch st)) <= idx st + BATCH_SIZE.
Proof.
  intros Hc. unfold appendBatch.
  set (e := Z.min (idx st + BATCH_SIZE) (Z.of_nat (length (data st)))).
  pose proof (renderLoop_bound (Z.to_nat (e - idx st)) (data st) e (idx st) []) as [Hi Hf].
  assert (Hn : Z.of_nat (Z.to_nat (e - idx st)) <= 20) by (unfold e, BATCH_SIZE; lia).
  destruct (renderLoop _ _ _ _ _) as [i [frag|err]]; cbn in *.
  - destruct (Hf frag eq_refl) as (new & -> & Hlen).
    exists new. rewrite Hc. cbn. split; [done|]. unfold BATCH_SIZE. lia.
  - exists []. rewrite Hc, app_nil_r. split; [done|]. unfold BATCH_SIZE. cbn. lia.
Qed.

Lemma renderLoop_spec (n : nat) (data : list Photo) (e i : Z) (frag : list Card) :
  Forall renders data ->
  0 <= i -> e <= Z.of_nat (length data) -> n = Z.to_nat (e - i) ->
  renderLoop n data e i frag
  = (Z.max i e, Normal (frag ++ cardsOf (take n (drop (Z.to_nat i) data)))).
Proof.
  intros Hdata. revert i frag. induction n as [|n IH]; intros i frag Hi He Hn.
  - cbn. rewrite app_nil_r. do 2 f_equal. lia.
  - cbn [renderLoop].
    assert (Hlt : i < e) by lia.
    rewrite (proj2 (Z.ltb_lt _ _) Hlt).
    destruct (lookup_lt_is_Some_2 data (Z.to_nat i)) as [p Hp]; [lia|].
    rewrite Hp.
    destruct (proj1 (Forall_forall _ _) Hdata p (list_elem_of_lookup_2 _ _ _ Hp))
      as [_ [c Hc]].
    rewrite Hc, IH by lia.
    rewrite (drop_S _ _ _ Hp). cbn [take]. rewrite (cardsOf_cons p c _ Hc).
    replace (Z.to_nat (i + 1)) with (S (Z.to_nat i)) by lia.
    rewrite <- app_assoc. cbn.
    by rewrite !Z.max_r by lia.
Qed.

Lemma appendBatch_spec (cs0 : list Card) (st : Loader) :
  Forall renders (data st) ->
  0 <= idx st <= Z.of_nat (length (data st)) -> renderedUpTo cs0 st ->
  exists st' : Loader,
    appendBatch st = (st', Normal tt)
    /\ data st' = data st
    /\ observing st' = observing st
    /\ sentinel (page st') = sentinel (page st)
    /\ idx st' = Z.min (idx st + BATCH_SIZE) (Z.of_nat (length (data st)))
    /\ renderedUpTo cs0 st'.
Proof.
  intros Hdata Hi Hc. unfold appendBatch.
  set (e := Z.min (idx st + BATCH_SIZE) (Z.of_nat (length (data st)))).
  assert (He : idx st <= e) by (unfold e, BATCH_SIZE; lia).
  rewrite (renderLoop_spec _ _ _ _ _ Hdata (proj1 Hi)) by (unfold e; lia).
  eexists. split; [reflexivity|]. cbn. repeat split; try lia.
  unfold renderedUpTo in *. cbn. rewrite Hc. cbn.
  rewrite <- app_assoc, <- cardsOf_app, take_take_drop.
  do 4 f_equal. lia.
Qed.

Lemma removeSentinel_id (pg : Page) : sentinel pg = false -> removeSentinel pg = pg.
Proof. destruct pg; cbn; by intros ->. Qed.

(** The callback body on an intersecting entry, once [appendBatch] is
    known to return. *)
Lemma onEntry_true (st st1 : Loader) :
  (if idx st <? Z.of_nat (length (data st)) then appendBatch st else (st, Normal tt))
  = (st1, Normal tt) ->
  onEntry true st
  = (if Z.of_nat (length (data st1)) <=? idx st1
     then mkLoader (removeSentinel (page st1)) (data st1) (idx st1) false
     else st1, Normal tt).
Proof.
  intros H. unfold onEntry, mbind, Eff_bind, gets, mret, Eff_ret, disconnect, modify, id.
  destruct (idx st <? Z.of_nat (length (data st))).
  - rewrite H. by destruct (Z.of_nat (length (data st1)) <=? idx st1).
  - injection H as ->. by destruct (Z.of_nat (length (data st1)) <=? idx st1).
Qed.

Lemma onEntry_done (cs0 : list Card) (st : Loader) (e : bool) :
  wf cs0 st -> observing st = false -> onEntry e st = (st, Normal tt).
Proof.
  intros [_ Hi Hc Hs Hd] Ho. specialize (Hd Ho).
  destruct e; [|done].
  rewrite (onEntry_true st st) by (by rewrite (proj2 (Z.ltb_ge _ _)) by lia).
  rewrite (proj2 (Z.leb_le _ _)) by lia.
  rewrite removeSentinel_id by congruence.
  destruct st; cbn in *; congruence.
Qed.

Lemma onEntry_spec (cs0 : list Card) (st : Loader) (e : bool) :
  wf cs0 st ->
  let len := Z.of_nat (length (data st)) in
  snd (onEntry e st) = Normal tt
  /\ wf cs0 (afterEntry st e)
  /\ data (afterEntry st e) = data st
  /\ idx (afterEntry st e) = (if e then Z.min (idx st + BATCH_SIZE) len else idx st)
  /\ (sentinel (page st) = true ->
      (sentinel (page (afterEntry st e)) = false
       <-> e = true /\ idx (afterEntry st e) = len)).
Proof.
  intros Hwf len. unfold afterEntry, listener.
  pose proof Hwf as [Hdata Hi Hc Hs Hd]. fold len in Hi, Hd.
  destruct (observing st) eqn:Ho.
  2:{ rewrite (onEntry_done cs0 st e Hwf Ho). specialize (Hd eq_refl). cbn.
      split; [done|]. split; [done|]. split; [done|].
      split; [destruct e; unfold BATCH_SIZE; lia|]. congruence. }
  destruct e.
  2:{ cbn. split; [done|]. split; [done|]. split; [done|]. split; [done|].
      intros Hsen. split; [congruence|]. by intros [? _]. }
  destruct (Z.ltb_spec (idx st) (Z.of_nat (length (data st)))) as [Hlt|Hge].
  - destruct (appendBatch_spec cs0 st Hdata Hi Hc)
      as (st1 & Hab & Hd' & Ho' & Hs' & Hi' & Hc').
    rewrite (onEntry_true st st1) by (by rewrite (proj2 (Z.ltb_lt _ _) Hlt)).
    fold len in Hi'. rewrite Hd'. fold len. unfold BATCH_SIZE in *.
    destruct (Z.leb_spec len (idx st1)) as [Hfull|Hmore]; cbn.
    + split; [done|]. split.
      { split; cbn; rewrite ?Hd'; fold len; try done; try lia.
        unfold renderedUpTo in *. cbn. by rewrite Hd' in Hc'. }
      split; [done|]. split; [lia|]. intros _. split; [|done].
      intros _. split; [done|lia].
    + split; [done|]. split.
      { split; rewrite ?Hd'; fold len.
        - done.
        - lia.
        - exact Hc'.
        - congruence.
        - intros. congruence. }
      split; [done|]. split; [lia|]. intros Hsen. rewrite Hs'.
      split; [congruence|]. intros [_ ?]. lia.
  - rewrite (onEntry_true st st) by (by rewrite (proj2 (Z.ltb_ge _ _) Hge)).
    fold len. rewrite (proj2 (Z.leb_le _ _)) by lia. cbn.
    split; [done|]. split.
    { split; cbn; fold len; try done; lia. }
    split; [done|]. split; [unfold BATCH_SIZE; lia|]. intros _.
    split; [|done]. intros _. split; [done|lia].
Qed.

Lemma callback_cons (e : bool) (r : list bool) (st : Loader) :
  snd (onEntry e st) = Normal tt ->
  callback (e :: r) st = callback r (afterEntry st e).
Proof.
  intros H. cbn [callback]. unfold mbind, Eff_bind, afterEntry, listener.
  destruct (onEntry e st) as [st' [[]|err]]; [done|discriminate].
Qed.

Lemma callback_done (cs0 : list Card) (st : Loader) (es : list bool) :
  wf cs0 st -> observing st = false -> callback es st = (st, Normal tt).
Proof.
  intros Hwf Ho. induction es as [|e r IH]; [done|].
  rewrite callback_cons by (by rewrite (onEntry_done cs0 st e Hwf Ho)).
  unfold afterEntry, listener. by rewrite (onEntry_done cs0 st e Hwf Ho).
Qed.

Lemma callback_spec (cs0 : list Card) (es : list bool) (st : Loader) :
  wf cs0 st ->
  let len := Z.of_nat (length (data st)) in
  let st' := listener (callback es) st in
  snd (callback es st) = Normal tt
  /\ wf cs0 st'
  /\ data st' = data st
  /\ idx st' = Z.min (idx st + BATCH_SIZE * hitsOf es) len
  /\ (sentinel (page st) = true ->
      (sentinel (page st') = false
       <-> 1 <= hitsOf es /\ len <= idx st + BATCH_SIZE * hitsOf es)).
Proof.
  revert st. induction es as [|e r IH]; intros st Hwf len; cbn zeta.
  - cbn. pose proof (wf_idx _ _ Hwf). fold len in H.
    split; [done|]. split; [done|]. split; [done|]. split; [unfold BATCH_SIZE; lia|].
    intros ->. split; [done|lia].
  - destruct (onEntry_spec cs0 st e Hwf) as (Hok & Hwf' & Hd' & Hi' & Hs').
    unfold listener. rewrite (callback_cons e r st Hok).
    destruct (IH _ Hwf') as (Hok2 & Hwf2 & Hd2 & Hi2 & Hs2).
    unfold listener in Hwf2, Hd2, Hi2, Hs2.
    rewrite Hd' in Hi2, Hs2. fold len in Hi', Hs', Hi2, Hs2.
    pose proof (wf_idx _ _ Hwf) as Hi. fold len in Hi.
    assert (Hn : hitsOf (e :: r) = (if e then 1 else 0) + hitsOf r).
    { rewrite filter_cons. destruct e; case_decide; try done. cbn. lia. }
    rewrite Hn. unfold BATCH_SIZE in *.
    split; [done|]. split; [done|]. split; [congruence|].
    split; [rewrite Hi2, Hi'; destruct e; lia|].
    intros Hsen. specialize (Hs' Hsen).
    destruct (sentinel (page (afterEntry st e))) eqn:Hsen'.
    + rewrite (Hs2 eq_refl), Hi'.
      destruct e.
      * assert (idx (afterEntry st true) <> len).
        { intros Heq. destruct Hs' as [_ Hs']. by specialize (Hs' (conj eq_refl Heq)). }
        lia.
      * lia.
    + destruct Hs' as [Hs' _]. destruct (Hs' eq_refl) as [-> Hfull].
      rewrite (callback_done cs0 _ r Hwf'); cbn [fst]; rewrite ?Hsen'.
      2:{ by rewrite <- (wf_sentinel _ _ Hwf'). }
      split; [|done]. intros _. lia.
Qed.

Lemma callback_app (cs0 : list Card) (es1 es2 : list bool) (st : Loader) :
  wf cs0 st ->
  listener (callback (es1 ++ es2)) st = listener (callback es2) (listener (callback es1) st).
Proof.
  revert st. induction es1 as [|e r IH]; intros st Hwf; [done|].
  destruct (onEntry_spec cs0 st e Hwf) as (Hok & Hwf' & _).
  unfold listener in *. cbn [app]. rewrite !(callback_cons e _ st Hok).
  by apply IH.
Qed.

Lemma deliver_callback (cs0 : list Card) (st : Loader) (es : list bool) :
  wf cs0 st -> deliver st es = listener (callback es) st.
Proof.
  intros Hwf. unfold deliver. destruct (observing st) eqn:Ho; [done|].
  unfold listener. by rewrite (callback_done cs0 st es Hwf Ho).
Qed.

Lemma run_callback (cs0 : list Card) (batches : list (list bool)) (st : Loader) :
  wf cs0 st -> run batches st = listener (callback (concat batches)) st.
Proof.
  revert st. induction batches as [|b r IH]; intros st Hwf; [done|].
  unfold run. cbn [foldl concat]. fold (run r (deliver st b)).
  rewrite (deliver_callback cs0) by done.
  rewrite IH by apply (callback_spec cs0 b st Hwf).
  by rewrite (callback_app cs0).
Qed.

Lemma removals_spec (cs0 : list Card) (es : list bool) (st : Loader) :
  wf cs0 st ->
  removals st es
  = if sentinel (page st) && negb (sentinel (page (listener (callback es) st)))
    then 1%nat else 0%nat.
Proof.
  revert st. induction es as [|e r IH]; intros st Hwf.
  - cbn. by destruct (sentinel (page st)).
  - destruct (onEntry_spec cs0 st e Hwf) as (Hok & Hwf' & _).
    cbn [removals]. unfold listener. rewrite (callback_cons e r st Hok).
    unfold afterEntry, listener in *.
    destruct (onEntry e st) as [st' [[]|err]] eqn:He; [|discriminate]. cbn [fst] in *.
    rewrite (IH _ Hwf'). unfold listener.
    destruct (sentinel (page st)) eqn:Hs.
    + destruct (sentinel (page st')) eqn:Hs'; cbn; [done|].
      rewrite (callback_done cs0 _ r Hwf'); cbn [fst]; rewrite ?Hs'; [done|].
      by rewrite <- (wf_sentinel _ _ Hwf').
    + rewrite (onEntry_done cs0 st e Hwf) in He
        by (by rewrite <- (wf_sentinel _ _ Hwf)).
      injection He as <-. by rewrite Hs.
Qed.

Lemma removalsRun_spec (cs0 : list Card) (batches : list (list bool)) (st : Loader) :
  wf cs0 st ->
  removalsRun st batches
  = if sentinel (page st) && negb (sentinel (page (run batches st))) then 1%nat else 0%nat.
Proof.
  revert st. induction batches as [|b r IH]; intros st Hwf.
  - cbn. by destruct (sentinel (page st)).
  - cbn [removalsRun]. unfold run. cbn [foldl]. fold (run r (deliver st b)).
    assert (Hwf' : wf cs0 (deliver st b)).
    { rewrite (deliver_callback cs0) by done. apply (callback_spec cs0 b st Hwf). }
    rewrite (IH _ Hwf').
    rewrite <- (wf_sentinel _ _ Hwf).
    destruct (sentinel (page st)) eqn:Hs.
    + rewrite (removals_spec cs0) by done. rewrite Hs.
      rewrite (deliver_callback cs0) by done. cbn [andb].
      destruct (sentinel (page (listener (callback b) st))) eqn:Hs'; cbn; [done|].
      assert (Hwfc : wf cs0 (listener (callback b) st))
        by apply (callback_spec cs0 b st Hwf).
      rewrite (run_callback cs0) by done. unfold listener at 1.
      rewrite (callback_done cs0); cbn [fst]; rewrite ?Hs'; try done.
      by rewrite <- (wf_sentinel _ _ Hwfc).
    + unfold deliver. rewrite <- (wf_sentinel _ _ Hwf), Hs. by rewrite Hs.
Qed.

Lemma hits_app (b1 b2 : list (list bool)) : hits (b1 ++ b2) = (hits b1 + hits b2)%nat.
Proof. unfold hits. by rewrite concat_app, filter_app, length_app. Qed.

(** On a successful response, with a card for every record, [init]
    returns with the first batch rendered and, when the page has a
    sentinel, the observer running. *)
Lemma init_success
    (cmp : string -> string -> comparison) (env : Env) (pg : Page) (cs0 : list Card) :
  ok (response env) = true ->
  container pg = Some cs0 ->
  Forall renders (filterData (getGalleryKey env) (body (response env))) ->
  exists st0 : Loader,
    init cmp env pg = (page st0, Normal (Some st0))
    /\ data st0 = sortData cmp (filterData (getGalleryKey env) (body (response env)))
    /\ idx st0 = Z.min BATCH_SIZE (Z.of_nat (length (data st0)))
    /\ observing st0 = sentinel pg
    /\ sentinel (page st0) = sentinel pg
    /\ renderedUpTo cs0 st0.
Proof.
  intros Hok Hc Hrenders.
  set (k := getGalleryKey env) in *.
  set (d := sortData cmp (filterData k (body (response env)))).
  set (pg1 := log ("[gallery] key=" +:+ dq +:+ k +:+ dq +:+ " → "
                   +:+ Js.decimal (N.of_nat (length (filterData k (body (response env)))))
                   +:+ " items") (fst (setHeading k pg))).
  assert (Hd0 : Forall renders d).
  { unfold d, sortData. by rewrite sortBy_Permutation. }
  assert (Hr : renderedUpTo cs0 (mkLoader pg1 d 0 false)).
  { unfold renderedUpTo. cbn. by rewrite Hc, app_nil_r. }
  destruct (appendBatch_spec cs0 (mkLoader pg1 d 0 false))
    as (st & Hab & Hd & Ho & Hs & Hi & Hr'); [done | cbn; lia | done |].
  cbn in Hd, Ho, Hs, Hi.
  assert (Hinit : init cmp env pg
                  = (page st, Normal (Some (if sentinel pg
                                            then mkLoader (page st) (data st) (idx st) true
                                            else st)))).
  { unfold init, mbind, Eff_bind, gets. rewrite Hc. fold k.
    rewrite (surjective_pairing (setHeading k pg)), (proj1 (setHeading_frame k pg)).
    unfold fetchData. rewrite Hok. cbn [negb]. unfold mret, Eff_ret, modify, firstBatch.
    fold d. fold pg1. rewrite Hab.
    destruct (sentinel pg); reflexivity. }
  assert (Hs' : sentinel (page st) = sentinel pg) by (by rewrite Hs).
  clear Hs. destruct (sentinel pg) eqn:Hsen.
  - exists (mkLoader (page st) (data st) (idx st) true). cbn.
    split; [done|]. rewrite Hd. split; [done|]. split; [by rewrite Hi|].
    split; [done|]. split; [done|]. unfold renderedUpTo in *. cbn. by rewrite <- Hd.
  - exists st. split; [done|]. rewrite Hd. split; [done|]. split; [by rewrite Hi|].
    split; [done|]. split; [done|]. done.
Qed.

(** C3, as amended.  One call of [appendBatch] adds at most twenty cards,
    whatever the list.  On a page with a container and a sentinel, a
    successful response and a card for every filtered record, [init]
    returns a loader over the filtered, sorted list, and: after any
    sequence of observer callbacks the container holds the cards of the
    first [idx] records, where [idx] is twenty times the number of
    intersecting entries so far plus one, capped at the list's length,
    so the count never decreases, never exceeds the length and equals
    it once enough entries intersected; the observer observes exactly
    as long as the sentinel is in the document; the sentinel leaves the
    document at most once over the run, and it does so at an entry
    exactly when that entry intersects and ends with every record
    rendered, that is at the first such entry. *)
Theorem batches_converge
    (cmp : string -> string -> comparison) (env : Env) (pg : Page) (cs0 : list Card) :
  ok (response env) = true ->
  container pg = Some cs0 ->
  sentinel pg = true ->
  Forall renders (filterData (getGalleryKey env) (body (response env))) ->
  exists st0 : Loader,
    init cmp env pg = (page st0, Normal (Some st0))
    /\ data st0 = sortData cmp (filterData (getGalleryKey env) (body (response env)))
    /\ (forall st cs,
          container (page st) = Some cs ->
          exists new : list Card,
            container (page (fst (appendBatch st))) = Some (cs ++ new)
            /\ (length new <= 20)%nat
            /\ idx st <= idx (fst (appendBatch st)) <= idx st + BATCH_SIZE)
    /\ (forall st cs,
          Forall renders (data st) ->
          0 <= idx st <= Z.of_nat (length (data st)) -> renderedUpTo cs st ->
          snd (appendBatch st) = Normal tt
          /\ renderedUpTo cs (fst (appendBatch st)))
    /\ forall batches more : list (list bool),
        let len := Z.of_nat (length (data st0)) in
        let st := run batches st0 in
        renderedUpTo cs0 st
        /\ idx st = Z.min (BATCH_SIZE * (Z.of_nat (hits batches) + 1)) len
        /\ idx st <= idx (run (batches ++ more) st0) <= len
        /\ (len <= BATCH_SIZE * (Z.of_nat (hits batches) + 1) -> idx st = len)
        /\ observing st = sentinel (page st)
        /\ (sentinel (page st) = false <-> (1 <= hits batches)%nat /\ idx st = len)
        /\ removalsRun st0 batches = (if sentinel (page st) then 0 else 1)%nat
        /\ (forall e : bool,
              sentinel (page st) = true ->
              snd (onEntry e st) = Normal tt
              /\ (sentinel (page (afterEntry st e)) = false
                  <-> e = true /\ idx (afterEntry st e) = len)).
Proof.
  intros Hok Hc Hsen Hrenders.
  destruct (init_success cmp env pg cs0 Hok Hc Hrenders)
    as (st0 & Hinit & Hdata & Hidx & Hobs & Hsen0 & Hr0).
  exists st0. split; [done|]. split; [done|].
  split; [exact appendBatch_bound|]. split.
  { intros st cs Hd Hi Hr.
    destruct (appendBatch_spec cs st Hd Hi Hr) as (st' & -> & _ & _ & _ & _ & Hr').
    by split. }
  assert (Hwf : wf cs0 st0).
  { split; [| unfold BATCH_SIZE in *; lia | done | congruence | congruence].
    rewrite Hdata. unfold sortData. by rewrite sortBy_Permutation. }
  intros batches more len st.
  assert (Hrun : forall bs,
             wf cs0 (run bs st0)
             /\ data (run bs st0) = data st0
             /\ idx (run bs st0) = Z.min (BATCH_SIZE * (Z.of_nat (hits bs) + 1)) len
             /\ (sentinel (page (run bs st0)) = false
                 <-> (1 <= hits bs)%nat /\ idx (run bs st0) = len)).
  { intros bs. rewrite (run_callback cs0) by done.
    destruct (callback_spec cs0 (concat bs) st0 Hwf) as (_ & Hw & Hd & Hi & Hs).
    fold len in Hi, Hs. fold (hits bs) in Hi, Hs.
    split; [done|]. split; [done|].
    assert (Hi2 : idx (listener (callback (concat bs)) st0)
                  = Z.min (BATCH_SIZE * (Z.of_nat (hits bs) + 1)) len).
    { rewrite Hi, Hidx. fold len. unfold BATCH_SIZE. lia. }
    split; [done|].
    rewrite Hs by congruence. rewrite Hi2, Hidx. fold len. unfold BATCH_SIZE. lia. }
  destruct (Hrun batches) as (Hw & Hd & Hi & Hs). fold st in Hw, Hd, Hi, Hs.
  destruct (Hrun (batches ++ more)) as (_ & _ & Hi' & _).
  rewrite hits_app in Hi'.
  split; [apply Hw|]. split; [done|].
  split; [rewrite Hi, Hi'; unfold BATCH_SIZE; lia|].
  split; [rewrite Hi; unfold BATCH_SIZE; lia|].
  split; [symmetry; apply Hw|]. split; [done|].
  split.
  { rewrite (removalsRun_spec cs0) by done. fold st. rewrite Hsen0, Hsen.
    by destruct (sentinel (page st)). }
  intros e He.
  destruct (onEntry_spec cs0 st e Hw) as (Hok' & _ & _ & _ & Hs').
  split; [done|]. rewrite Hd in Hs'. by apply Hs'.
Qed.

Lemma sampleShot_renders (k : nat) : renders (MoreSamples.sampleShot k).
Proof.
  split.
  - unfold exactKeys. cbn. repeat (apply Forall_cons; split).
    4: apply Forall_nil_2.
    all: cbn; intros z [= <-]; by vm_compute.
  - unfold createCard. cbn [variants MoreSamples.sampleShot].
    destruct (Thumbnail.cardImage (Some (MoreProps.tableOf MoreSamples.sampleRenditions)))
      as [im|err] eqn:H; [by eexists|]. by vm_compute in H.
Qed.

Lemma batches_converge_witness :
  exists st0 : Loader,
    init caseFoldCompare (mkEnv None (mkResponse true 200 MoreSamples.sampleRoll)) samplePage
    = (page st0, Normal (Some st0))
    /\ idx st0 = 20
    /\ idx (run [[false]; [true]] st0) = 40
    /\ sentinel (page (run [[false]; [true]] st0)) = true
    /\ idx (run [[false]; [true]; [true; true]] st0) = 45
    /\ sentinel (page (run [[false]; [true]; [true; true]] st0)) = false.
Proof.
  destruct (batches_converge caseFoldCompare
              (mkEnv None (mkResponse true 200 MoreSamples.sampleRoll)) samplePage [])
    as (st0 & Hinit & Hdata & _ & _ & Hrun); [reflexivity | reflexivity | reflexivity | |].
  { apply Forall_fmap, Forall_forall. intros k _. apply sampleShot_renders. }
  exists st0. split; [exact Hinit|].
  assert (Hlen : Z.of_nat (length (data st0)) = 45) by (rewrite Hdata; by vm_compute).
  destruct (Hrun [] []) as (_ & Hi0 & _).
  destruct (Hrun [[false]; [true]] []) as (_ & Hi1 & _ & _ & _ & Hs1 & _).
  destruct (Hrun [[false]; [true]; [true; true]] []) as (_ & Hi2 & _ & _ & _ & Hs2 & _).
  rewrite Hlen in Hi0, Hi1, Hs1, Hi2, Hs2.
  split; [exact Hi0|]. split; [exact Hi1|]. split.
  - destruct (sentinel (page (run [[false]; [true]] st0))); [done|].
    destruct (proj1 Hs1 eq_refl) as [_ H]. rewrite Hi1 in H. by vm_compute in H.
  - split; [exact Hi2|]. apply Hs2. split; [vm_compute; lia | exact Hi2].
Defined.

(** C3 as the claim states it, for every filtered list: a manifest of two
    records, one of which stores its rendition under the key 0800.
    [createCard] throws on that record inside the first [appendBatch];
    [init] ends there with the error uncaught, the grid empty, the
    sentinel in place and no observer: the rendered count stays at zero
    and never reaches the two records of the list. *)
Lemma batches_stall_on_padded_key :
  let env := mkEnv None (mkResponse true 200 [sampleA; MoreSamples.samplePaddedPhoto]) in
  length (filterData (getGalleryKey env) (body (response env))) = 2%nat
  /\ snd (init caseFoldCompare env samplePage)
     = Throw "TypeError: Cannot read properties of undefined (reading 'src')"
  /\ container (fst (init caseFoldCompare env samplePage)) = Some []
  /\ sentinel (fst (init caseFoldCompare env samplePage)) = true
  /\ ~ (exists st0 : Loader,
          init caseFoldCompare env samplePage = (page st0, Normal (Some st0))).
Proof.
  cbn zeta. split; [reflexivity|]. split; [by vm_compute|].
  split; [by vm_compute|]. split; [by vm_compute|].
  intros (st0 & H). apply (f_equal snd) in H. by vm_compute in H.
Qed.

(** *** Sorting *)

(** The order on code units. *)
Lemma compare_refl (s : string) : String.compare s s = Eq.
Proof.
  induction s as [|c r IH]; [done|].
  cbn. unfold Ascii.compare. by rewrite N.compare_refl.
Qed.

Lemma compare_not_Gt_trans (a b c : string) :
  String.compare a b <> Gt -> String.compare b c <> Gt -> String.compare a c <> Gt.
Proof.
  revert b c. induction a as [|x a IH]; intros [|y b] [|z c]; cbn; try done.
  unfold Ascii.compare.
  destruct (N.compare_spec (N_of_ascii x) (N_of_ascii y)) as [Hxy|Hxy|Hxy];
    destruct (N.compare_spec (N_of_ascii y) (N_of_ascii z)) as [Hyz|Hyz|Hyz];
    destruct (N.compare_spec (N_of_ascii x) (N_of_ascii z)) as [Hxz|Hxz|Hxz];
    try done; try lia.
  apply IH.
Qed.

Lemma compare_Lt_trans (a b c : string) :
  String.compare a b = Lt -> String.compare b c = Lt -> String.compare a c = Lt.
Proof.
  intros Hab Hbc.
  assert (Hac : String.compare a c <> Gt)
    by (apply (compare_not_Gt_trans a b c); congruence).
  destruct (String.compare a c) eqn:E; [|done|done].
  apply String.compare_eq_iff in E. subst c.
  rewrite (String.compare_antisym b a), Hab in Hbc. discriminate.
Qed.

Lemma StronglySorted_lookup {A : Type} (R : relation A) (l : list A)
    (i j : nat) (a b : A) :
  StronglySorted R l -> (i < j)%nat -> l !! i = Some a -> l !! j = Some b -> R a b.
Proof.
  intros Hl. revert i j. induction Hl as [|x l Hl IH Hx]; intros i j Hij Hi Hj.
  - by rewrite lookup_nil in Hi.
  - destruct j as [|j]; [lia|]. cbn in Hj.
    destruct i as [|i]; cbn in Hi.
    + injection Hi as ->. rewrite Forall_forall in Hx.
      apply Hx. by eapply list_elem_of_lookup_2.
    + apply (IH i j); [lia | done | done].
Qed.

(** The two comparisons written out above are collations. *)
Lemma codeUnitCompare_Collation : Collation codeUnitCompare.
Proof.
  split; unfold codeUnitCompare.
  - intros a b. apply String.compare_antisym.
  - apply compare_not_Gt_trans.
Qed.

Lemma caseFoldCompare_Collation : Collation caseFoldCompare.
Proof.
  split; unfold caseFoldCompare.
  - intros a b.
    rewrite (String.compare_antisym (Js.toLowerCase b) (Js.toLowerCase a)).
    destruct (String.compare (Js.toLowerCase a) (Js.toLowerCase b)); cbn; [|done|done].
    apply String.compare_antisym.
  - intros a b c.
    destruct (String.compare (Js.toLowerCase a) (Js.toLowerCase b)) eqn:Hab;
      destruct (String.compare (Js.toLowerCase b) (Js.toLowerCase c)) eqn:Hbc;
      try done; intros H1 H2.
    + apply String.compare_eq_iff in Hab, Hbc. rewrite Hab, Hbc, compare_refl.
      by apply (compare_not_Gt_trans c b a).
    + apply String.compare_eq_iff in Hab. by rewrite Hab, Hbc.
    + apply String.compare_eq_iff in Hbc. by rewrite <- Hbc, Hab.
    + by rewrite (compare_Lt_trans _ _ _ Hab Hbc).
Qed.

Section Newest.
Context (cmp : string -> string -> comparison) (Hcmp : Collation cmp).

Lemma newestFirst_flip (a b : Photo) :
  newestFirst cmp a b = Gt -> notAfter (newestFirst cmp) b a.
Proof.
  unfold notAfter, newestFirst.
  rewrite (collation_flip cmp Hcmp (Js.orElse (datetime b) EmptyString)).
  by intros ->.
Qed.

Lemma newestFirst_trans (a b c : Photo) :
  notAfter (newestFirst cmp) a b ->
  notAfter (newestFirst cmp) b c ->
  notAfter (newestFirst cmp) a c.
Proof.
  unfold notAfter, newestFirst. intros Hab Hbc.
  by apply (collation_trans cmp Hcmp _ (Js.orElse (datetime b) EmptyString)).
Qed.

Lemma collation_refl (d : string) : cmp d d = Eq.
Proof.
  pose proof (collation_flip cmp Hcmp d d) as H. by destruct (cmp d d).
Qed.
End Newest.

(** C2, as amended.  The sort of [init] rearranges the records so that
    dates descend in the order of the host's [localeCompare], whatever
    collation that is: no record stands before one whose date collates
    after its own.  Records with equal date (a missing date counting as
    the empty string), and more generally records whose dates the
    collation ranks equal, keep their relative order; and every record
    whose date is missing or empty stands after every record whose date
    the collation puts after the empty string. *)
Theorem sortData_newest_first
    (cmp : string -> string -> comparison) (data : list Photo) :
  Collation cmp ->
  sortData cmp data ≡ₚ data
  /\ (forall (i j : nat) (p q : Photo),
        (i < j)%nat ->
        sortData cmp data !! i = Some p ->
        sortData cmp data !! j = Some q ->
        cmp (dateOf q) (dateOf p) <> Gt)
  /\ (forall d : string,
        filter (fun p => dateOf p = d) (sortData cmp data)
        = filter (fun p => dateOf p = d) data)
  /\ (forall d : string,
        filter (fun p => cmp (dateOf p) d = Eq) (sortData cmp data)
        = filter (fun p => cmp (dateOf p) d = Eq) data)
  /\ (forall (i j : nat) (p q : Photo),
        sortData cmp data !! i = Some p ->
        sortData cmp data !! j = Some q ->
        dateOf p = EmptyString -> cmp EmptyString (dateOf q) = Lt ->
        (j < i)%nat).
Proof.
  intros Hcmp.
  pose proof (sortBy_sorted (newestFirst cmp)
                (newestFirst_flip cmp Hcmp) (newestFirst_trans cmp Hcmp) data) as Hsorted.
  fold (sortData cmp data) in Hsorted.
  assert (Hpair : forall (i j : nat) (p q : Photo),
             (i < j)%nat ->
             sortData cmp data !! i = Some p ->
             sortData cmp data !! j = Some q ->
             cmp (dateOf q) (dateOf p) <> Gt).
  { intros i j p q Hij Hi Hj.
    apply (StronglySorted_lookup _ _ i j p q Hsorted Hij Hi Hj). }
  split; [apply sortBy_Permutation|]. split; [exact Hpair|]. split; [|split].
  - intros d. apply sortBy_filter.
    intros a b Ha Hb. unfold notAfter, newestFirst.
    fold (dateOf a) (dateOf b). by rewrite Ha, Hb, (collation_refl cmp Hcmp).
  - intros d. apply sortBy_filter.
    intros a b Ha Hb. unfold notAfter, newestFirst. fold (dateOf a) (dateOf b).
    apply (collation_trans cmp Hcmp _ d); [congruence|].
    rewrite (collation_flip cmp Hcmp), Ha. done.
  - intros i j p q Hi Hj Hp Hq.
    destruct (Nat.lt_trichotomy i j) as [Hlt|[->|Hgt]]; [| |done].
    + pose proof (Hpair i j p q Hlt Hi Hj) as Hle.
      rewrite Hp, (collation_flip cmp Hcmp), Hq in Hle. done.
    + assert (p = q) by congruence. subst q.
      rewrite Hp, (collation_refl cmp Hcmp) in Hq. discriminate.
Qed.

Lemma sortData_newest_first_witness :
  caseFoldCompare (dateOf sampleE) (dateOf sampleC) <> Gt
  /\ filter (fun p => dateOf p = EmptyString) (sortData caseFoldCompare sampleUndated)
     = [sampleD; sampleE]
  /\ (0 < 4)%nat.
Proof.
  destruct (sortData_newest_first caseFoldCompare sampleUndated caseFoldCompare_Collation)
    as (_ & Hdesc & Hstable & _ & Hlast).
  split; [|split].
  - apply (Hdesc 0%nat 4%nat sampleC sampleE); [lia | reflexivity | reflexivity].
  - rewrite Hstable. reflexivity.
  - apply (Hlast 4%nat 0%nat sampleE sampleC); reflexivity.
Defined.

(** C2 as the claim states it, with lexicographic comparison: three
    records dated in the basic ISO format, the middle one written with a
    lower-case separator.  A collation that compares letters without
    regard to case first, as the default one of the browsers does, sorts
    them by the hour, 10 09 08; lexicographically the lower-case
    separator is the largest, so that the date of the second record of
    the sorted list is above that of the first, and the lexicographic
    sort would have put it first. *)
Lemma sortData_not_lexicographic :
  sortData caseFoldCompare MoreSamples.sampleStamps
  = [ MoreSamples.sampleStamp "20240301T1000"; MoreSamples.sampleStamp "20240301t0900";
      MoreSamples.sampleStamp "20240301T0800" ]
  /\ sortData codeUnitCompare MoreSamples.sampleStamps
     = [ MoreSamples.sampleStamp "20240301t0900"; MoreSamples.sampleStamp "20240301T1000";
         MoreSamples.sampleStamp "20240301T0800" ]
  /\ ~ (forall (i j : nat) (p q : Photo),
          (i < j)%nat ->
          sortData caseFoldCompare MoreSamples.sampleStamps !! i = Some p ->
          sortData caseFoldCompare MoreSamples.sampleStamps !! j = Some q ->
          String.leb (dateOf q) (dateOf p) = true).
Proof.
  split; [reflexivity|]. split; [reflexivity|].
  intros H.
  specialize (H 0%nat 1%nat _ _ (Nat.lt_0_succ 0) eq_refl eq_refl). discriminate.
Qed.

End GalleryFacts.

(** ** The lightbox: properties *)

Module LightboxFacts.
Import Lightbox LightboxProps Samples.

Lemma wrap_range (a n : Z) : 0 < n -> - n <= a -> 0 <= wrap a n < n.
Proof.
  intros Hn Ha. unfold wrap.
  rewrite Z.rem_mod_nonneg by lia. by apply Z.mod_pos_bound.
Qed.

Lemma wrap_mod (a n : Z) : 0 < n -> - n <= a -> wrap a n = a mod n.
Proof.
  intros Hn Ha. unfold wrap.
  rewrite Z.rem_mod_nonneg by lia.
  by rewrite <- (Z.mod_add a 1 n), Z.mul_1_l by lia.
Qed.

Lemma nodeAt_lookup (st : State) (j : Z) :
  0 <= j < count st ->
  exists img, nodes st !! Z.to_nat j = Some img /\ nodeAt j st = (st, Normal img).
Proof.
  intros Hj. unfold count in Hj.
  destruct (lookup_lt_is_Some_2 (nodes st) (Z.to_nat j)) as [img Himg]; [lia|].
  exists img. split; [done|].
  unfold nodeAt, mbind, Eff_bind, gets.
  rewrite (proj2 (Z.ltb_ge _ _)) by lia. by rewrite Himg.
Qed.

(** [show] on an empty list: nothing happens. *)
Lemma show_empty (st : State) (i : Z) : nodes st = [] -> show i st = (st, Normal tt).
Proof.
  intros Hn. unfold show, mbind, Eff_bind, gets. by rewrite Hn.
Qed.

(** [show] on a non-empty list, from an argument not below [-n]. *)
Lemma show_nonempty (st : State) (i : Z) :
  nodes st <> [] -> - count st <= i ->
  exists img before after,
    nodes st !! Z.to_nat (wrap i (count st)) = Some img
    /\ show i st = (shownAt st (wrap i (count st)) img before after, Normal tt).
Proof.
  intros Hne Hi.
  assert (Hn : 0 < count st).
  { unfold count. destruct (nodes st); [done|]. cbn. lia. }
  pose proof (wrap_range i _ Hn Hi) as Hj.
  set (j := wrap i (count st)) in *.
  unfold show, mbind, Eff_bind, gets. fold (count st).
  rewrite (proj2 (Z.eqb_neq _ _)) by lia. fold j.
  set (st1 := fst (setIdx j st)).
  assert (Hc1 : count st1 = count st) by done.
  change (setIdx j st) with (st1, Normal tt). cbv beta iota.
  destruct (nodeAt_lookup st1 j) as (img & Himg & ->); [by rewrite Hc1|].
  cbv beta iota.
  set (st2 := fst (setOverlay (largestSrc img) (Js.orElse (altAttr img) EmptyString)
                              (captionFor img) st1)).
  change (setOverlay _ _ _ st1) with (st2, Normal tt). cbv beta iota.
  destruct (nodeAt_lookup st2 (wrap (j + -1) (count st))) as (before & _ & ->).
  { change (count st2) with (count st). apply wrap_range; lia. }
  cbv beta iota.
  set (st3 := fst (preload (largestSrc before) st2)).
  change (preload _ st2) with (st3, Normal tt). cbv beta iota.
  destruct (nodeAt_lookup st3 (wrap (j + 1) (count st))) as (after & _ & ->).
  { change (count st3) with (count st). apply wrap_range; lia. }
  cbv beta iota.
  exists img, before, after. split; [done|].
  unfold preload, modify, shownAt. cbn. by rewrite <- app_assoc.
Qed.

Lemma count_pos (st : State) : nodes st <> [] -> 0 < count st.
Proof. unfold count. destruct (nodes st); [done|]. cbn. lia. Qed.

(** What a call of [show] does, whenever its argument is not below [-n]. *)
Lemma show_cases (st : State) (i : Z) :
  nodes st = [] \/ - count st <= i ->
  exists st',
    show i st = (st', Normal tt)
    /\ sameSetup st st' /\ shown st' = shown st
    /\ (nodes st = [] -> st' = st)
    /\ (nodes st <> [] ->
        idx st' = wrap i (count st) /\ 0 <= idx st' < count st /\ showing st').
Proof.
  intros Hi. destruct (decide (nodes st = [])) as [He|Hne].
  - exists st. rewrite (show_empty st i He). by repeat split.
  - destruct Hi as [?|Hi]; [done|].
    destruct (show_nonempty st i Hne Hi) as (img & before & after & Himg & Hshow).
    eexists. split; [exact Hshow|].
    split; [by repeat split|]. split; [done|]. split; [done|].
    intros _. split; [done|]. split; [apply wrap_range; [by apply count_pos | done]|].
    exists img. by repeat split.
Qed.

Lemma next_cases (st : State) :
  0 <= idx st ->
  exists st',
    next st = (st', Normal tt)
    /\ sameSetup st st' /\ shown st' = shown st
    /\ (nodes st = [] -> st' = st)
    /\ (nodes st <> [] ->
        idx st' = wrap (idx st + 1) (count st) /\ 0 <= idx st' < count st /\ showing st').
Proof.
  intros Hi. unfold next, mbind, Eff_bind, gets.
  apply show_cases. right. unfold count. lia.
Qed.

Lemma prev_cases (st : State) :
  0 <= idx st ->
  exists st',
    prev st = (st', Normal tt)
    /\ sameSetup st st' /\ shown st' = shown st
    /\ (nodes st = [] -> st' = st)
    /\ (nodes st <> [] ->
        idx st' = wrap (idx st - 1) (count st) /\ 0 <= idx st' < count st /\ showing st').
Proof.
  intros Hi. unfold prev, mbind, Eff_bind, gets.
  apply show_cases.
  destruct (decide (nodes st = [])) as [He|Hne]; [by left|right].
  pose proof (count_pos st Hne). lia.
Qed.

Lemma open_cases (st : State) (i : Z) :
  0 <= i ->
  exists st',
    open i st = (st', Normal tt)
    /\ sameSetup st st' /\ shown st' = true
    /\ (nodes st = [] -> idx st' = idx st /\ imgSrc st' = imgSrc st)
    /\ (nodes st <> [] ->
        idx st' = wrap i (count st) /\ 0 <= idx st' < count st /\ showing st').
Proof.
  intros Hi.
  destruct (show_cases st i) as (st1 & Hshow & Hsame & _ & Hempty & Hfull).
  { right. unfold count. lia. }
  unfold open, mbind, Eff_bind. rewrite Hshow.
  eexists. split; [reflexivity|]. cbn.
  split; [exact Hsame|]. split; [done|].
  split; [by intros ->%Hempty | exact Hfull].
Qed.

Lemma Inv_sameSetup (st st' : State) :
  Inv st -> sameSetup st st' -> 0 <= idx st' -> Inv st'.
Proof.
  intros (_ & Hint & Hplay) (_ & _ & Hp & Ht & Hi & _) Hidx.
  unfold Inv, held in *. rewrite Hp, Ht, Hi. auto.
Qed.

Lemma stop_through (st : State) :
  Inv st ->
  through stop st (fst (stop st))
  /\ Inv (fst (stop st))
  /\ playing (fst (stop st)) = false
  /\ timer (fst (stop st)) = None
  /\ intervals (fst (stop st)) = ∅
  /\ idx (fst (stop st)) = idx st
  /\ nodes (fst (stop st)) = nodes st
  /\ imgSrc (fst (stop st)) = imgSrc st.
Proof.
  intros (Hidx & Hint & Hplay).
  assert (Hempty : intervals (fst (stop st)) = ∅).
  { cbn. rewrite Hint. unfold held. destruct (timer st); [apply difference_diag_L | done]. }
  split; [done|]. split; [|by repeat split].
  split; [done|]. split; [by rewrite Hempty|].
  cbn. split; [done|]. by intros [? [=]].
Qed.

Lemma play_through (st : State) :
  Inv st ->
  through play st (fst (play st))
  /\ Inv (fst (play st))
  /\ idx (fst (play st)) = idx st
  /\ nodes (fst (play st)) = nodes st
  /\ imgSrc (fst (play st)) = imgSrc st
  /\ (playing st = true -> fst (play st) = st).
Proof.
  intros HInv. pose proof HInv as (Hidx & Hint & Hplay).
  unfold through, play, mbind, Eff_bind, gets.
  destruct (playing st || bool_decide (nodes st = [])) eqn:E; cbn.
  { split; [done|]. split; [exact HInv|]. by repeat split. }
  apply orb_false_elim in E as [Hp _].
  assert (Ht : timer st = None).
  { destruct (timer st) eqn:Ht; [|done].
    assert (playing st = true) by (by apply Hplay). congruence. }
  split; [done|]. split; [|by repeat split; congruence].
  split; [done|]. split.
  - cbn. unfold held. cbn. rewrite Hint. unfold held. rewrite Ht.
    apply (left_id_L ∅ (∪)).
  - cbn. split; [by eexists|done].
Qed.

Lemma close_through (st : State) :
  Inv st ->
  through close st (fst (close st))
  /\ Inv (fst (close st))
  /\ playing (fst (close st)) = false
  /\ timer (fst (close st)) = None
  /\ intervals (fst (close st)) = ∅
  /\ shown (fst (close st)) = false
  /\ idx (fst (close st)) = idx st
  /\ nodes (fst (close st)) = nodes st
  /\ imgSrc (fst (close st)) = imgSrc st.
Proof.
  intros HInv.
  set (st1 := fst (setShown false st)).
  assert (H1 : Inv st1) by done.
  destruct (stop_through st1 H1) as (Hs & HI & Hp & Ht & Hi & Hx & Hn & Hm).
  assert (Hc : close st = stop st1) by done.
  unfold through. rewrite Hc.
  split; [done|]. split; [exact HI|]. by repeat split.
Qed.

Lemma togglePlay_through (st : State) :
  Inv st ->
  through togglePlay st (fst (togglePlay st))
  /\ Inv (fst (togglePlay st))
  /\ idx (fst (togglePlay st)) = idx st
  /\ nodes (fst (togglePlay st)) = nodes st
  /\ imgSrc (fst (togglePlay st)) = imgSrc st.
Proof.
  intros HInv.
  assert (Hc : togglePlay st = if playing st then stop st else play st).
  { unfold togglePlay, mbind, Eff_bind, gets. by destruct (playing st). }
  unfold through. rewrite Hc. destruct (playing st).
  - destruct (stop_through st HInv) as (? & HI & _ & _ & _ & ? & ? & ?).
    split; [done|]. split; [exact HI|]. by repeat split.
  - destruct (play_through st HInv) as (? & HI & ? & ? & ? & _).
    split; [done|]. split; [exact HI|]. by repeat split.
Qed.

(** The common shape of [next], [prev] and [open] on a state. *)
Lemma nav_settled (st st' : State) :
  Inv st -> sameSetup st st' ->
  (nodes st = [] -> idx st' = idx st /\ imgSrc st' = imgSrc st) ->
  (nodes st <> [] -> 0 <= idx st' < count st /\ showing st') ->
  Inv st' /\ settled st st'.
Proof.
  intros HInv Hsame Hempty Hfull.
  assert (Hn : nodes st' = nodes st) by apply Hsame.
  assert (Hc : count st' = count st) by (unfold count; by rewrite Hn).
  split.
  - apply (Inv_sameSetup st st' HInv Hsame).
    destruct (decide (nodes st = [])) as [He|Hne].
    + destruct (Hempty He) as [-> _]. apply HInv.
    + apply (Hfull Hne).
  - unfold settled. rewrite Hn, Hc. split; [exact Hfull | exact Hempty].
Qed.

Lemma next_through (st : State) :
  Inv st -> exists st', through next st st' /\ Inv st' /\ settled st st'.
Proof.
  intros HInv.
  destruct (next_cases st (proj1 HInv)) as (st' & Hn & Hsame & _ & He & Hf).
  exists st'. split; [done|].
  apply nav_settled; try done.
  - by intros ->%He.
  - intros Hne. by destruct (Hf Hne) as (_ & ? & ?).
Qed.

Lemma prev_through (st : State) :
  Inv st -> exists st', through prev st st' /\ Inv st' /\ settled st st'.
Proof.
  intros HInv.
  destruct (prev_cases st (proj1 HInv)) as (st' & Hn & Hsame & _ & He & Hf).
  exists st'. split; [done|].
  apply nav_settled; try done.
  - by intros ->%He.
  - intros Hne. by destruct (Hf Hne) as (_ & ? & ?).
Qed.

Lemma open_through (st : State) (i : Z) :
  Inv st -> 0 <= i -> exists st', through (open i) st st' /\ Inv st' /\ settled st st'.
Proof.
  intros HInv Hi.
  destruct (open_cases st i Hi) as (st' & Hn & Hsame & _ & He & Hf).
  exists st'. split; [done|].
  apply nav_settled; try done.
  intros Hne. by destruct (Hf Hne) as (_ & ? & ?).
Qed.

(** Every handler returns normally from a state satisfying [Inv], keeps
    [Inv], and when it called [show] leaves the cursor settled. *)
Lemma handler_through (st : State) (e : Event) :
  Inv st ->
  exists st',
    through (handler e) st st' /\ Inv st'
    /\ (callsShow st e = true -> settled st st').
Proof.
  intros HInv.
  assert (Hskip : forall b, b = false ->
            exists st', through (mret tt) st st' /\ Inv st' /\ (b = true -> settled st st')).
  { intros b ->. by exists st. }
  destruct e as [g|img| | | | | |k|x y|x y|isImg isBtn|t]; cbn [handler callsShow].
  - eexists. split; [reflexivity|]. split; [exact HInv | done].
  - set (st1 := fst (collect st)).
    assert (H1 : Inv st1) by exact HInv.
    destruct (open_through st1 (if 0 <=? indexOf img (nodes st1)
                                then indexOf img (nodes st1) else 0) H1)
      as (st' & Ho & HI & Hs); [case_match; lia|].
    exists st'. split; [exact Ho|]. split; [exact HI|]. intros _. exact Hs.
  - destruct (close_through st HInv) as (Hc & HI & _). eexists. by split.
  - destruct (next_through st HInv) as (st' & ? & ? & ?). by exists st'.
  - destruct (prev_through st HInv) as (st' & ? & ? & ?). by exists st'.
  - destruct (play_through st HInv) as (Hc & HI & _). eexists. by split.
  - destruct (stop_through st HInv) as (Hc & HI & _). eexists. by split.
  - unfold through, mbind, Eff_bind, gets. destruct (shown st) eqn:Hshown; cbn [negb].
    2:{ exists st. split; [done|]. split; [exact HInv|]. by destruct k. }
    destruct k.
    + destruct (close_through st HInv) as (Hc & HI & _). eexists. by split.
    + destruct (next_through st HInv) as (st' & ? & ? & ?). by exists st'.
    + destruct (prev_through st HInv) as (st' & ? & ? & ?). by exists st'.
    + destruct (togglePlay_through st HInv) as (Hc & HI & _). eexists. by split.
    + exists st. by split.
  - eexists. split; [reflexivity|]. split; [exact HInv | done].
  - unfold through, mbind, Eff_bind, gets.
    destruct ((40 <? Z.abs (x - sx st)) && (Z.abs (y - sy st) <? Z.abs (x - sx st))).
    2:{ exists st. split; [done|]. split; [exact HInv|]. done. }
    destruct (x - sx st <? 0).
    + destruct (next_through st HInv) as (st' & ? & ? & ?). by exists st'.
    + destruct (prev_through st HInv) as (st' & ? & ? & ?). by exists st'.
  - destruct (negb isImg && negb isBtn).
    + destruct (close_through st HInv) as (Hc & HI & _). eexists. by split.
    + exists st. by split.
  - unfold through, mbind, Eff_bind, gets. case_bool_decide.
    + destruct (next_through st HInv) as (st' & ? & ? & ?). by exists st'.
    + exists st. split; [done|]. split; [exact HInv|]. done.
Qed.

Lemma step_through (st : State) (e : Event) :
  Inv st -> through (handler e) st (step st e).
Proof.
  intros HInv. destruct (handler_through st e HInv) as (st' & Hh & _).
  unfold step, listener. by rewrite Hh.
Qed.

Lemma reachable_Inv (st : State) : reachable st -> Inv st.
Proof.
  induction 1 as [g|st e _ IH].
  - split; [done|]. split; [done|]. cbn. split; [done|by intros [? [=]]].
  - destruct (handler_through st e IH) as (st' & Hh & HI & _).
    unfold step, listener. by rewrite Hh.
Qed.

Lemma reachable_steps (st : State) (es : list Event) :
  reachable st -> reachable (steps st es).
Proof.
  revert st. induction es as [|e r IH]; intros st Hst; [done|].
  cbn. apply IH. by constructor.
Qed.

(** *** The cursor *)

Lemma next_iter (st : State) (k : nat) :
  nodes st <> [] -> 0 <= idx st < count st ->
  nodes (Nat.iter k (listener next) st) = nodes st
  /\ idx (Nat.iter k (listener next) st) = (idx st + Z.of_nat k) mod count st.
Proof.
  intros Hne Hi. pose proof (count_pos st Hne) as Hn.
  induction k as [|k [IHn IHi]].
  - cbn. split; [done|]. rewrite Z.add_0_r. by rewrite Z.mod_small.
  - change (Nat.iter (S k) (listener next) st)
      with (listener next (Nat.iter k (listener next) st)).
    set (s := Nat.iter k (listener next) st) in *.
    assert (Hc : count s = count st) by (unfold count; by rewrite IHn).
    assert (Hs : 0 <= idx s < count st) by (rewrite IHi; by apply Z.mod_pos_bound).
    destruct (next_cases s) as (s' & Hnext & Hsame & _ & _ & Hf); [lia|].
    unfold listener. rewrite Hnext. cbn [fst].
    destruct Hf as (Hidx & _); [by rewrite IHn|].
    split; [by rewrite (proj1 (proj2 Hsame))|].
    rewrite Hidx, Hc, wrap_mod, IHi by lia.
    rewrite Z.add_mod_idemp_l by lia. f_equal. lia.
Qed.

(** C4. On a non-empty list of [n] thumbnails with the cursor at [i] in
    range, [next] moves the cursor to [(i+1) mod n], so from [n-1] to [0];
    [prev] moves it to [(i-1+n) mod n], so from [0] to [n-1]; and [k]
    times [next] moves it to [(i+k) mod n]. *)
Theorem next_prev_cyclic (st : State) :
  nodes st <> [] -> 0 <= idx st < count st ->
  idx (fst (next st)) = (idx st + 1) mod count st
  /\ idx (fst (prev st)) = (idx st - 1 + count st) mod count st
  /\ (idx st = count st - 1 -> idx (fst (next st)) = 0)
  /\ (idx st = 0 -> idx (fst (prev st)) = count st - 1)
  /\ (forall k : nat,
        idx (Nat.iter k (listener next) st) = (idx st + Z.of_nat k) mod count st).
Proof.
  intros Hne Hi. pose proof (count_pos st Hne) as Hn.
  destruct (next_cases st) as (sn & Hnext & _ & _ & _ & Hfn); [lia|].
  destruct (prev_cases st) as (sp & Hprev & _ & _ & _ & Hfp); [lia|].
  destruct (Hfn Hne) as (Hin & _). destruct (Hfp Hne) as (Hip & _).
  rewrite Hnext, Hprev. cbn [fst].
  assert (Hnext' : idx sn = (idx st + 1) mod count st)
    by (rewrite Hin; apply wrap_mod; lia).
  assert (Hprev' : idx sp = (idx st - 1 + count st) mod count st).
  { rewrite Hip. unfold wrap. apply Z.rem_mod_nonneg; lia. }
  split; [done|]. split; [done|]. split; [|split].
  - intros Hlast. rewrite Hnext', Hlast.
    replace (count st - 1 + 1) with (1 * count st) by lia. apply Z.mod_mul. lia.
  - intros Hfirst. rewrite Hprev', Hfirst.
    replace (0 - 1 + count st) with (count st - 1) by lia. apply Z.mod_small. lia.
  - intros k. by apply next_iter.
Qed.

Lemma next_prev_cyclic_witness :
  idx (Nat.iter 3 (listener next) sampleOpened) = 0.
Proof.
  refine (eq_trans (proj2 (proj2 (proj2 (proj2
            (next_prev_cyclic sampleOpened _ _)))) 3%nat) _).
  - discriminate.
  - vm_compute. split; [discriminate | reflexivity].
  - reflexivity.
Defined.

(** C10. In every state the lightbox can reach: the cursor is not
    negative; no handler throws, so no read of [nodes[idx]] misses; [show]
    on an empty list returns at once with cursor and overlay untouched
    (no remainder by zero is taken); [show] on a non-empty list from an
    argument not below [-n], and every handler that calls [show] ([next],
    [prev], the autoplay tick, a click on a thumbnail, the arrow keys, a
    swipe), leaves the cursor [idx] with [0 <= idx < n] on the node the
    overlay shows. *)
Theorem cursor_in_range (st : State) :
  reachable st ->
  0 <= idx st
  /\ (nodes st = [] -> forall i, show i st = (st, Normal tt))
  /\ (nodes st <> [] -> forall i, - count st <= i ->
        snd (show i st) = Normal tt
        /\ 0 <= idx (fst (show i st)) < count (fst (show i st)))
  /\ (forall e : Event,
        through (handler e) st (step st e)
        /\ (callsShow st e = true -> settled st (step st e))).
Proof.
  intros Hst. pose proof (reachable_Inv st Hst) as HInv.
  split; [apply HInv|]. split; [intros He i; by apply show_empty|]. split.
  - intros Hne i Hi.
    destruct (show_cases st i) as (st' & Hshow & Hsame & _ & _ & Hf); [by right|].
    rewrite Hshow. cbn. split; [done|].
    destruct (Hf Hne) as (_ & Hr & _).
    unfold count in *. by rewrite (proj1 (proj2 Hsame)).
  - intros e. destruct (handler_through st e HInv) as (st' & Hh & _ & Hs).
    assert (Hstep : step st e = st') by (unfold step, listener; by rewrite Hh).
    by rewrite Hstep.
Qed.

Lemma cursor_in_range_witness :
  0 <= idx (step samplePlaying (Tick 1)) < count (step samplePlaying (Tick 1)).
Proof.
  destruct (cursor_in_range samplePlaying) as (_ & _ & _ & H).
  - apply reachable_step, reachable_step, reachable_initial.
  - destruct (H (Tick 1%positive)) as [_ [Hs _]]; [by vm_compute|].
    apply Hs. intros Hn. vm_compute in Hn. discriminate.
Defined.

(** *** Autoplay *)

(** C8. In every state the lightbox can reach, the browser holds at most
    one interval timer for it, namely the one in [timer], and holds one
    exactly while [playing]; [play] while playing changes nothing; [stop]
    clears the timer and the flag; and after [close], by the button, the
    Escape key or a click on the backdrop, the lightbox is not playing
    and no timer is left. *)
Theorem autoplay_single_timer (st : State) :
  reachable st ->
  (size (intervals st) <= 1)%nat
  /\ intervals st = held st
  /\ (playing st = true <-> is_Some (timer st))
  /\ (playing st = true -> play st = (st, Normal tt))
  /\ (playing (fst (stop st)) = false
      /\ timer (fst (stop st)) = None
      /\ intervals (fst (stop st)) = ∅)
  /\ (forall e : Event,
        e = ClickClose \/ (e = KeyDown Escape /\ shown st = true)
        \/ e = ClickOverlay false false ->
        step st e = fst (close st)
        /\ playing (step st e) = false
        /\ timer (step st e) = None
        /\ intervals (step st e) = ∅).
Proof.
  intros Hst. pose proof (reachable_Inv st Hst) as HInv.
  pose proof HInv as (_ & Hint & Hplay).
  split.
  { rewrite Hint. unfold held. destruct (timer st).
    - by rewrite size_singleton.
    - rewrite size_empty. lia. }
  split; [done|]. split; [done|]. split.
  { intros Hp. destruct (play_through st HInv) as (Hth & _ & _ & _ & _ & Hid).
    unfold through in Hth. by rewrite (Hid Hp) in Hth. }
  split.
  { by destruct (stop_through st HInv) as (_ & _ & ? & ? & ? & _). }
  intros e He.
  destruct (close_through st HInv) as (_ & _ & Hp & Ht & Hi & _).
  assert (Hstep : step st e = fst (close st)).
  { destruct He as [He|[[He Hshown]|He]]; subst e; try done.
    unfold step, listener. cbn [handler]. unfold mbind, Eff_bind, gets.
    by rewrite Hshown. }
  by rewrite Hstep.
Qed.

Lemma autoplay_single_timer_witness :
  playing (step samplePlaying ClickClose) = false
  /\ intervals (step samplePlaying ClickClose) = ∅.
Proof.
  destruct (autoplay_single_timer samplePlaying) as (_ & _ & _ & _ & _ & H).
  - apply reachable_step, reachable_step, reachable_initial.
  - destruct (H ClickClose) as (_ & Hp & _ & Hi); [by left|]. by split.
Defined.

(** *** Reading a [srcset] *)

Lemma isDigit_plain (c : ascii) :
  isDigit c = true ->
  Js.isSpace c = false /\ Ascii.eqb c "," = false
  /\ Ascii.eqb c "-" = false /\ Ascii.eqb c "+" = false.
Proof.
  destruct c as [[] [] [] [] [] [] [] []]; try discriminate; by intros _.
Qed.

(** Reads the digit at the head of the goal's [parseDigits]. *)
Ltac read_digit :=
  str_cons; cbn [Js.parseDigits];
  match goal with
  | |- context [Js.digitValue ?c] =>
      let v := eval vm_compute in (Js.digitValue c) in
      change (Js.digitValue c) with v
  end;
  cbv beta iota.

Lemma parseDigits_acc (d : Decimal.uint) (p : positive) (rest : string) :
  Js.parseDigits (Some (Z.pos p)) (NilEmpty.string_of_uint d +:+ rest)
  = Js.parseDigits (Some (Z.pos (Pos.of_uint_acc d p))) rest.
Proof.
  revert p. induction d as [|d IH|d IH|d IH|d IH|d IH|d IH|d IH|d IH|d IH|d IH];
    intros p; cbn [NilEmpty.string_of_uint Pos.of_uint_acc]; [done|..];
    read_digit; rewrite <- IH; do 2 f_equal; cbn [default]; unfold id; lia.
Qed.

Lemma parseDigits_uint (d : Decimal.uint) (acc : option Z) (rest : string) :
  default 0 acc = 0 ->
  Js.parseDigits acc (NilEmpty.string_of_uint d +:+ rest)
  = Js.parseDigits (match d with
                    | Decimal.Nil => acc
                    | _ => Some (Z.of_N (Pos.of_uint d))
                    end) rest.
Proof.
  revert acc. induction d as [|d IH|d IH|d IH|d IH|d IH|d IH|d IH|d IH|d IH|d IH];
    intros acc Hacc; cbn [NilEmpty.string_of_uint Pos.of_uint]; [done|..];
    read_digit; rewrite Hacc; cbn [Z.mul Z.add].
  - rewrite IH by done. by destruct d.
  - apply (parseDigits_acc d 1).
  - apply (parseDigits_acc d 2).
  - apply (parseDigits_acc d 3).
  - apply (parseDigits_acc d 4).
  - apply (parseDigits_acc d 5).
  - apply (parseDigits_acc d 6).
  - apply (parseDigits_acc d 7).
  - apply (parseDigits_acc d 8).
  - apply (parseDigits_acc d 9).
Qed.

Lemma parseDigits_decimal (n : N) (rest : string) :
  Js.parseDigits None (Js.decimal n +:+ rest) = Js.parseDigits (Some (Z.of_N n)) rest.
Proof.
  unfold Js.decimal, NilZero.string_of_uint.
  pose proof (DecimalN.Unsigned.of_to n) as Hn. unfold N.of_uint in Hn.
  destruct (N.to_uint n) as [|d|d|d|d|d|d|d|d|d|d] eqn:Hd;
    try (rewrite parseDigits_uint by done; by rewrite Hn).
  cbn in Hn. subst n. by read_digit.
Qed.

Lemma digits_string_of_uint (d : Decimal.uint) :
  allChars isDigit (NilEmpty.string_of_uint d) = true.
Proof. induction d; cbn; done. Qed.

Lemma decimal_digits (n : N) :
  allChars isDigit (Js.decimal n) = true /\ Js.decimal n <> EmptyString.
Proof.
  unfold Js.decimal, NilZero.string_of_uint.
  destruct (N.to_uint n); cbv iota; (split; [|done]);
    first [done | apply digits_string_of_uint].
Qed.

Lemma app_assoc_s (a b c : string) : (a +:+ b) +:+ c = a +:+ (b +:+ c).
Proof. induction a as [|x a IH]; [done|]. str_cons. by rewrite IH. Qed.

Lemma allChars_app (P : ascii -> bool) (a b : string) :
  allChars P (a +:+ b) = allChars P a && allChars P b.
Proof.
  induction a as [|x a IH]; [done|]. str_cons. cbn. rewrite IH. by destruct (P x).
Qed.

Lemma allChars_impl (P Q : ascii -> bool) (s : string) :
  (forall c, P c = true -> Q c = true) -> allChars P s = true -> allChars Q s = true.
Proof.
  intros HPQ. induction s as [|x s IH]; [done|].
  cbn. intros [Hx Hs]%andb_prop. by rewrite (HPQ x Hx), IH.
Qed.

Lemma splitChar_single (sep : ascii) (a : string) :
  allChars (fun c => negb (Ascii.eqb c sep)) a = true -> Js.splitChar sep a = [a].
Proof.
  induction a as [|x a IH]; [done|].
  cbn. intros [Hx Ha]%andb_prop. apply negb_true_iff in Hx. by rewrite Hx, IH.
Qed.

Lemma splitChar_cons (sep : ascii) (a b : string) :
  allChars (fun c => negb (Ascii.eqb c sep)) a = true ->
  Js.splitChar sep (a +:+ String sep b) = a :: Js.splitChar sep b.
Proof.
  induction a as [|x a IH].
  - intros _. str_cons. cbn. by rewrite Ascii.eqb_refl.
  - cbn [allChars]. intros [Hx Ha]%andb_prop. apply negb_true_iff in Hx.
    str_cons. cbn [Js.splitChar]. by rewrite Hx, IH.
Qed.

Lemma trimStart_spaces (pre s : string) :
  allChars Js.isSpace pre = true -> Js.trimStart (pre +:+ s) = Js.trimStart s.
Proof.
  induction pre as [|x pre IH]; [done|].
  cbn [allChars]. intros [Hx Hpre]%andb_prop. str_cons. cbn [Js.trimStart].
  by rewrite Hx, IH.
Qed.

Lemma trimEnd_last (a : string) (c : ascii) :
  Js.isSpace c = false ->
  Js.trimEnd (a +:+ String c EmptyString) = a +:+ String c EmptyString.
Proof.
  intros Hc. induction a as [|x a IH].
  - str_cons. cbn. by rewrite Hc.
  - str_cons. cbn [Js.trimEnd]. rewrite IH. by destruct a.
Qed.

Lemma splitSpacesFrom_word (b : bool) (t : string) :
  allChars noSpace t = true -> Js.splitSpacesFrom b t = [t].
Proof.
  revert b. induction t as [|x t IH]; intros b; [done|].
  cbn. intros [Hx Ht]%andb_prop. apply negb_true_iff in Hx.
  by rewrite Hx, (IH false Ht).
Qed.

Lemma splitSpaces_two (a t : string) (sp : ascii) :
  allChars noSpace a = true -> Js.isSpace sp = true -> allChars noSpace t = true ->
  Js.splitSpaces (a +:+ String sp t) = [a; t].
Proof.
  intros Ha Hsp Ht. unfold Js.splitSpaces.
  induction a as [|x a IH].
  - str_cons. cbn. by rewrite Hsp, (splitSpacesFrom_word true t Ht).
  - cbn in Ha. apply andb_prop in Ha as [Hx Ha]. apply negb_true_iff in Hx.
    str_cons. cbn [Js.splitSpacesFrom]. by rewrite Hx, (IH Ha).
Qed.

Lemma urlChar_plain (c : ascii) : urlChar c = true -> noSpace c = true /\ noComma c = true.
Proof. unfold urlChar, noSpace, noComma. by intros [? ?]%andb_prop. Qed.

Lemma digit_noSpace (c : ascii) : isDigit c = true -> noSpace c = true.
Proof. intros Hc. unfold noSpace. by rewrite (proj1 (isDigit_plain c Hc)). Qed.

Lemma digit_noComma (c : ascii) : isDigit c = true -> noComma c = true.
Proof. intros Hc. unfold noComma. by rewrite (proj1 (proj2 (isDigit_plain c Hc))). Qed.

Lemma descriptor_noSpace (c : Candidate) : allChars noSpace (descriptor c) = true.
Proof.
  rewrite allChars_app.
  rewrite (allChars_impl isDigit noSpace (Js.decimal (c_width c)) digit_noSpace)
    by apply decimal_digits.
  done.
Qed.

Lemma candidateText_noComma (c : Candidate) :
  wfCandidate c -> allChars noComma (candidateText c) = true.
Proof.
  intros (_ & Hurl & _). unfold candidateText.
  rewrite !allChars_app.
  rewrite (allChars_impl urlChar noComma (c_url c)) by (done || apply urlChar_plain).
  rewrite (allChars_impl isDigit noComma (Js.decimal (c_width c)) digit_noComma)
    by apply decimal_digits.
  done.
Qed.

Lemma parseInt_descriptor (c : Candidate) :
  Js.parseIntOpt (Some (descriptor c)) = Some (widthOf c).
Proof.
  cbn [Js.parseIntOpt]. unfold Js.parseInt.
  destruct (decimal_digits (c_width c)) as [Hd Hne].
  pose proof (parseDigits_decimal (c_width c) "w") as Hp.
  destruct (Js.decimal (c_width c)) as [|d r]; [done|].
  cbn in Hd. apply andb_prop in Hd as [Hd _].
  destruct (isDigit_plain d Hd) as (Hsp & _ & Hminus & Hplus).
  str_cons. cbn [Js.trimStart]. rewrite Hsp, Hminus, Hplus.
  rewrite <- app_String. by rewrite Hp.
Qed.

Lemma candidate_text (pre : string) (c : Candidate) :
  allChars Js.isSpace pre = true -> wfCandidate c ->
  candidate (pre +:+ candidateText c) = (c_url c, Some (descriptor c)).
Proof.
  intros Hpre (Hne & Hurl & _). unfold candidate, Js.trim.
  rewrite (trimStart_spaces pre _ Hpre).
  assert (Hns : allChars noSpace (c_url c) = true).
  { apply (allChars_impl urlChar); [apply urlChar_plain | done]. }
  assert (Hstart : Js.trimStart (candidateText c) = candidateText c).
  { unfold candidateText. destruct (c_url c) as [|x u]; [done|].
    cbn in Hns. apply andb_prop in Hns as [Hx _]. apply negb_true_iff in Hx.
    str_cons. cbn [Js.trimStart]. by rewrite Hx. }
  rewrite Hstart.
  assert (Hend : Js.trimEnd (candidateText c) = candidateText c).
  { unfold candidateText. rewrite <- !app_assoc_s. by apply trimEnd_last. }
  rewrite Hend. unfold candidateText.
  change (" " +:+ descriptor c) with (String " " (descriptor c)).
  by rewrite (splitSpaces_two _ _ " " Hns eq_refl (descriptor_noSpace c)).
Qed.

Lemma pick_text (best : string * Z) (pre : string) (c : Candidate) :
  allChars Js.isSpace pre = true -> wfCandidate c ->
  pick best (pre +:+ candidateText c) = pickCandidate best c.
Proof.
  intros Hpre Hc. unfold pick, pickCandidate.
  by rewrite (candidate_text pre c Hpre Hc), parseInt_descriptor.
Qed.

Lemma splitChar_srcset (pre : string) (c : Candidate) (cs : list Candidate) :
  allChars noComma pre = true -> Forall wfCandidate (c :: cs) ->
  Js.splitChar "," (pre +:+ srcsetText (c :: cs))
  = (pre +:+ candidateText c) :: ((fun c' => " " +:+ candidateText c') <$> cs).
Proof.
  revert pre c. induction cs as [|c2 r IH]; intros pre c Hpre Hwf.
  - cbn. apply splitChar_single.
    change (allChars noComma (pre +:+ candidateText c) = true).
    rewrite allChars_app, Hpre.
    apply candidateText_noComma. by apply Forall_inv in Hwf.
  - apply Forall_cons_1 in Hwf as [Hc Hwf].
    change (srcsetText (c :: c2 :: r))
      with (candidateText c +:+ String "," (" " +:+ srcsetText (c2 :: r))).
    rewrite <- app_assoc_s, splitChar_cons.
    2:{ change (allChars noComma (pre +:+ candidateText c) = true).
        rewrite allChars_app, Hpre. by apply candidateText_noComma. }
    by rewrite (IH " " c2 eq_refl Hwf).
Qed.

Lemma foldl_pick_texts (best : string * Z) (cs : list Candidate) :
  Forall wfCandidate cs ->
  foldl pick best ((fun c' => " " +:+ candidateText c') <$> cs)
  = foldl pickCandidate best cs.
Proof.
  revert best. induction cs as [|c r IH]; intros best Hwf; [done|].
  apply Forall_cons_1 in Hwf as [Hc Hwf].
  cbn [fmap list_fmap foldl]. by rewrite (pick_text best " " c eq_refl Hc), IH.
Qed.

(** [foldl pickCandidate] stops on the first candidate of largest width,
    unless no candidate is wider than the starting pair. *)
Lemma foldl_pickCandidate (best : string * Z) (cs : list Candidate) :
  (foldl pickCandidate best cs = best
   /\ forall c, c ∈ cs -> widthOf c <= snd best)
  \/ (exists l1 c l2,
        cs = l1 ++ c :: l2
        /\ foldl pickCandidate best cs = (c_url c, widthOf c)
        /\ snd best < widthOf c
        /\ (forall c', c' ∈ l1 -> widthOf c' < widthOf c)
        /\ (forall c', c' ∈ l2 -> widthOf c' <= widthOf c)).
Proof.
  revert best. induction cs as [|c0 r IH]; intros best.
  - left. split; [done|]. by intros c ?%elem_of_nil.
  - cbn [foldl]. unfold pickCandidate at 2 4.
    destruct (Z.ltb_spec (snd best) (widthOf c0)) as [Hlt|Hge].
    + right. destruct (IH (c_url c0, widthOf c0)) as [[Hr Hall]|Hex].
      * exists [], c0, r. cbn in Hall. split; [done|]. split; [done|]. split; [done|].
        split; [by intros c ?%elem_of_nil | done].
      * destruct Hex as (l1 & c & l2 & -> & Hr & Hb & H1 & H2). cbn in Hb.
        exists (c0 :: l1), c, l2. split; [done|]. split; [done|]. split; [lia|].
        split; [|done]. intros c' [->|Hc']%elem_of_cons; [done | by apply H1].
    + destruct (IH best) as [[Hr Hall]|Hex].
      * left. split; [done|]. intros c [->|Hc]%elem_of_cons; [done | by apply Hall].
      * right. destruct Hex as (l1 & c & l2 & -> & Hr & Hb & H1 & H2).
        exists (c0 :: l1), c, l2. split; [done|]. split; [done|]. split; [done|].
        split; [|done]. intros c' [->|Hc']%elem_of_cons; [lia | by apply H1].
Qed.

(** The URL [largestSrc] returns for a [srcset] of well-formed
    candidates is that of the first candidate of largest width. *)
Lemma largestSrc_srcset (img : Img) (cs : list Candidate) :
  cs <> [] -> Forall wfCandidate cs -> srcset img = Some (srcsetText cs) ->
  exists l1 c l2,
    cs = l1 ++ c :: l2
    /\ largestSrc img = c_url c
    /\ (forall c', c' ∈ l1 -> (c_width c' < c_width c)%N)
    /\ (forall c', c' ∈ l2 -> (c_width c' <= c_width c)%N).
Proof.
  intros Hne Hwf Hss. destruct cs as [|c0 r]; [done|].
  pose proof (Forall_inv Hwf) as (Hurl & _ & Hw0 & _).
  assert (Htext : exists x t, srcsetText (c0 :: r) = String x t).
  { assert (Hc : exists x t, candidateText c0 = String x t).
    { unfold candidateText. destruct (c_url c0) as [|x u]; [done|]. by eexists _, _. }
    destruct Hc as (x & t & Hc). destruct r; cbn; rewrite Hc; by eexists _, _. }
  destruct Htext as (x & t & Htext).
  unfold largestSrc. rewrite Hss, Htext. cbn [Js.truthy Js.orElse]. rewrite <- Htext.
  change (srcsetText (c0 :: r)) with (EmptyString +:+ srcsetText (c0 :: r)).
  rewrite (splitChar_srcset EmptyString c0 r eq_refl Hwf).
  cbn [foldl]. rewrite (pick_text _ EmptyString c0 eq_refl (Forall_inv Hwf)).
  rewrite foldl_pick_texts by (by apply Forall_inv_tail in Hwf).
  change (foldl pickCandidate (pickCandidate (src img, 0) c0) r)
    with (foldl pickCandidate (src img, 0) (c0 :: r)).
  destruct (foldl_pickCandidate (src img, 0) (c0 :: r)) as [[_ Hall]|Hex].
  - specialize (Hall c0 (list_elem_of_here _ _)). unfold widthOf in Hall. cbn in Hall. lia.
  - destruct Hex as (l1 & c & l2 & Hcs & -> & _ & H1 & H2).
    exists l1, c, l2. split; [done|]. split; [done|].
    split; intros c' Hc'; [specialize (H1 c' Hc') | specialize (H2 c' Hc')];
      unfold widthOf in *; lia.
Qed.

Lemma indexOf_elem (img : Img) (ns : list Img) :
  img ∈ ns ->
  0 <= indexOf img ns < Z.of_nat (length ns)
  /\ ns !! Z.to_nat (indexOf img ns) = Some img.
Proof.
  induction ns as [|x r IH]; [by intros ?%elem_of_nil|].
  intros Hin. cbn [indexOf length]. case_bool_decide as Hx.
  - subst x. split; [lia | done].
  - apply elem_of_cons in Hin as [->|Hin]; [done|].
    destruct (IH Hin) as [Hr Hl].
    rewrite (proj2 (Z.ltb_ge _ _)) by lia.
    split; [lia|].
    replace (Z.to_nat (indexOf img r + 1)) with (S (Z.to_nat (indexOf img r))) by lia.
    done.
Qed.

(** A click on a thumbnail of the grid opens the overlay on it. *)
Lemma click_opens (st : State) (img : Img) :
  img ∈ grid st ->
  snd (handler (ClickThumb img) st) = Normal tt
  /\ shown (step st (ClickThumb img)) = true
  /\ nodes (step st (ClickThumb img)) !! Z.to_nat (idx (step st (ClickThumb img))) = Some img
  /\ imgSrc (step st (ClickThumb img)) = largestSrc img
  /\ imgAlt (step st (ClickThumb img)) = Js.orElse (altAttr img) EmptyString
  /\ caption (step st (ClickThumb img)) = captionFor img.
Proof.
  intros Hin.
  set (st1 := fst (collect st)).
  assert (Hn1 : nodes st1 = grid st) by done.
  destruct (indexOf_elem img (nodes st1)) as [Hr Hl]; [by rewrite Hn1|].
  set (i := indexOf img (nodes st1)) in *.
  assert (Hne : nodes st1 <> []) by (intros He; by rewrite He in Hl).
  destruct (open_cases st1 i (proj1 Hr)) as (st' & Hopen & Hsame & Hshown & _ & Hf).
  destruct (Hf Hne) as (Hidx & _ & img' & Himg' & Hsrc & Halt & Hcap).
  assert (Hh : handler (ClickThumb img) st = (st', Normal tt)).
  { cbn [handler]. unfold mbind, Eff_bind, gets.
    change (collect st) with (st1, Normal tt). cbv beta iota. fold i.
    by rewrite (proj2 (Z.leb_le _ _) (proj1 Hr)). }
  unfold step, listener. rewrite Hh. cbn [fst snd].
  assert (Hi : idx st' = i).
  { rewrite Hidx. unfold count.
    rewrite wrap_mod by lia. apply Z.mod_small. lia. }
  rewrite (proj1 (proj2 Hsame)), Hi in Himg'.
  assert (img' = img) by congruence. subst img'.
  rewrite (proj1 (proj2 Hsame)), Hi.
  by repeat split.
Qed.

(** C7, as amended.  A click on a thumbnail of the grid opens the overlay
    with the source [largestSrc] and the caption [captionFor] of that
    thumbnail.  When the thumbnail carries a [srcset] of candidates
    [url Nw] (non-empty URLs without white space or comma, positive
    widths below 2^53, joined by comma and space), the source is the URL
    of the first candidate of largest width.  When it carries none (or
    an empty one) the source is its [currentSrc], and its own [src] only
    while [currentSrc] is empty.  The caption is the trimmed text of the
    card's [strong] element, followed when the first muted element has
    text by a middle dot and that text; when there is no such title text
    it is the thumbnail's [alt] attribute, or empty. *)
Theorem overlay_source_and_caption (st : State) (img : Img) :
  img ∈ grid st ->
  (shown (step st (ClickThumb img)) = true
   /\ imgSrc (step st (ClickThumb img)) = largestSrc img
   /\ caption (step st (ClickThumb img)) = captionFor img)
  /\ (forall cs : list Candidate,
        cs <> [] -> Forall wfCandidate cs -> srcset img = Some (srcsetText cs) ->
        exists l1 c l2,
          cs = l1 ++ c :: l2
          /\ largestSrc img = c_url c
          /\ (forall c', c' ∈ l1 -> (c_width c' < c_width c)%N)
          /\ (forall c', c' ∈ l2 -> (c_width c' <= c_width c)%N))
  /\ (Js.truthy (srcset img) = false ->
      (currentSrc img <> EmptyString -> largestSrc img = currentSrc img)
      /\ (currentSrc img = EmptyString -> largestSrc img = src img))
  /\ (forall t : string,
        strongText img = Some t -> Js.trim t <> EmptyString ->
        captionFor img
        = match Js.trim <$> mutedText img with
          | Some (String x m) => Js.trim t +:+ " · " +:+ String x m
          | _ => Js.trim t
          end)
  /\ (strongText img = None
      \/ (exists t, strongText img = Some t /\ Js.trim t = EmptyString) ->
      captionFor img = Js.orElse (altAttr img) EmptyString).
Proof.
  intros Hin.
  destruct (click_opens st img Hin) as (_ & Hshown & _ & Hsrc & _ & Hcap).
  split; [done|]. split; [intros cs; apply largestSrc_srcset|]. split; [|split].
  - intros Hss. unfold largestSrc. rewrite Hss.
    split; [|by intros ->]. by destruct (currentSrc img).
  - intros t Ht Hne. unfold captionFor. rewrite Ht. cbn [fmap option_fmap option_map].
    destruct (Js.trim t) as [|y s'] eqn:Htrim; [done|]. cbn [Js.truthy Js.orElse].
    by destruct (Js.trim <$> mutedText img) as [[|x m]|].
  - intros [Hnone|(t & Ht & Htrim)]; unfold captionFor.
    + by rewrite Hnone.
    + rewrite Ht. cbn [fmap option_fmap option_map]. by rewrite Htrim.
Qed.

Lemma overlay_source_and_caption_witness :
  imgSrc (step (initial sampleGrid) (ClickThumb (sampleImg 2 "c"))) = "c-1600.jpg"
  /\ caption (step (initial sampleGrid) (ClickThumb (sampleImg 2 "c"))) = "c".
Proof.
  destruct (overlay_source_and_caption (initial sampleGrid) (sampleImg 2 "c"))
    as ((_ & Hsrc & Hcap) & Hss & _ & Hstrong & _).
  - cbn. do 2 apply list_elem_of_further. apply list_elem_of_here.
  - split.
    + rewrite Hsrc.
      destruct (Hss [mkCandidate "c-800.jpg" 800; mkCandidate "c-1600.jpg" 1600])
        as (l1 & c & l2 & Hcs & Hl & H1 & H2).
      * discriminate.
      * repeat constructor; try discriminate; reflexivity.
      * reflexivity.
      * reflexivity.
    + rewrite Hcap. rewrite (Hstrong "c" eq_refl); [reflexivity | discriminate].
Defined.

(** C7 as the claim states it, for every thumbnail.  A [srcset] of two
    candidates whose URLs hold a comma is cut at every comma, so the
    overlay's source is the tail of the second URL, which is the URL of
    no candidate; and a thumbnail without [srcset] whose [currentSrc]
    is another file than its [src] (the choice of a [picture] element)
    opens with [currentSrc], not with its own [src]. *)
Lemma overlay_source_not_candidate :
  let withComma :=
    mkImg 0 (Some "img/w_800,c_fill/a.jpg 800w, img/w_1600,c_fill/a.jpg 1600w")
          "img/w_800,c_fill/a.jpg" "img/w_800,c_fill/a.jpg" None None None in
  let chosen := mkImg 0 None "a.webp" "a.jpg" None None None in
  imgSrc (step (initial [withComma]) (ClickThumb withComma)) = "c_fill/a.jpg"
  /\ "c_fill/a.jpg" <> "img/w_1600,c_fill/a.jpg"
  /\ "c_fill/a.jpg" <> "img/w_800,c_fill/a.jpg"
  /\ imgSrc (step (initial [chosen]) (ClickThumb chosen)) = "a.webp"
  /\ imgSrc (step (initial [chosen]) (ClickThumb chosen)) <> src chosen.
Proof.
  cbn zeta. split; [by vm_compute|]. split; [discriminate|]. split; [discriminate|].
  split; [by vm_compute|]. by vm_compute.
Qed.

End LightboxFacts.

(** ** gallery.js: further properties *)

Module GalleryMore.
Import Gallery Props LightboxProps MoreProps Samples GalleryFacts.

(** *** The query string *)

Lemma lowerChar_idem (c : ascii) : Js.lowerChar (Js.lowerChar c) = Js.lowerChar c.
Proof. destruct c as [[] [] [] [] [] [] [] []]; reflexivity. Qed.

Lemma toLowerCase_idem (s : string) : Js.toLowerCase (Js.toLowerCase s) = Js.toLowerCase s.
Proof.
  induction s as [|c r IH]; [done|]. cbn. by rewrite lowerChar_idem, IH.
Qed.

Lemma toLowerCase_empty (s : string) : Js.toLowerCase s = EmptyString -> s = EmptyString.
Proof. by destruct s. Qed.

Lemma init_env (cmp : string -> string -> comparison) (e1 e2 : Env) (pg : Page) :
  getGalleryKey e1 = getGalleryKey e2 -> response e1 = response e2 ->
  init cmp e1 pg = init cmp e2 pg.
Proof.
  intros Hk Hr. unfold init, fetchData. by rewrite Hk, Hr.
Qed.

(** The category is read from the query without regard to case: the key
    is always lower-case, two values of [g] that differ only in case load
    the same page, and an empty [g] loads what a missing one does. *)
Theorem query_ignores_case
    (cmp : string -> string -> comparison) (r : Response) (pg : Page) :
  (forall env, Js.toLowerCase (getGalleryKey env) = getGalleryKey env)
  /\ (forall g g' : string,
        Js.toLowerCase g = Js.toLowerCase g' ->
        init cmp (mkEnv (Some g) r) pg = init cmp (mkEnv (Some g') r) pg)
  /\ init cmp (mkEnv (Some EmptyString) r) pg = init cmp (mkEnv None r) pg.
Proof.
  split; [intros env; apply toLowerCase_idem|]. split; [|done].
  intros g g' Hg. apply init_env; [|done].
  unfold getGalleryKey. cbn [search_g].
  destruct g as [|c s], g' as [|c' s']; try done.
Qed.

Lemma query_ignores_case_witness :
  init caseFoldCompare (mkEnv (Some "WildLife") (mkResponse true 200 sampleManifest)) samplePage
  = init caseFoldCompare (mkEnv (Some "wildlife") (mkResponse true 200 sampleManifest)) samplePage.
Proof.
  apply (proj1 (proj2 (query_ignores_case caseFoldCompare
                         (mkResponse true 200 sampleManifest) samplePage))).
  reflexivity.
Defined.

(** *** Pages that lack an element *)

Lemma run_idle (batches : list (list bool)) (st : Loader) :
  observing st = false -> run batches st = st.
Proof.
  intros Ho. unfold run. induction batches as [|b r IH]; [done|].
  cbn [foldl]. unfold deliver at 2. by rewrite Ho.
Qed.

(** Without the container [init] returns at once: the page is untouched
    and no request outcome matters.  With the container but without the
    sentinel no observer is set up: when every filtered record has a
    card, the first batch, at most twenty cards of the filtered and
    sorted list, is all the page ever gets. *)
Theorem init_missing_elements
    (cmp : string -> string -> comparison) (env : Env) (pg : Page) :
  (container pg = None -> init cmp env pg = (pg, Normal None))
  /\ (forall cs0 : list Card,
        ok (response env) = true -> container pg = Some cs0 -> sentinel pg = false ->
        Forall renders (filterData (getGalleryKey env) (body (response env))) ->
        exists st0 : Loader,
          init cmp env pg = (page st0, Normal (Some st0))
          /\ container (page st0)
             = Some (cs0 ++ cardsOf
                   (take 20 (sortData cmp (filterData (getGalleryKey env)
                                                     (body (response env))))))
          /\ (length (cardsOf
                (take 20 (sortData cmp (filterData (getGalleryKey env)
                                                   (body (response env))))))
              = Nat.min 20 (length (filterData (getGalleryKey env)
                                               (body (response env)))))
          /\ forall batches, run batches st0 = st0).
Proof.
  split.
  - intros Hc. unfold init, mbind, Eff_bind, gets. by rewrite Hc.
  - intros cs0 Hok Hc Hs Hrenders.
    destruct (init_success cmp env pg cs0 Hok Hc Hrenders)
      as (st0 & Hinit & Hdata & Hidx & Hobs & _ & Hr).
    exists st0. split; [done|]. split; [|split].
    + unfold renderedUpTo in Hr. rewrite Hr, Hidx, Hdata. do 3 f_equal.
      set (d := sortData cmp _). unfold BATCH_SIZE.
      destruct (Z.min_spec 20 (Z.of_nat (length d))) as [[Hlt ->]|[Hge ->]]; [done|].
      rewrite Nat2Z.id. rewrite !take_ge; [done | lia | lia].
    + rewrite cardsOf_length.
      * rewrite length_take. unfold sortData. by rewrite sortBy_Permutation.
      * apply Forall_take. unfold sortData. by rewrite sortBy_Permutation.
    + intros batches. apply run_idle. by rewrite Hobs.
Qed.

Lemma init_missing_elements_witness :
  init caseFoldCompare (mkEnv None (mkResponse false 500 []))
       (mkPage None true None None [] [])
  = (mkPage None true None None [] [], Normal None)
  /\ exists st0 : Loader,
       init caseFoldCompare (mkEnv None (mkResponse true 200 MoreSamples.sampleRoll))
            (mkPage (Some []) false None None [] [])
       = (page st0, Normal (Some st0))
       /\ (length <$> container (page st0)) = Some 20%nat
       /\ run [[true]; [true; true]] st0 = st0.
Proof.
  split.
  - by apply (proj1 (init_missing_elements caseFoldCompare
                       (mkEnv None (mkResponse false 500 []))
                       (mkPage None true None None [] []))).
  - destruct (proj2 (init_missing_elements caseFoldCompare
                       (mkEnv None (mkResponse true 200 MoreSamples.sampleRoll))
                       (mkPage (Some []) false None None [] [])) [])
      as (st0 & Hinit & Hc & Hlen & Hrun); [reflexivity | reflexivity | reflexivity | |].
    { apply Forall_fmap, Forall_forall. intros k _. apply sampleShot_renders. }
    exists st0. split; [exact Hinit|]. split; [|apply Hrun].
    rewrite Hc. cbn [fmap option_fmap option_map app]. by rewrite Hlen.
Defined.

(** *** Filtering and sorting *)

Section Commute.
Context {A : Type} (cmp : A -> A -> comparison).
Context (P : A -> Prop) `{!forall a, Decision (P a)}.

Local Abbreviation notAfter := (notAfter cmp).

Hypothesis cmp_trans : forall a b c, notAfter a b -> notAfter b c -> notAfter a c.

Lemma insertBy_first (x : A) (l : list A) :
  (forall z, z ∈ l -> notAfter x z) -> Js.insertBy cmp x l = x :: l.
Proof.
  destruct l as [|y r]; [done|]. intros Hx. cbn.
  specialize (Hx y (list_elem_of_here _ _)). unfold Props.notAfter in Hx.
  by destruct (cmp x y).
Qed.

Lemma insertBy_filter_commute (x : A) (l : list A) :
  StronglySorted notAfter l ->
  filter P (Js.insertBy cmp x l)
  = if decide (P x) then Js.insertBy cmp x (filter P l) else filter P l.
Proof.
  induction l as [|y r IH]; intros Hl.
  - cbn [Js.insertBy]. rewrite filter_cons, filter_nil. by case_decide.
  - apply StronglySorted_inv in Hl as [Hr Hy]. rewrite Forall_forall in Hy.
    cbn [Js.insertBy]. destruct (cmp x y) eqn:Hxy.
    1,2: rewrite (filter_cons _ x); destruct (decide (P x)) as [Hx|Hx]; [|done];
         rewrite insertBy_first; [done|];
         intros z [_ Hz]%list_elem_of_filter;
         apply elem_of_cons in Hz as [->|Hz];
         [unfold Props.notAfter; congruence |];
         apply (cmp_trans x y z); [unfold Props.notAfter; congruence | by apply Hy].
    rewrite !(filter_cons _ y), (IH Hr).
    destruct (decide (P y)) as [Hy'|Hy']; destruct (decide (P x)) as [Hx|Hx]; try done.
    cbn [Js.insertBy]. by rewrite Hxy.
Qed.

Hypothesis cmp_flip : forall a b, cmp a b = Gt -> notAfter b a.

Lemma sortBy_filter_commute (l : list A) :
  filter P (Js.sortBy cmp l) = Js.sortBy cmp (filter P l).
Proof.
  induction l as [|x r IH]; [done|].
  cbn [Js.sortBy foldr]. fold (Js.sortBy cmp r).
  rewrite insertBy_filter_commute by (by apply sortBy_sorted).
  rewrite filter_cons, IH. by destruct (decide (P x)).
Qed.
End Commute.

(** Filtering a category out of the sorted manifest gives the same list
    as sorting the filtered manifest, which is what [init] does: the
    cards of a category are those of the whole gallery, in the same
    relative order, whatever the collation of the host. *)
Theorem filter_sort_commute
    (cmp : string -> string -> comparison) (k : string) (m : list Photo) :
  Collation cmp ->
  filterData k (sortData cmp m) = sortData cmp (filterData k m).
Proof.
  intros Hcmp.
  destruct (decide (k = "all")) as [->|Hk]; [done|].
  rewrite !filterData_other by done.
  apply sortBy_filter_commute;
    [apply (newestFirst_trans cmp Hcmp) | apply (newestFirst_flip cmp Hcmp)].
Qed.

Lemma filter_sort_commute_witness :
  filterData "wildlife" (sortData caseFoldCompare sampleManifest) = [sampleC; sampleA].
Proof.
  rewrite (filter_sort_commute caseFoldCompare "wildlife" sampleManifest
             caseFoldCompare_Collation).
  reflexivity.
Defined.

(** *** Escaping *)

Lemma unescape_escape (s : string) : unescapeHTML (escapeHTML s) = s.
Proof.
  unfold unescapeHTML. induction s as [|c r IH]; [done|].
  cbn [escapeHTML]. unfold escapeChar.
  destruct (Ascii.eqb_spec c "&") as [->|H1]; [str_cons; cbn; by rewrite IH|].
  destruct (Ascii.eqb_spec c "<") as [->|H2]; [str_cons; cbn; by rewrite IH|].
  destruct (Ascii.eqb_spec c ">") as [->|H3]; [str_cons; cbn; by rewrite IH|].
  destruct (Ascii.eqb_spec c "034") as [->|H4]; [str_cons; cbn; by rewrite IH|].
  destruct (Ascii.eqb_spec c "'") as [->|H5]; [str_cons; cbn; by rewrite IH|].
  str_cons. cbn [unescapeFrom].
  rewrite (proj2 (Ascii.eqb_neq c "&") H1). by rewrite IH.
Qed.

(** Escaping loses nothing and touches nothing else: reading the
    entities back returns the text, so distinct texts give distinct
    markup, and a text without any of the five characters is its own
    escaped form. *)
Theorem escapeHTML_faithful :
  (forall s, unescapeHTML (escapeHTML s) = s)
  /\ (forall s1 s2, escapeHTML s1 = escapeHTML s2 -> s1 = s2)
  /\ (forall s, allChars (fun c => negb (special c)) s = true -> escapeHTML s = s).
Proof.
  split; [exact unescape_escape|]. split.
  - intros s1 s2 H. by rewrite <- (unescape_escape s1), H, unescape_escape.
  - induction s as [|c r IH]; [done|].
    cbn [allChars escapeHTML]. intros [Hc Hr]%andb_prop.
    apply negb_true_iff in Hc. unfold special in Hc.
    repeat (apply orb_false_elim in Hc as [Hc ?]).
    unfold escapeChar. rewrite IH by done. by repeat case_match.
Qed.

Lemma escapeHTML_faithful_witness :
  unescapeHTML "a &amp; b" = "a & b"
  /\ escapeHTML "2024-03-01 10:00" = "2024-03-01 10:00".
Proof.
  destruct escapeHTML_faithful as (Hround & _ & Hclean).
  split; [exact (Hround "a & b") | by apply Hclean].
Defined.

(** *** The alternative text *)

(** Every card's thumbnail gets a non-empty alternative text: the trimmed
    title when the title has text, otherwise the slug, otherwise the word
    Photo. *)
Theorem altText_never_empty (p : Photo) :
  (forall c, createCard p = Normal c -> card_alt c = altText p)
  /\ altText p <> EmptyString
  /\ (forall t, title p = Some t -> Js.trim t <> EmptyString ->
       altText p = Js.trim t)
  /\ (title p = None \/ (exists t, title p = Some t /\ Js.trim t = EmptyString) ->
      altText p = Js.orElse (slug p) "Photo").
Proof.
  split; [apply createCard_alt|]. unfold altText.
  assert (Hd : Js.orElse (slug p) "Photo" <> EmptyString)
    by (by destruct (slug p) as [[|c r]|]).
  split; [|split].
  - destruct (title p) as [[|c r]|]; cbn [Js.truthy Js.orElse]; try done.
    by destruct (Js.trim (String c r)).
  - intros t -> Ht. destruct t as [|c r]; [done|].
    cbn [Js.truthy Js.orElse]. by destruct (Js.trim (String c r)).
  - intros [->|(t & -> & Ht)]; [done|].
    destruct t as [|c r]; [done|]. cbn [Js.truthy Js.orElse]. by rewrite Ht.
Qed.

Lemma altText_never_empty_witness :
  altText (mkPhoto (Some "heron") (Some "  Grey heron ") None None None
                   None None None None) = "Grey heron"
  /\ altText (mkPhoto (Some "heron") (Some "   ") None None None
                      None None None None) = "heron".
Proof.
  split.
  - apply (proj1 (proj2 (proj2 (altText_never_empty _))) "  Grey heron ");
      [reflexivity | discriminate].
  - refine (eq_trans (proj2 (proj2 (proj2 (altText_never_empty _))) _) _); [|reflexivity].
    right. exists "   ". split; reflexivity.
Defined.

(** *** Unknown categories *)

(** A link to a category the site does not have, and that no photo is
    tagged with, still loads: the heading and description are the general
    ones, the grid gets no card, and the first time the sentinel comes
    into view it is taken away. *)
Theorem unknown_category
    (cmp : string -> string -> comparison) (env : Env) (pg : Page)
    (cs0 : list Card) (t d : string) :
  getGalleryKey env ∉ recognised -> getGalleryKey env ∉ objectPrototype ->
  ok (response env) = true ->
  container pg = Some cs0 -> galleryTitle pg = Some t -> galleryDesc pg = Some d ->
  (forall p, p ∈ body (response env) -> tagOf p <> getGalleryKey env) ->
  exists st0 : Loader,
    init cmp env pg = (page st0, Normal (Some st0))
    /\ galleryTitle (page st0) = Some "Gallery"
    /\ galleryDesc (page st0) = Some "Curated works."
    /\ container (page st0) = Some cs0
    /\ data st0 = []
    /\ sentinel (page (afterEntry st0 true)) = false
    /\ container (page (afterEntry st0 true)) = Some cs0.
Proof.
  intros Hk Hp Hok Hc Ht Hd Htag.
  set (k := getGalleryKey env) in *.
  assert (Hall : k <> "all").
  { intros E. apply Hk. rewrite E. unfold recognised. set_solver. }
  pose proof (filterData_unknown k _ Hall Htag) as Hf.
  destruct (setHeading_fallback k pg t d Hk Hp Ht Hd) as [Ht' Hd'].
  destruct (setHeading_frame k pg) as (Hn & Hc' & _).
  set (pg1 := log ("[gallery] key=" +:+ dq +:+ k +:+ dq +:+ " → "
                   +:+ Js.decimal 0 +:+ " items") (fst (setHeading k pg))).
  set (pg2 := appendCards [] pg1).
  assert (Hinit : init cmp env pg
                  = (pg2, Normal (Some (mkLoader pg2 [] 0 (sentinel pg))))).
  { unfold init, mbind, Eff_bind, gets. rewrite Hc. fold k.
    rewrite (surjective_pairing (setHeading k pg)), Hn.
    unfold fetchData. rewrite Hok. cbn [negb]. unfold mret, Eff_ret, modify.
    rewrite Hf. unfold firstBatch. by destruct (sentinel pg). }
  assert (Hc2 : container pg2 = Some cs0).
  { unfold pg2, pg1. cbn. rewrite Hc. cbn. by rewrite app_nil_r. }
  exists (mkLoader pg2 [] 0 (sentinel pg)). cbn [page data].
  split; [done|]. split; [done|]. split; [done|]. split; [done|]. split; [done|].
  done.
Qed.

Lemma unknown_category_witness :
  exists st0 : Loader,
    init caseFoldCompare (mkEnv (Some "Birds") (mkResponse true 200 sampleManifest))
         samplePage
    = (page st0, Normal (Some st0))
    /\ galleryTitle (page st0) = Some "Gallery"
    /\ container (page st0) = container samplePage.
Proof.
  destruct (unknown_category caseFoldCompare
              (mkEnv (Some "Birds") (mkResponse true 200 sampleManifest))
              samplePage [] "Loading" "Loading")
    as (st0 & Hinit & Ht & _ & Hc & _).
  - apply (bool_decide_unpack _). by vm_compute.
  - apply (bool_decide_unpack _). by vm_compute.
  - reflexivity.
  - reflexivity.
  - reflexivity.
  - reflexivity.
  - apply Forall_forall. cbn [body response]. unfold sampleManifest.
    repeat (apply Forall_cons; split; [discriminate|]). apply Forall_nil_2.
  - by exists st0.
Defined.

(** *** A record without a card *)

Lemma renderLoop_throw (n : nat) (data : list Photo) (e i j : Z) (frag : list Card)
    (p : Photo) (msg : string) :
  0 <= i <= j -> j < e -> n = Z.to_nat (e - i) ->
  data !! Z.to_nat j = Some p -> createCard p = Throw msg ->
  Forall renders (take (Z.to_nat (j - i)) (drop (Z.to_nat i) data)) ->
  renderLoop n data e i frag = (j, Throw msg).
Proof.
  revert i frag. induction n as [|n IH]; intros i frag Hi Hj Hn Hp Hthrow Hbefore; [lia|].
  cbn [renderLoop]. rewrite (proj2 (Z.ltb_lt i e)) by lia.
  destruct (decide (i = j)) as [->|Hne]; [by rewrite Hp, Hthrow|].
  destruct (lookup_lt_is_Some_2 data (Z.to_nat i)) as [q Hq].
  { apply lookup_lt_Some in Hp. lia. }
  rewrite Hq.
  replace (Z.to_nat (j - i)) with (S (Z.to_nat (j - (i + 1)))) in Hbefore by lia.
  rewrite (drop_S _ _ _ Hq) in Hbefore. cbn [take] in Hbefore.
  apply Forall_cons in Hbefore as [[_ [c Hc]] Hrest]. rewrite Hc.
  apply IH; try done; try lia.
  by replace (Z.to_nat (i + 1)) with (S (Z.to_nat i)) by lia.
Qed.

(** A record [createCard] throws on stalls the gallery for good.  When
    it is among the next twenty, behind records that have cards,
    [appendBatch] throws; none of the cards built before it reaches the
    container, and the index stops on it.  From then on every
    intersecting entry throws again on that same record and changes
    nothing: however often the sentinel comes into view, no further card
    is added and the sentinel stays. *)
Theorem bad_record_stalls (st : Loader) (j : Z) (p : Photo) (msg : string) :
  0 <= idx st <= j -> j < idx st + BATCH_SIZE ->
  data st !! Z.to_nat j = Some p -> exactKeys (variants p) -> createCard p = Throw msg ->
  Forall renders (take (Z.to_nat (j - idx st)) (drop (Z.to_nat (idx st)) (data st))) ->
  observing st = true ->
  let stuck := mkLoader (page st) (data st) j true in
  appendBatch st = (stuck, Throw msg)
  /\ onEntry true st = (stuck, Throw msg)
  /\ onEntry true stuck = (stuck, Throw msg)
  /\ forall batches : list (list bool), run batches stuck = stuck.
Proof.
  intros Hi Hj Hp _ Hthrow Hbefore Hobs stuck.
  assert (Hlen : j < Z.of_nat (length (data st))).
  { apply lookup_lt_Some in Hp. lia. }
  assert (Hbatch : forall st' : Loader,
             data st' = data st -> 0 <= idx st' <= j -> j < idx st' + BATCH_SIZE ->
             Forall renders (take (Z.to_nat (j - idx st'))
                                  (drop (Z.to_nat (idx st')) (data st'))) ->
             appendBatch st'
             = (mkLoader (page st') (data st') j (observing st'), Throw msg)).
  { intros st' Hd Hi' Hj' Hb'. unfold appendBatch.
    rewrite (renderLoop_throw _ (data st') _ (idx st') j [] p msg); try done.
    - rewrite Hd. lia.
    - by rewrite Hd. }
  assert (Hentry : forall st' : Loader,
             data st' = data st -> 0 <= idx st' <= j -> j < idx st' + BATCH_SIZE ->
             Forall renders (take (Z.to_nat (j - idx st'))
                                  (drop (Z.to_nat (idx st')) (data st'))) ->
             onEntry true st'
             = (mkLoader (page st') (data st') j (observing st'), Throw msg)).
  { intros st' Hd Hi' Hj' Hb'.
    unfold onEntry, mbind, Eff_bind, gets, id.
    rewrite (proj2 (Z.ltb_lt (idx st') _)) by (rewrite Hd; lia).
    by rewrite (Hbatch st' Hd Hi' Hj' Hb'). }
  assert (Hstuck : onEntry true stuck = (stuck, Throw msg)).
  { rewrite (Hentry stuck); [done | done | cbn; lia | cbn; unfold BATCH_SIZE; lia |].
    cbn [idx]. rewrite Z.sub_diag. cbn [Z.to_nat take]. constructor. }
  split; [|split; [|split]].
  - rewrite (Hbatch st); try done. by rewrite Hobs.
  - rewrite (Hentry st); try done. by rewrite Hobs.
  - exact Hstuck.
  - assert (Hcb : forall es, listener (callback es) stuck = stuck).
    { induction es as [|[] r IH]; [done| |].
      - unfold listener. cbn [callback]. unfold mbind, Eff_bind. by rewrite Hstuck.
      - unfold listener in *. cbn [callback]. unfold mbind, Eff_bind. cbn. exact IH. }
    unfold run. induction batches as [|b r IH]; [done|].
    cbn [foldl]. unfold deliver at 2. cbn [observing stuck]. by rewrite Hcb.
Qed.

Lemma bad_record_stalls_witness :
  let st := mkLoader samplePage [sampleC; MoreSamples.samplePaddedPhoto; sampleA] 0 true in
  let stuck := mkLoader samplePage [sampleC; MoreSamples.samplePaddedPhoto; sampleA] 1 true in
  onEntry true st
  = (stuck, Throw "TypeError: Cannot read properties of undefined (reading 'src')")
  /\ run [[true]; [false; true]; [true]] stuck = stuck.
Proof.
  cbn zeta.
  destruct (bad_record_stalls
              (mkLoader samplePage [sampleC; MoreSamples.samplePaddedPhoto; sampleA] 0 true)
              1 MoreSamples.samplePaddedPhoto
              "TypeError: Cannot read properties of undefined (reading 'src')")
    as (_ & Hentry & _ & Hrun).
  - cbn. lia.
  - cbn. unfold BATCH_SIZE. lia.
  - reflexivity.
  - unfold exactKeys. cbn. apply Forall_cons. split; [|apply Forall_nil_2].
    cbn. intros z [= <-]. by vm_compute.
  - by vm_compute.
  - cbn. apply Forall_cons. split; [|apply Forall_nil_2].
    split; [|by eexists].
    unfold exactKeys. cbn. apply Forall_cons. split; [|apply Forall_nil_2].
    cbn. intros z [= <-]. by vm_compute.
  - reflexivity.
  - split; [exact Hentry | apply Hrun].
Defined.

(** *** What the metadata block shows *)

Lemma joinFrags_elem (f : Frag) (sep : string) (b : list Frag) (bits : list (list Frag)) :
  b ∈ bits -> f ∈ b -> f ∈ joinFrags sep bits.
Proof.
  induction bits as [|b0 r IH]; [by intros ?%elem_of_nil|].
  intros Hb Hf. cbn [joinFrags]. destruct r as [|b1 r'].
  - apply list_elem_of_singleton in Hb. by subst.
  - apply elem_of_app. apply elem_of_cons in Hb as [->|Hb]; [by left|].
    right. apply list_elem_of_further. by apply IH.
Qed.

Lemma bits_elem (f : Frag) (b : list Frag) (sep : string) (bits : list (list Frag)) :
  b ∈ bits -> f ∈ b ->
  f ∈ match bits with [] => [] | _ => Markup sep :: joinFrags sep bits end.
Proof.
  intros Hb Hf. destruct bits as [|b0 r]; [by apply elem_of_nil in Hb|].
  apply list_elem_of_further. by eapply joinFrags_elem.
Qed.

Lemma bit_elem (tag : string) (field : option string) (v : string) :
  field = Some v -> v <> EmptyString ->
  exists b, b ∈ bit tag field /\ Interp (escapeHTML v) ∈ b.
Proof.
  intros -> Hv. destruct v as [|c r]; [done|].
  eexists. split; [apply list_elem_of_here|].
  apply list_elem_of_further, list_elem_of_here.
Qed.

(** Nothing a photo has is left out of its card: the title, or else the
    slug, or else the word Untitled, is interpolated, and so is every
    non-empty date, camera, lens and exif text and every description with
    text in it, each in escaped form. *)
Theorem metaHTML_complete (p : Photo) :
  (forall c, createCard p = Normal c -> card_meta c = metaHTML p)
  /\ Interp (escapeHTML (Js.orElse (title p) (Js.orElse (slug p) "Untitled")))
    ∈ metaHTML p
  /\ (forall (field : option string) (v : string),
        field ∈ [datetime p; camera p; lens p; exif p] ->
        field = Some v -> v <> EmptyString ->
        Interp (escapeHTML v) ∈ metaHTML p)
  /\ (forall v : string,
        description p = Some v -> Js.trim v <> EmptyString ->
        Interp (escapeHTML v) ∈ metaHTML p).
Proof.
  split; [apply createCard_text|]. unfold metaHTML.
  split; [|split].
  - apply elem_of_app. left. apply list_elem_of_further, list_elem_of_here.
  - intros field v Hin Hf Hv.
    rewrite !elem_of_cons, elem_of_nil in Hin.
    destruct Hin as [->|[->|[->|[->|[]]]]].
    1: destruct (bit_elem "time" _ v Hf Hv) as (b & Hb & Hfb).
    2: destruct (bit_elem "span" _ v Hf Hv) as (b & Hb & Hfb).
    3: destruct (bit_elem "span" _ v Hf Hv) as (b & Hb & Hfb).
    1,2,3:
      apply elem_of_app; right; apply elem_of_app; left;
      apply (bits_elem _ b); [rewrite !elem_of_app; auto | done].
    do 3 (apply elem_of_app; right). apply elem_of_app; left.
    rewrite Hf. destruct v as [|c r]; [done|]. cbn [Js.truthy Js.orElse].
    apply list_elem_of_further, list_elem_of_here.
  - intros v Hd Hv.
    do 5 (apply elem_of_app; right). apply elem_of_app; left.
    rewrite Hd. destruct v as [|c r]; [done|]. cbn [Js.orElse].
    destruct (Js.trim (String c r)) as [|x t] eqn:Ht; [done|]. cbn [Js.truthy].
    apply list_elem_of_further, list_elem_of_here.
Qed.

Lemma metaHTML_complete_witness :
  Interp "2024-03-01" ∈ metaHTML samplePhoto
  /\ Interp "D850" ∈ metaHTML samplePhoto.
Proof.
  destruct (metaHTML_complete samplePhoto) as (_ & _ & H & _). split.
  - apply (H (datetime samplePhoto) "2024-03-01");
      [apply list_elem_of_here | reflexivity | discriminate].
  - apply (H (camera samplePhoto) "D850");
      [apply list_elem_of_further, list_elem_of_here | reflexivity | discriminate].
Defined.

End GalleryMore.

(** ** The lightbox: further properties *)

Module LightboxMore.
Import Lightbox LightboxProps MoreProps Samples LightboxFacts.

(** *** Forward and back *)

Lemma mod_is (a n q r : Z) : 0 <= r < n -> a = n * q + r -> a mod n = r.
Proof. intros Hr Ha. symmetry. apply (Z.mod_unique a n q r); [by left | done]. Qed.

Lemma mod_succ_pred (i n : Z) :
  0 <= i < n -> ((i + 1) mod n - 1) mod n = i /\ ((i - 1) mod n + 1) mod n = i.
Proof.
  intros Hi. split.
  - destruct (decide (i + 1 = n)) as [Hlast|Hlast].
    + rewrite (mod_is (i + 1) n 1 0) by lia. apply (mod_is _ n (-1)); lia.
    + rewrite (mod_is (i + 1) n 0 (i + 1)) by lia. apply (mod_is _ n 0); lia.
  - destruct (decide (i = 0)) as [Hfirst|Hfirst].
    + rewrite (mod_is (i - 1) n (-1) (n - 1)) by lia. apply (mod_is _ n 1); lia.
    + rewrite (mod_is (i - 1) n 0 (i - 1)) by lia. apply (mod_is _ n 0); lia.
Qed.

(** On a non-empty list with the cursor in range, [prev] undoes [next]
    and [next] undoes [prev]: the cursor is back where it was and the
    overlay shows that node again; and as many [next] as there are nodes
    bring the cursor back to where it started. *)
Theorem next_prev_inverse (st : State) :
  nodes st <> [] -> 0 <= idx st < count st ->
  idx (listener prev (listener next st)) = idx st
  /\ idx (listener next (listener prev st)) = idx st
  /\ showing (listener prev (listener next st))
  /\ nodes (listener prev (listener next st)) = nodes st
  /\ idx (Nat.iter (length (nodes st)) (listener next) st) = idx st.
Proof.
  intros Hne Hi. pose proof (count_pos st Hne) as Hn.
  destruct (mod_succ_pred (idx st) (count st) Hi) as [Hsp Hps].
  destruct (next_cases st) as (s1 & Hnext & Hsame1 & _ & _ & Hf1); [lia|].
  destruct (Hf1 Hne) as (Hi1 & Hr1 & _).
  assert (Hn1 : nodes s1 = nodes st) by apply Hsame1.
  assert (Hc1 : count s1 = count st) by (unfold count; by rewrite Hn1).
  destruct (prev_cases s1) as (s2 & Hprev & Hsame2 & _ & _ & Hf2); [lia|].
  destruct Hf2 as (Hi2 & _ & Hshow2); [by rewrite Hn1|].
  destruct (prev_cases st) as (p1 & Hprev' & Hsame1' & _ & _ & Hf1'); [lia|].
  destruct (Hf1' Hne) as (Hj1 & Hq1 & _).
  assert (Hm1 : nodes p1 = nodes st) by apply Hsame1'.
  assert (Hd1 : count p1 = count st) by (unfold count; by rewrite Hm1).
  destruct (next_cases p1) as (p2 & Hnext' & _ & _ & _ & Hf2'); [lia|].
  destruct Hf2' as (Hj2 & _); [by rewrite Hm1|].
  assert (E1 : listener prev (listener next st) = s2)
    by (unfold listener; rewrite Hnext; cbn [fst]; by rewrite Hprev).
  assert (E2 : listener next (listener prev st) = p2)
    by (unfold listener; rewrite Hprev'; cbn [fst]; by rewrite Hnext').
  rewrite E1, E2.
  split; [|split; [|split; [done|split]]].
  - rewrite Hi2, Hc1, wrap_mod by lia.
    rewrite Hi1, wrap_mod by lia. exact Hsp.
  - rewrite Hj2, Hd1, wrap_mod by lia.
    rewrite Hj1, wrap_mod by lia. exact Hps.
  - by rewrite (proj1 (proj2 Hsame2)).
  - destruct (next_iter st (length (nodes st)) Hne Hi) as [_ Hit].
    rewrite Hit. fold (count st).
    apply (mod_is _ _ 1); lia.
Qed.

Lemma next_prev_inverse_witness :
  idx (listener prev (listener next sampleOpened)) = 2.
Proof.
  refine (eq_trans (proj1 (next_prev_inverse sampleOpened _ _)) _).
  - discriminate.
  - vm_compute. split; [discriminate | reflexivity].
  - reflexivity.
Defined.

(** *** Opening on a thumbnail *)

Lemma indexOf_NoDup (l : list Img) (i : nat) (x : Img) :
  NoDup l -> l !! i = Some x -> indexOf x l = Z.of_nat i.
Proof.
  revert i. induction l as [|y r IH]; intros i Hnd Hi; [by rewrite lookup_nil in Hi|].
  apply NoDup_cons in Hnd as [Hy Hnd]. cbn [indexOf].
  destruct i as [|j]; cbn in Hi.
  - injection Hi as ->. by rewrite bool_decide_eq_true_2.
  - rewrite bool_decide_eq_false_2.
    2:{ intros ->. apply Hy. by eapply list_elem_of_lookup_2. }
    rewrite (IH j Hnd Hi). rewrite (proj2 (Z.ltb_ge _ _)) by lia. lia.
Qed.

(** A click on a thumbnail of the grid recollects the nodes and puts the
    cursor on the first position that thumbnail has in the grid; the
    elements of a grid being distinct nodes, a click on the thumbnail at
    position [i] puts the cursor at [i]. *)
Theorem click_sets_cursor (st : State) (img : Img) :
  img ∈ grid st ->
  nodes (step st (ClickThumb img)) = grid st
  /\ idx (step st (ClickThumb img)) = indexOf img (grid st)
  /\ (forall i : nat,
        NoDup (grid st) -> grid st !! i = Some img ->
        idx (step st (ClickThumb img)) = Z.of_nat i).
Proof.
  intros Hin.
  set (st1 := fst (collect st)).
  assert (Hn1 : nodes st1 = grid st) by done.
  destruct (indexOf_elem img (nodes st1)) as [Hr Hl]; [by rewrite Hn1|].
  assert (Hne : nodes st1 <> []) by (intros He; by rewrite He in Hl).
  destruct (open_cases st1 (indexOf img (nodes st1)) (proj1 Hr))
    as (st' & Hopen & Hsame & _ & _ & Hf).
  destruct (Hf Hne) as (Hidx & _).
  assert (Hh : handler (ClickThumb img) st = (st', Normal tt)).
  { cbn [handler]. unfold mbind, Eff_bind, gets.
    change (collect st) with (st1, Normal tt). cbv beta iota.
    by rewrite (proj2 (Z.leb_le _ _) (proj1 Hr)). }
  unfold step, listener. rewrite Hh. cbn [fst].
  assert (Hi : idx st' = indexOf img (grid st)).
  { rewrite Hidx. unfold count. rewrite wrap_mod by lia.
    rewrite Hn1 in *. apply Z.mod_small. lia. }
  split; [by rewrite (proj1 (proj2 Hsame))|]. split; [done|].
  intros i Hnd Hgi. rewrite Hi. by apply indexOf_NoDup.
Qed.

Lemma click_sets_cursor_witness :
  idx (step (initial sampleGrid) (ClickThumb (sampleImg 3 "d"))) = 3.
Proof.
  destruct (click_sets_cursor (initial sampleGrid) (sampleImg 3 "d")) as (_ & _ & H).
  - cbn. do 3 apply list_elem_of_further. apply list_elem_of_here.
  - apply (H 3%nat); [|reflexivity].
    apply (bool_decide_unpack _). by vm_compute.
Defined.

(** *** Keys while the overlay is hidden *)

(** While the overlay is hidden the keyboard does nothing: no sequence
    of key presses changes the state, in particular not after the
    overlay has been closed. *)
Theorem keys_ignored_when_hidden (st : State) (ks : list Key) :
  (shown st = false -> steps st (KeyDown <$> ks) = st)
  /\ (reachable st ->
      steps (step st ClickClose) (KeyDown <$> ks) = step st ClickClose).
Proof.
  assert (Hhidden : forall s, shown s = false -> steps s (KeyDown <$> ks) = s).
  { intros s Hs. induction ks as [|k r IH]; [done|].
    cbn [fmap list_fmap steps foldl].
    assert (Hk : step s (KeyDown k) = s).
    { unfold step, listener. cbn [handler]. unfold mbind, Eff_bind, gets.
      by rewrite Hs. }
    rewrite Hk. exact IH. }
  split; [apply Hhidden|].
  intros Hst. apply Hhidden.
  destruct (close_through st (reachable_Inv st Hst)) as (_ & _ & _ & _ & _ & Hsh & _).
  exact Hsh.
Qed.

Lemma keys_ignored_when_hidden_witness :
  steps (initial sampleGrid) (KeyDown <$> [ArrowRight; Space; ArrowLeft])
  = initial sampleGrid.
Proof.
  by apply (proj1 (keys_ignored_when_hidden (initial sampleGrid)
                     [ArrowRight; Space; ArrowLeft])).
Defined.

(** *** The autoplay timer *)

(** In every state the lightbox can reach, a tick of the timer the
    closure holds does what the next button does, and a tick of any other
    timer, such as one cleared by [stop] or [close], changes nothing. *)
Theorem tick_is_next (st : State) (t : positive) :
  reachable st ->
  (timer st = Some t -> step st (Tick t) = step st ClickNext)
  /\ (timer st <> Some t -> step st (Tick t) = st).
Proof.
  intros Hst. destruct (reachable_Inv st Hst) as (_ & Hint & _).
  unfold step, listener. cbn [handler]. unfold mbind, Eff_bind, gets.
  rewrite Hint. unfold held. split.
  - intros ->. by rewrite bool_decide_eq_true_2 by (by apply elem_of_singleton).
  - intros Ht. rewrite bool_decide_eq_false_2; [done|].
    destruct (timer st) as [t'|]; [|by apply not_elem_of_empty].
    intros ->%elem_of_singleton. done.
Qed.

Lemma tick_is_next_witness :
  idx (step samplePlaying (Tick 1)) = 3
  /\ step samplePlaying (Tick 2) = samplePlaying.
Proof.
  destruct (tick_is_next samplePlaying 1) as [H1 _];
    [apply reachable_step, reachable_step, reachable_initial|].
  destruct (tick_is_next samplePlaying 2) as [_ H2];
    [apply reachable_step, reachable_step, reachable_initial|].
  split.
  - rewrite H1; [by vm_compute | by vm_compute].
  - apply H2. vm_compute. discriminate.
Defined.

(** *** The play toggle *)




(** *** Preloading *)

Lemma show_neighbours (st : State) (i : Z) :
  nodes st <> [] -> - count st <= i ->
  exists img before after,
    nodes st !! Z.to_nat (wrap i (count st)) = Some img
    /\ nodes st !! Z.to_nat (wrap (wrap i (count st) + -1) (count st)) = Some before
    /\ nodes st !! Z.to_nat (wrap (wrap i (count st) + 1) (count st)) = Some after
    /\ show i st = (shownAt st (wrap i (count st)) img before after, Normal tt).
Proof.
  intros Hne Hi. pose proof (count_pos st Hne) as Hn.
  pose proof (wrap_range i _ Hn Hi) as Hj.
  set (j := wrap i (count st)) in *.
  unfold show, mbind, Eff_bind, gets. fold (count st).
  rewrite (proj2 (Z.eqb_neq _ _)) by lia. fold j.
  set (st1 := fst (setIdx j st)).
  change (setIdx j st) with (st1, Normal tt). cbv beta iota.
  destruct (nodeAt_lookup st1 j) as (img & Himg & ->); [done|].
  cbv beta iota.
  set (st2 := fst (setOverlay (largestSrc img) (Js.orElse (altAttr img) EmptyString)
                              (captionFor img) st1)).
  change (setOverlay _ _ _ st1) with (st2, Normal tt). cbv beta iota.
  destruct (nodeAt_lookup st2 (wrap (j + -1) (count st))) as (before & Hb & ->).
  { change (count st2) with (count st). apply wrap_range; lia. }
  cbv beta iota.
  set (st3 := fst (preload (largestSrc before) st2)).
  change (preload _ st2) with (st3, Normal tt). cbv beta iota.
  destruct (nodeAt_lookup st3 (wrap (j + 1) (count st))) as (after & Ha & ->).
  { change (count st3) with (count st). apply wrap_range; lia. }
  cbv beta iota.
  exists img, before, after.
  split; [exact Himg|]. split; [exact Hb|]. split; [exact Ha|].
  unfold preload, modify, shownAt. cbn. by rewrite <- app_assoc.
Qed.

(** Whatever [show] puts in the overlay, it has requested both
    neighbours: the image the overlay shows after the next [next], and
    after the next [prev], is among the preloaded ones. *)
Theorem neighbours_preloaded (st : State) (i : Z) :
  nodes st <> [] -> - count st <= i ->
  imgSrc (fst (next (fst (show i st)))) ∈ preloads (fst (show i st))
  /\ imgSrc (fst (prev (fst (show i st)))) ∈ preloads (fst (show i st)).
Proof.
  intros Hne Hi. pose proof (count_pos st Hne) as Hn.
  pose proof (wrap_range i _ Hn Hi) as Hj.
  destruct (show_neighbours st i Hne Hi) as (img & b & a & _ & Hb & Ha & ->).
  cbn [fst]. set (st' := shownAt st _ img b a).
  assert (Hne' : nodes st' <> []) by done.
  assert (Hpre : preloads st' = preloads st ++ [largestSrc b; largestSrc a]) by done.
  split.
  - destruct (show_neighbours st' (idx st' + 1) Hne') as (x & y & z & Hx & _ & _ & Hs).
    { change (count st') with (count st). change (idx st') with (wrap i (count st)). lia. }
    change (nodes st') with (nodes st) in Hx. change (count st') with (count st) in Hx.
    change (idx st') with (wrap i (count st)) in Hx.
    assert (x = a) by congruence. subst x.
    unfold next, mbind, Eff_bind, gets. rewrite Hs. cbn [fst shownAt imgSrc].
    rewrite Hpre. apply elem_of_app. right. do 1 apply list_elem_of_further.
    apply list_elem_of_here.
  - destruct (show_neighbours st' (idx st' - 1) Hne') as (x & y & z & Hx & _ & _ & Hs).
    { change (count st') with (count st). change (idx st') with (wrap i (count st)). lia. }
    change (nodes st') with (nodes st) in Hx. change (count st') with (count st) in Hx.
    change (idx st' - 1) with (wrap i (count st) + -1) in Hx.
    assert (x = b) by congruence. subst x.
    unfold prev, mbind, Eff_bind, gets. rewrite Hs. cbn [fst shownAt imgSrc].
    rewrite Hpre. apply elem_of_app. right. apply list_elem_of_here.
Qed.

Lemma neighbours_preloaded_witness :
  imgSrc (fst (next sampleOpened)) ∈ preloads sampleOpened.
Proof.
  refine (proj1 (neighbours_preloaded (initial sampleGrid) 2 _ _)).
  - discriminate.
  - vm_compute. discriminate.
Defined.

(** *** Swipes *)

(** A touch that ends within forty pixels of where it started
    horizontally, or that moved at least as far vertically as
    horizontally, changes nothing but the remembered start; a longer,
    mostly horizontal one does what the next button does when it went
    left and what the previous button does when it went right. *)
Theorem swipe_navigates (st : State) (x0 y0 x1 y1 : Z) :
  let started := step st (TouchStart x0 y0) in
  (Z.abs (x1 - x0) <= 40 \/ Z.abs (x1 - x0) <= Z.abs (y1 - y0) ->
   steps st [TouchStart x0 y0; TouchEnd x1 y1] = started)
  /\ (40 < Z.abs (x1 - x0) -> Z.abs (y1 - y0) < Z.abs (x1 - x0) -> x1 < x0 ->
      steps st [TouchStart x0 y0; TouchEnd x1 y1] = step started ClickNext)
  /\ (40 < Z.abs (x1 - x0) -> Z.abs (y1 - y0) < Z.abs (x1 - x0) -> x0 < x1 ->
      steps st [TouchStart x0 y0; TouchEnd x1 y1] = step started ClickPrev).
Proof.
  intros started. unfold steps. cbn [foldl]. fold started.
  assert (Hx : sx started = x0) by done.
  assert (Hy : sy started = y0) by done.
  assert (Hend : step started (TouchEnd x1 y1)
                 = if (40 <? Z.abs (x1 - x0)) && (Z.abs (y1 - y0) <? Z.abs (x1 - x0))
                   then (if x1 - x0 <? 0 then step started ClickNext
                         else step started ClickPrev)
                   else started).
  { unfold step, listener. cbn [handler]. unfold mbind, Eff_bind, gets.
    rewrite Hx, Hy.
    destruct (40 <? Z.abs (x1 - x0)), (Z.abs (y1 - y0) <? Z.abs (x1 - x0));
      cbn [andb]; try reflexivity.
    by destruct (x1 - x0 <? 0). }
  rewrite Hend. split; [|split].
  - intros Hsmall.
    destruct (Z.ltb_spec 40 (Z.abs (x1 - x0))); [|done].
    destruct (Z.ltb_spec (Z.abs (y1 - y0)) (Z.abs (x1 - x0))); [|done]. lia.
  - intros H1 H2 H3.
    rewrite (proj2 (Z.ltb_lt _ _) H1), (proj2 (Z.ltb_lt _ _) H2). cbn [andb].
    by rewrite (proj2 (Z.ltb_lt (x1 - x0) 0)) by lia.
  - intros H1 H2 H3.
    rewrite (proj2 (Z.ltb_lt _ _) H1), (proj2 (Z.ltb_lt _ _) H2). cbn [andb].
    by rewrite (proj2 (Z.ltb_ge (x1 - x0) 0)) by lia.
Qed.

Lemma swipe_navigates_witness :
  idx (steps sampleOpened [TouchStart 300 200; TouchEnd 180 220]) = 3
  /\ idx (steps sampleOpened [TouchStart 300 200; TouchEnd 290 400]) = 2.
Proof.
  destruct (swipe_navigates sampleOpened 300 200 180 220) as (_ & Hleft & _).
  destruct (swipe_navigates sampleOpened 300 200 290 400) as (Hsmall & _).
  split.
  - rewrite Hleft; [by vm_compute | by vm_compute | by vm_compute | by vm_compute].
  - rewrite Hsmall; [by vm_compute | left; by vm_compute].
Defined.

End LightboxMore.

(** ** gallery.js: properties of the card image *)

Module ThumbnailFacts.
Import Gallery Lightbox Props LightboxProps Thumbnail MoreProps GalleryFacts LightboxFacts.

Lemma app_empty_r (s : string) : s +:+ EmptyString = s.
Proof. induction s as [|c r IH]; [done|]. str_cons. by rewrite IH. Qed.

Lemma parseInt_decimal (n : N) : Js.parseInt (Js.decimal n) = Some (Z.of_N n).
Proof.
  unfold Js.parseInt.
  destruct (decimal_digits n) as [Hd Hne].
  pose proof (parseDigits_decimal n EmptyString) as Hp. rewrite app_empty_r in Hp.
  destruct (Js.decimal n) as [|d r]; [done|].
  cbn in Hd. apply andb_prop in Hd as [Hd _].
  destruct (isDigit_plain d Hd) as (Hsp & _ & Hminus & Hplus).
  cbn [Js.trimStart]. by rewrite Hsp, Hminus, Hplus, Hp.
Qed.

Lemma decimal_inj (a b : N) : Js.decimal a = Js.decimal b -> a = b.
Proof.
  intros H. pose proof (parseInt_decimal a) as Ha.
  rewrite H, parseInt_decimal in Ha. injection Ha. lia.
Qed.

Lemma numberToString_of_N (n : N) : numberToString (Z.of_N n) = Js.decimal n.
Proof.
  unfold numberToString. rewrite (proj2 (Z.ltb_ge _ _)) by lia. by rewrite N2Z.id.
Qed.

Lemma sizes_tableOf (vs : list (N * Variant)) :
  Forall (fun nv => (0 < fst nv)%N) vs ->
  sizes (Some (tableOf vs)) = (fun nv => Z.of_N (fst nv)) <$> vs.
Proof.
  unfold sizes. change (entries (Some (tableOf vs))) with (tableOf vs). unfold tableOf.
  induction 1 as [|[n v] r Hn _ IH]; [done|].
  cbn [fmap list_fmap omap list_omap fst snd] in *.
  rewrite parseInt_decimal. rewrite (proj2 (Z.eqb_neq _ _)) by lia.
  by rewrite <- IH.
Qed.

Lemma lookupKey_tableOf (vs : list (N * Variant)) (n : N) (v : Variant) :
  NoDup (fst <$> vs) -> (n, v) ∈ vs -> lookupKey (Js.decimal n) (tableOf vs) = Some v.
Proof.
  induction vs as [|[m u] r IH]; [by intros _ ?%elem_of_nil|].
  cbn [fmap list_fmap fst]. intros [Hm Hnd]%NoDup_cons Hin.
  cbn [tableOf fmap list_fmap lookupKey fst snd].
  apply elem_of_cons in Hin as [[= -> ->]|Hin].
  - by rewrite String.eqb_refl.
  - destruct (String.eqb_spec (Js.decimal m) (Js.decimal n)) as [He|_].
    + apply decimal_inj in He. subst m. exfalso. apply Hm.
      apply list_elem_of_fmap. by exists (n, v).
    + by apply IH.
Qed.

Lemma join_candidates (cs : list Candidate) :
  join ", " (candidateText <$> cs) = srcsetText cs.
Proof.
  induction cs as [|c r IH]; [done|].
  destruct r as [|c' r']; [done|].
  cbn [fmap list_fmap join srcsetText] in *. by rewrite IH.
Qed.

Lemma pairOf_tableOf (vs : list (N * Variant)) (n : N) (v : Variant) :
  NoDup (fst <$> vs) -> (n, v) ∈ vs -> pairOf (tableOf vs) (Z.of_N n) = (n, v).
Proof.
  intros Hnd Hin. unfold pairOf.
  by rewrite numberToString_of_N, (lookupKey_tableOf vs n v Hnd Hin), N2Z.id.
Qed.

Lemma pieces_tableOf (vs : list (N * Variant)) (ss : list Z) :
  NoDup (fst <$> vs) ->
  (forall s, s ∈ ss -> exists n v, s = Z.of_N n /\ (n, v) ∈ vs) ->
  pieces (tableOf vs) ss
  = Normal (candidateText <$> (candidateOf <$> (pairOf (tableOf vs) <$> ss))).
Proof.
  intros Hnd. induction ss as [|s r IH]; intros Hss; [done|].
  destruct (Hss s (list_elem_of_here _ _)) as (n & v & -> & Hin).
  cbn [pieces fmap list_fmap].
  rewrite IH by (intros s' Hs'; apply Hss; by apply list_elem_of_further).
  rewrite (pairOf_tableOf vs n v Hnd Hin).
  by rewrite numberToString_of_N, (lookupKey_tableOf vs n v Hnd Hin).
Qed.

Lemma ascending_flip (a b : Z) : ascending a b = Gt -> notAfter ascending b a.
Proof. unfold notAfter, ascending. intros H%Z.compare_gt_iff H'%Z.compare_gt_iff. lia. Qed.

Lemma ascending_trans (a b c : Z) :
  notAfter ascending a b -> notAfter ascending b c -> notAfter ascending a c.
Proof.
  unfold notAfter, ascending. intros H1 H2 H3%Z.compare_gt_iff.
  destruct (Z.compare_spec a b), (Z.compare_spec b c); try done; lia.
Qed.

Lemma descending_flip (a b : Z) : descending a b = Gt -> notAfter descending b a.
Proof. unfold notAfter, descending. intros H%Z.compare_gt_iff H'%Z.compare_gt_iff. lia. Qed.

Lemma descending_trans (a b c : Z) :
  notAfter descending a b -> notAfter descending b c -> notAfter descending a c.
Proof.
  unfold notAfter, descending. intros H1 H2 H3%Z.compare_gt_iff.
  destruct (Z.compare_spec b a), (Z.compare_spec c b); try done; lia.
Qed.

Lemma sizes_elem (vs : list (N * Variant)) (s : Z) :
  Forall (fun nv => (0 < fst nv)%N) vs ->
  s ∈ sizes (Some (tableOf vs)) <-> exists n v, s = Z.of_N n /\ (n, v) ∈ vs.
Proof.
  intros Hpos. rewrite (sizes_tableOf vs Hpos), list_elem_of_fmap. split.
  - intros ([n v] & -> & Hin). by exists n, v.
  - intros (n & v & -> & Hin). by exists (n, v).
Qed.

Lemma wfTable_plain (vs : list (N * Variant)) : wfTable vs -> plainTable vs.
Proof.
  intros [Hnd Hwf]. split; [done|]. eapply Forall_impl; [exact Hwf|].
  by intros nv (_ & _ & Hw).
Qed.

Lemma plainTable_pos (vs : list (N * Variant)) :
  plainTable vs -> Forall (fun nv => (0 < fst nv)%N) vs.
Proof.
  intros [_ Hwf]. eapply Forall_impl; [exact Hwf|].
  intros nv Hw. cbn in Hw. lia.
Qed.

(** The sizes of a plain table, in ascending order, with the renditions
    they stand for. *)
Lemma sorted_pairs (vs : list (N * Variant)) :
  plainTable vs ->
  let ws := pairOf (tableOf vs) <$> Js.sortBy ascending (sizes (Some (tableOf vs))) in
  ws ≡ₚ vs
  /\ StronglySorted (fun a b => (fst a <= fst b)%N) ws
  /\ buildSrcset (Some (tableOf vs)) = Normal (srcsetText (candidateOf <$> ws)).
Proof.
  intros Hwf ws. pose proof (plainTable_pos vs Hwf) as Hpos. destruct Hwf as [Hnd Hwf].
  split; [|split].
  - unfold ws. rewrite (sortBy_Permutation ascending), (sizes_tableOf vs Hpos).
    rewrite <- list_fmap_compose.
    rewrite (list_fmap_ext _ id vs); [by rewrite list_fmap_id|].
    intros i [n v] Hi. cbn. apply pairOf_tableOf; [done|].
    by eapply list_elem_of_lookup_2.
  - unfold ws. apply (StronglySorted_fmap _ (notAfter ascending)).
    + intros x y Hxy. unfold notAfter, ascending in Hxy. cbn.
      destruct (Z.compare_spec x y); try done; lia.
    + apply sortBy_sorted; [apply ascending_flip | apply ascending_trans].
  - unfold buildSrcset. change (entries (Some (tableOf vs))) with (tableOf vs).
    rewrite (pieces_tableOf vs) by
      (try done; intros s Hs; apply (sizes_elem vs s Hpos);
       by rewrite <- (sortBy_Permutation ascending)).
    by rewrite join_candidates.
Qed.

(** For a table whose keys are the decimal forms of distinct positive
    widths below 2^53, whatever its file names, [buildSrcset] returns the
    candidates [url Nw] of all its renditions, each once, in ascending
    order of width, joined by comma and space; for an empty or missing
    table it returns the empty string. *)
Theorem buildSrcset_ascending (vs : list (N * Variant)) :
  plainTable vs ->
  exists ws : list (N * Variant),
    ws ≡ₚ vs
    /\ StronglySorted (fun a b => (fst a <= fst b)%N) ws
    /\ buildSrcset (Some (tableOf vs)) = Normal (srcsetText (candidateOf <$> ws))
    /\ buildSrcset None = Normal EmptyString
    /\ (vs = [] -> buildSrcset (Some (tableOf vs)) = Normal EmptyString).
Proof.
  intros Hwf. destruct (sorted_pairs vs Hwf) as (Hp & Hs & Hb).
  eexists. split; [exact Hp|]. split; [exact Hs|]. split; [exact Hb|].
  split; [done|]. by intros ->.
Qed.

Lemma sampleRenditions_wf : wfTable MoreSamples.sampleRenditions.
Proof.
  split; [apply (bool_decide_unpack _); by vm_compute|].
  repeat constructor; try discriminate; try reflexivity.
Qed.

Lemma buildSrcset_ascending_witness :
  buildSrcset (Some (tableOf MoreSamples.sampleSpaced))
  = Normal "my photo-800.jpg 800w, my photo-1600.jpg 1600w".
Proof.
  destruct (buildSrcset_ascending MoreSamples.sampleSpaced) as (ws & _ & _ & H & _).
  - split; [apply (bool_decide_unpack _); by vm_compute|].
    repeat constructor; try discriminate; try reflexivity.
  - rewrite H. by vm_compute in H.
Defined.

Lemma wfTable_unique (vs : list (N * Variant)) (n : N) (v v' : Variant) :
  wfTable vs -> (n, v) ∈ vs -> (n, v') ∈ vs -> v = v'.
Proof.
  intros [Hnd _] H1 H2.
  pose proof (lookupKey_tableOf vs n v Hnd H1) as L1.
  pose proof (lookupKey_tableOf vs n v' Hnd H2) as L2. congruence.
Qed.

Lemma widest_rendition (vs : list (N * Variant)) :
  plainTable vs -> vs <> [] ->
  exists n v,
    (n, v) ∈ vs
    /\ largestVariant (Some (tableOf vs)) = Some v
    /\ forall n' v', (n', v') ∈ vs -> (n' <= n)%N.
Proof.
  intros Hwf Hne. pose proof (plainTable_pos vs Hwf) as Hpos.
  unfold largestVariant. change (entries (Some (tableOf vs))) with (tableOf vs).
  pose proof (sortBy_Permutation descending (sizes (Some (tableOf vs)))) as Hperm.
  pose proof (sortBy_sorted descending descending_flip descending_trans
                (sizes (Some (tableOf vs)))) as Hsorted.
  destruct (Js.sortBy descending (sizes (Some (tableOf vs)))) as [|s rest] eqn:Hs.
  { apply Permutation_nil_l in Hperm. rewrite (sizes_tableOf vs Hpos) in Hperm.
    by destruct vs. }
  assert (Hin : s ∈ sizes (Some (tableOf vs))) by (rewrite <- Hperm; apply list_elem_of_here).
  apply (sizes_elem vs s Hpos) in Hin as (n & v & -> & Hin).
  exists n, v. split; [done|]. split.
  - rewrite numberToString_of_N. apply lookupKey_tableOf; [apply Hwf | done].
  - intros n' v' Hin'.
    assert (Hs' : Z.of_N n' ∈ Z.of_N n :: rest).
    { rewrite Hperm. apply (sizes_elem vs _ Hpos). by exists n', v'. }
    apply elem_of_cons in Hs' as [Heq|Hrest]; [lia|].
    apply StronglySorted_inv in Hsorted as [_ Hall]. rewrite Forall_forall in Hall.
    specialize (Hall _ Hrest). unfold notAfter, descending in Hall.
    destruct (Z.compare_spec (Z.of_N n') (Z.of_N n)); try done; lia.
Qed.

(** [largestVariant] returns the rendition stored under the largest
    width of a table keyed by the decimal forms of distinct positive
    widths below 2^53, and nothing for an empty or missing table. *)
Theorem largestVariant_widest (vs : list (N * Variant)) :
  plainTable vs ->
  largestVariant None = None
  /\ (vs = [] -> largestVariant (Some (tableOf vs)) = None)
  /\ (vs <> [] ->
      exists n v,
        (n, v) ∈ vs
        /\ largestVariant (Some (tableOf vs)) = Some v
        /\ forall n' v', (n', v') ∈ vs -> (n' <= n)%N).
Proof.
  intros Hwf. split; [done|]. split.
  - by intros ->.
  - by apply widest_rendition.
Qed.

Lemma largestVariant_widest_witness :
  largestVariant (Some (tableOf MoreSamples.sampleSpaced))
  = Some (mkVariant "my photo-1600.jpg" 1600 1067).
Proof.
  destruct (largestVariant_widest MoreSamples.sampleSpaced) as (_ & _ & H).
  - split; [apply (bool_decide_unpack _); by vm_compute|].
    repeat constructor; try discriminate; try reflexivity.
  - destruct H as (n & v & _ & Hv & _); [discriminate|]. rewrite Hv.
    by vm_compute in Hv.
Defined.

(** The thumbnail [createCard] builds and the lightbox reads agree: for a
    well-formed, non-empty table the [img] gets the largest rendition as
    [src] and the list of [buildSrcset] as [srcset], and [largestSrc] on
    any image carrying that [srcset] attribute returns the file of that
    same largest rendition. *)
Theorem lightbox_opens_largest_rendition (vs : list (N * Variant)) :
  wfTable vs -> vs <> [] ->
  exists (v : Variant) (im : Image) (ss : string),
    largestVariant (Some (tableOf vs)) = Some v
    /\ cardImage (Some (tableOf vs)) = Normal im
    /\ aspectRatio im = Js.decimal (v_w v) +:+ " / " +:+ Js.decimal (v_h v)
    /\ img_src im = Some (v_src v)
    /\ img_srcset im = Some ss
    /\ forall img : Img, srcset img = Some ss -> largestSrc img = v_src v.
Proof.
  intros Hwf Hne. pose proof (wfTable_plain vs Hwf) as Hplain.
  destruct (sorted_pairs vs Hplain) as (Hperm & _ & Hbuild).
  set (ws := pairOf (tableOf vs) <$> _) in *.
  assert (Hl : exists n v,
             (n, v) ∈ vs
             /\ largestVariant (Some (tableOf vs)) = Some v
             /\ forall n' v', (n', v') ∈ vs -> (n' <= n)%N)
    by (by apply widest_rendition).
  destruct Hl as (n & v & Hin & Hlargest & Hmax).
  set (cs := candidateOf <$> ws) in *.
  assert (Hcs_wf : Forall wfCandidate cs).
  { unfold cs. rewrite Forall_fmap. rewrite Hperm. apply Hwf. }
  assert (Hcs_ne : cs <> []).
  { unfold cs. intros He%fmap_nil_inv. rewrite He in Hperm.
    apply Permutation_nil_l in Hperm. done. }
  assert (Htruthy : Js.truthy (Some (srcsetText cs)) = true).
  { destruct cs as [|c0 r]; [done|].
    pose proof (Forall_inv Hcs_wf) as (Hurl & _).
    assert (Hc : exists x t, candidateText c0 = String x t).
    { unfold candidateText. destruct (c_url c0) as [|x u]; [done|]. by eexists _, _. }
    destruct Hc as (x & t & Hc). destruct r; cbn; by rewrite Hc. }
  exists v, (mkImage (Js.decimal (v_w v) +:+ " / " +:+ Js.decimal (v_h v))
                     (Some (v_src v)) (Some (srcsetText cs))), (srcsetText cs).
  split; [done|]. split.
  { unfold cardImage. by rewrite Hbuild, Hlargest, Htruthy. }
  split; [done|]. split; [done|]. split; [done|].
  intros img Himg.
  destruct (largestSrc_srcset img cs Hcs_ne Hcs_wf Himg)
    as (l1 & c & l2 & Hsplit & -> & H1 & H2).
  assert (Hc : c ∈ cs) by (rewrite Hsplit; apply elem_of_app; right; apply list_elem_of_here).
  unfold cs in Hc. apply list_elem_of_fmap in Hc as ([nc vc] & -> & Hc).
  rewrite Hperm in Hc. cbn [candidateOf c_url snd fst].
  assert (Hn : candidateOf (n, v) ∈ cs).
  { unfold cs. apply list_elem_of_fmap. exists (n, v). by rewrite Hperm. }
  rewrite Hsplit in Hn.
  assert (Hle : (n <= nc)%N).
  { apply elem_of_app in Hn as [Hn|Hn].
    - specialize (H1 _ Hn). cbn in H1. lia.
    - apply elem_of_cons in Hn as [Hn|Hn].
      + injection Hn as _ ->. lia.
      + specialize (H2 _ Hn). cbn in H2. lia. }
  assert (nc = n) by (specialize (Hmax nc vc Hc); lia). subst nc.
  by rewrite (wfTable_unique vs n vc v Hwf Hc Hin).
Qed.

Lemma lightbox_opens_largest_rendition_witness :
  exists ss : string,
    cardImage (Some (tableOf MoreSamples.sampleRenditions))
    = Normal (mkImage "2400 / 1600" (Some "heron-2400.jpg") (Some ss))
    /\ largestSrc (mkImg 0 (Some ss) EmptyString "https://example.org/heron-2400.jpg"
                         None None None) = "heron-2400.jpg".
Proof.
  destruct (lightbox_opens_largest_rendition MoreSamples.sampleRenditions)
    as (v & im & ss & Hv & Him & Hr & Hsrc & Hss & Hlb).
  - exact sampleRenditions_wf.
  - discriminate.
  - exists ss.
    assert (v = mkVariant "heron-2400.jpg" 2400 1600) by (vm_compute in Hv; congruence).
    subst v. split.
    + rewrite Him. destruct im as [r s0 t0]. cbn in Hr, Hsrc, Hss. by subst.
    + by apply Hlb.
Defined.

(** *** A key that is not the decimal form of its number *)

Lemma pieces_throw (tbl : list (string * Variant)) (ss : list Z) (s : Z) :
  s ∈ ss -> lookupKey (numberToString s) tbl = None ->
  exists msg, pieces tbl ss = Throw msg.
Proof.
  induction ss as [|s0 r IH]; [by intros ?%elem_of_nil|].
  intros Hin Hnone. cbn [pieces].
  destruct (lookupKey (numberToString s0) tbl) as [v0|] eqn:H0; [|by eexists].
  apply elem_of_cons in Hin as [->|Hin]; [congruence|].
  destruct (IH Hin Hnone) as (msg & ->). by eexists.
Qed.

(** [buildSrcset] reads each rendition back under the decimal form of
    the number its key starts with.  When some key reads as a non-zero
    number under whose decimal form the table has no entry (a padded key,
    a key with a unit), the read of [.src] throws, and with it the
    construction of the card's image. *)
Theorem buildSrcset_throws (tbl : list (string * Variant)) (k : string) (v : Variant) (z : Z) :
  (k, v) ∈ tbl -> Js.parseInt k = Some z -> z <> 0 ->
  lookupKey (numberToString z) tbl = None ->
  exists msg, buildSrcset (Some tbl) = Throw msg /\ cardImage (Some tbl) = Throw msg.
Proof.
  intros Hin Hparse Hz Hnone.
  assert (Hs : z ∈ Js.sortBy ascending (sizes (Some tbl))).
  { rewrite (sortBy_Permutation ascending). unfold sizes.
    apply list_elem_of_omap. exists (k, v). split; [done|].
    cbn [fst]. rewrite Hparse. by rewrite (proj2 (Z.eqb_neq _ _)). }
  destruct (pieces_throw tbl _ z Hs Hnone) as (msg & Hp).
  exists msg. unfold cardImage, buildSrcset.
  change (entries (Some tbl)) with tbl. by rewrite Hp.
Qed.

Lemma buildSrcset_throws_witness :
  exists msg, cardImage (Some MoreSamples.samplePadded) = Throw msg.
Proof.
  destruct (buildSrcset_throws MoreSamples.samplePadded "0800"
              (mkVariant "heron-800.jpg" 800 533) 800) as (msg & _ & H).
  - apply list_elem_of_here.
  - reflexivity.
  - discriminate.
  - reflexivity.
  - by exists msg.
Defined.

End ThumbnailFacts.
